(** * NextPoints: the multi-frame spatial cache and its coordinate transforms

    A shallow embedding of [public/js/data.js] (class [Data]) and of
    [world.js] / [ego_pose.js] (classes [FrameInfo], [Images], [World],
    [EgoPose]) together with the properties the specification states about
    them.

    Conventions of the embedding.
    - JavaScript numbers that are cell coordinates, counters and frame indices
      are integers ([Z], where [-0] and [0] are the same integer).  Numbers
      that are coordinates of poses, points and matrices are idealised as
      exact rationals ([Qc]): every finite double is a rational, and the
      arithmetic is carried out without rounding.
    - JavaScript objects that are shared and mutated ([World] instances, the
      offset arrays) carry an identity; [World]s live in a heap indexed by
      that identity.
    - An object literal used as a map ([refEgoPose], [loaded_flag], [meta])
      is the finite map of its own properties; a read of a name it does not
      hold falls through to [Object.prototype].
    - Exceptions are modelled by a completion ([Normal] or [Thrown]); the
      state reached when the exception is raised is kept. *)

From Stdlib Require Import ZArith QArith Qcanon Qround Qminmax Field Lia List Bool.
From stdpp Require Import gmap strings list.

Local Open Scope Z_scope.

(** ** The part of three.js the cache uses *)

Module THREE.

Local Open Scope Qc_scope.

Record Vector3 := mkVector3 { v3x : Qc; v3y : Qc; v3z : Qc }.

Record Vector4 := mkVector4 { v4x : Qc; v4y : Qc; v4z : Qc; v4w : Qc }.

(** [new THREE.Quaternion(x, y, z, w)] *)
Record Quaternion := mkQuaternion { qx : Qc; qy : Qc; qz : Qc; qw : Qc }.

(** [new THREE.Euler(x, y, z, order)] *)
Record Euler := mkEuler { ex : Qc; ey : Qc; ez : Qc; order : string }.

(** A 4x4 matrix; [nRC] is the entry of row R and column C, that is
    [elements[4 * (C - 1) + (R - 1)]] of the column-major array. *)
Record Matrix4 := mkMatrix4 {
  n11 : Qc; n12 : Qc; n13 : Qc; n14 : Qc;
  n21 : Qc; n22 : Qc; n23 : Qc; n24 : Qc;
  n31 : Qc; n32 : Qc; n33 : Qc; n34 : Qc;
  n41 : Qc; n42 : Qc; n43 : Qc; n44 : Qc }.

(** Modelled from the spec: three.module.js (imported from [./lib]) is not
    among the sources.  [Matrix4] follows the spec's "4x4 homogeneous
    transforms", with the operations [calcTransformMatrix] calls as the
    library documents them.  [new THREE.Matrix4().identity()] *)
Definition identity : Matrix4 :=
  mkMatrix4 1 0 0 0
            0 1 0 0
            0 0 1 0
            0 0 0 1.

(** Modelled from the spec: three.module.js is not among the sources.  The
    matrix [set(0, ..., 0)] that [invert] leaves for a singular matrix. *)
Definition zero : Matrix4 :=
  mkMatrix4 0 0 0 0  0 0 0 0  0 0 0 0  0 0 0 0.

(** Modelled from the spec: three.module.js is not among the sources.
    [m.setPosition(x, y, z)] overwrites the translation column. *)
Definition setPosition (m : Matrix4) (x y z : Qc) : Matrix4 :=
  mkMatrix4 (n11 m) (n12 m) (n13 m) x
            (n21 m) (n22 m) (n23 m) y
            (n31 m) (n32 m) (n33 m) z
            (n41 m) (n42 m) (n43 m) (n44 m).

(** Modelled from the spec: three.module.js is not among the sources.
    [makeRotationFromQuaternion(q)] is "a rotation (from a unit quaternion)",
    that is [compose(zero, q, one)]; the quaternion is used as given (it is
    not normalised). *)
Definition makeRotationFromQuaternion (q : Quaternion) : Matrix4 :=
  let x := qx q in let y := qy q in let z := qz q in let w := qw q in
  let x2 := x + x in let y2 := y + y in let z2 := z + z in
  let xx := x * x2 in let xy := x * y2 in let xz := x * z2 in
  let yy := y * y2 in let yz := y * z2 in let zz := z * z2 in
  let wx := w * x2 in let wy := w * y2 in let wz := w * z2 in
  mkMatrix4 (1 - (yy + zz)) (xy - wz)        (xz + wy)        0
            (xy + wz)        (1 - (xx + zz)) (yz - wx)        0
            (xz - wy)        (yz + wx)        (1 - (xx + yy)) 0
            0                0                0                1.

(** Modelled from the spec: three.module.js is not among the sources.
    [multiplyMatrices(a, b)] is the composition, the product [a * b]. *)
Definition multiplyMatrices (a b : Matrix4) : Matrix4 :=
  mkMatrix4
    (n11 a * n11 b + n12 a * n21 b + n13 a * n31 b + n14 a * n41 b)
    (n11 a * n12 b + n12 a * n22 b + n13 a * n32 b + n14 a * n42 b)
    (n11 a * n13 b + n12 a * n23 b + n13 a * n33 b + n14 a * n43 b)
    (n11 a * n14 b + n12 a * n24 b + n13 a * n34 b + n14 a * n44 b)
    (n21 a * n11 b + n22 a * n21 b + n23 a * n31 b + n24 a * n41 b)
    (n21 a * n12 b + n22 a * n22 b + n23 a * n32 b + n24 a * n42 b)
    (n21 a * n13 b + n22 a * n23 b + n23 a * n33 b + n24 a * n43 b)
    (n21 a * n14 b + n22 a * n24 b + n23 a * n34 b + n24 a * n44 b)
    (n31 a * n11 b + n32 a * n21 b + n33 a * n31 b + n34 a * n41 b)
    (n31 a * n12 b + n32 a * n22 b + n33 a * n32 b + n34 a * n42 b)
    (n31 a * n13 b + n32 a * n23 b + n33 a * n33 b + n34 a * n43 b)
    (n31 a * n14 b + n32 a * n24 b + n33 a * n34 b + n34 a * n44 b)
    (n41 a * n11 b + n42 a * n21 b + n43 a * n31 b + n44 a * n41 b)
    (n41 a * n12 b + n42 a * n22 b + n43 a * n32 b + n44 a * n42 b)
    (n41 a * n13 b + n42 a * n23 b + n43 a * n33 b + n44 a * n43 b)
    (n41 a * n14 b + n42 a * n24 b + n43 a * n34 b + n44 a * n44 b).

(** Modelled from the spec: three.module.js is not among the sources.  The
    four cofactors [invert] expands the determinant along. *)
Definition t11 (m : Matrix4) : Qc :=
  n23 m * n34 m * n42 m - n24 m * n33 m * n42 m + n24 m * n32 m * n43 m
  - n22 m * n34 m * n43 m - n23 m * n32 m * n44 m + n22 m * n33 m * n44 m.

(** Modelled from the spec: as [t11]. *)
Definition t12 (m : Matrix4) : Qc :=
  n14 m * n33 m * n42 m - n13 m * n34 m * n42 m - n14 m * n32 m * n43 m
  + n12 m * n34 m * n43 m + n13 m * n32 m * n44 m - n12 m * n33 m * n44 m.

(** Modelled from the spec: as [t11]. *)
Definition t13 (m : Matrix4) : Qc :=
  n13 m * n24 m * n42 m - n14 m * n23 m * n42 m + n14 m * n22 m * n43 m
  - n12 m * n24 m * n43 m - n13 m * n22 m * n44 m + n12 m * n23 m * n44 m.

(** Modelled from the spec: as [t11]. *)
Definition t14 (m : Matrix4) : Qc :=
  n14 m * n23 m * n32 m - n13 m * n24 m * n32 m - n14 m * n22 m * n33 m
  + n12 m * n24 m * n33 m + n13 m * n22 m * n34 m - n12 m * n23 m * n34 m.

(** Modelled from the spec: three.module.js is not among the sources.
    [m.determinant()], expanded along the first column as [invert] does. *)
Definition determinant (m : Matrix4) : Qc :=
  n11 m * t11 m + n21 m * t12 m + n31 m * t13 m + n41 m * t14 m.

(** Modelled from the spec: three.module.js is not among the sources.
    [m.invert()] is the "exact matrix inverse" by the cofactor formula; a
    matrix of determinant 0 becomes the zero matrix. *)
Definition invert (m : Matrix4) : Matrix4 :=
  let det := determinant m in
  if decide (det = 0) then zero
  else
    let detInv := 1 / det in
    mkMatrix4
      (t11 m * detInv)
      (t12 m * detInv)
      (t13 m * detInv)
      (t14 m * detInv)
      ((n24 m * n33 m * n41 m - n23 m * n34 m * n41 m - n24 m * n31 m * n43 m
        + n21 m * n34 m * n43 m + n23 m * n31 m * n44 m - n21 m * n33 m * n44 m) * detInv)
      ((n13 m * n34 m * n41 m - n14 m * n33 m * n41 m + n14 m * n31 m * n43 m
        - n11 m * n34 m * n43 m - n13 m * n31 m * n44 m + n11 m * n33 m * n44 m) * detInv)
      ((n14 m * n23 m * n41 m - n13 m * n24 m * n41 m - n14 m * n21 m * n43 m
        + n11 m * n24 m * n43 m + n13 m * n21 m * n44 m - n11 m * n23 m * n44 m) * detInv)
      ((n13 m * n24 m * n31 m - n14 m * n23 m * n31 m + n14 m * n21 m * n33 m
        - n11 m * n24 m * n33 m - n13 m * n21 m * n34 m + n11 m * n23 m * n34 m) * detInv)
      ((n22 m * n34 m * n41 m - n24 m * n32 m * n41 m + n24 m * n31 m * n42 m
        - n21 m * n34 m * n42 m - n22 m * n31 m * n44 m + n21 m * n32 m * n44 m) * detInv)
      ((n14 m * n32 m * n41 m - n12 m * n34 m * n41 m - n14 m * n31 m * n42 m
        + n11 m * n34 m * n42 m + n12 m * n31 m * n44 m - n11 m * n32 m * n44 m) * detInv)
      ((n12 m * n24 m * n41 m - n14 m * n22 m * n41 m + n14 m * n21 m * n42 m
        - n11 m * n24 m * n42 m - n12 m * n21 m * n44 m + n11 m * n22 m * n44 m) * detInv)
      ((n14 m * n22 m * n31 m - n12 m * n24 m * n31 m - n14 m * n21 m * n32 m
        + n11 m * n24 m * n32 m + n12 m * n21 m * n34 m - n11 m * n22 m * n34 m) * detInv)
      ((n23 m * n32 m * n41 m - n22 m * n33 m * n41 m - n23 m * n31 m * n42 m
        + n21 m * n33 m * n42 m + n22 m * n31 m * n43 m - n21 m * n32 m * n43 m) * detInv)
      ((n12 m * n33 m * n41 m - n13 m * n32 m * n41 m + n13 m * n31 m * n42 m
        - n11 m * n33 m * n42 m - n12 m * n31 m * n43 m + n11 m * n32 m * n43 m) * detInv)
      ((n13 m * n22 m * n41 m - n12 m * n23 m * n41 m - n13 m * n21 m * n42 m
        + n11 m * n23 m * n42 m + n12 m * n21 m * n43 m - n11 m * n22 m * n43 m) * detInv)
      ((n12 m * n23 m * n31 m - n13 m * n22 m * n31 m + n13 m * n21 m * n32 m
        - n11 m * n23 m * n32 m - n12 m * n21 m * n33 m + n11 m * n22 m * n33 m) * detInv).

(** Modelled from the spec: three.module.js is not among the sources.
    [new THREE.Vector3(x, y, z).applyMatrix4(m)] is the "single matrix-vector
    multiply": the point is extended by 1 and the result divided by its
    fourth coordinate. *)
Definition Vector3_applyMatrix4 (v : Vector3) (m : Matrix4) : Vector3 :=
  let x := v3x v in let y := v3y v in let z := v3z v in
  let w := 1 / (n41 m * x + n42 m * y + n43 m * z + n44 m) in
  mkVector3 ((n11 m * x + n12 m * y + n13 m * z + n14 m) * w)
            ((n21 m * x + n22 m * y + n23 m * z + n24 m) * w)
            ((n31 m * x + n32 m * y + n33 m * z + n34 m) * w).

(** Modelled from the spec: three.module.js is not among the sources.
    [new THREE.Vector4(x, y, z, w).applyMatrix4(m)] *)
Definition Vector4_applyMatrix4 (v : Vector4) (m : Matrix4) : Vector4 :=
  let x := v4x v in let y := v4y v in let z := v4z v in let w := v4w v in
  mkVector4 (n11 m * x + n12 m * y + n13 m * z + n14 m * w)
            (n21 m * x + n22 m * y + n23 m * z + n24 m * w)
            (n31 m * x + n32 m * y + n33 m * z + n34 m * w)
            (n41 m * x + n42 m * y + n43 m * z + n44 m * w).

(** Modelled from the spec: three.module.js is not among the sources.
    [a.multiply(b)] is the Hamilton product [a * b]. *)
Definition Quaternion_multiply (a b : Quaternion) : Quaternion :=
  mkQuaternion
    (qx a * qw b + qw a * qx b + qy a * qz b - qz a * qy b)
    (qy a * qw b + qw a * qy b + qz a * qx b - qx a * qz b)
    (qz a * qw b + qw a * qz b + qx a * qy b - qy a * qx b)
    (qw a * qw b - qx a * qx b - qy a * qy b - qz a * qz b).

(** Modelled from the spec: three.module.js is not among the sources.
    [new THREE.Quaternion()], the identity rotation. *)
Definition Quaternion_identity : Quaternion := mkQuaternion 0 0 0 1.

End THREE.

Import THREE.

(** ** The data model *)

(** Identity of a [World] object (its address in the JavaScript heap). *)
Definition wid := nat.

Bind Scope nat_scope with wid.

(** The scene graph the worlds attach to: [data.webglMainScene]. *)
Inductive Scene := MainScene.

(** A function supplied by the caller of the cache ([on_preload_finished],
    [on_finished], [on_go_finished]).  The cache only ever invokes it; the
    invocation is recorded in the trace. *)
Inductive Callback := Cb (tag : nat).

(** The arrow function [Data.activate_world] passes as [destroy_old_world]:
    [() => { if (!dontDestroyOld && old) old.unload(); }]. *)
Inductive DestroyOldWorld :=
  DestroyOld (dontDestroyOld : bool) (old : option wid).

(** A three-element array [[x, y, z]] of cell coordinates.  [ref] is the
    identity of the array object: [Array.prototype.includes] compares array
    elements that are objects by identity, not by content. *)
Record OffsetArray := mkOffsetArray { ref : nat; cell : Z * Z * Z }.

(** [pose.transform.translation] and [pose.transform.rotation] *)
Record Pose := mkPose { translation : Vector3; rotation : Quaternion }.

(** The properties an object literal [{}] inherits from [Object.prototype].
    Reading [o[k]] finds an own property of [o] first and one of these
    otherwise; none of them is [undefined] or [null], and each is truthy. *)
Definition Object_prototype : list string :=
  [ "constructor"; "__defineGetter__"; "__defineSetter__"; "hasOwnProperty";
    "__lookupGetter__"; "__lookupSetter__"; "isPrototypeOf"; "propertyIsEnumerable";
    "toString"; "valueOf"; "__proto__"; "toLocaleString" ].

(** [k] names an inherited property. *)
Definition inherited (k : string) : bool := bool_decide (k ∈ Object_prototype).

(** What [this.refEgoPose[sceneName]] can be when it is not [undefined]: a
    pose stored under that name, or the property the object inherits under
    it (a function, or the prototype itself for [__proto__]), which has no
    [transform]. *)
Inductive RefEgoPose :=
| StoredPose (p : Pose)
| InheritedProperty (k : string).

(** [FrameInfo]: [frame_index] is [sceneMeta.frames.findIndex(...)], [pose]
    is [frameDetails.pose] or [null]. *)
Record FrameInfo := mkFrameInfo {
  fi_scene : string;
  frame : Z;
  frame_index : Z;
  pose : option Pose }.

(** Modelled from the spec: lidar.js is not among the sources; of the
    point-cloud sub-loader the cache reads the [preloaded] flag only. *)
Record Lidar := mkLidar { lidar_preloaded : bool }.

(** Modelled from the spec: annotation.js is not among the sources; of the
    annotation sub-loader the cache reads [preloaded] and [modified]. *)
Record Annotation := mkAnnotation {
  annotation_preloaded : bool;
  modified : bool }.

(** [Images]: [loaded_flag] holds the own properties of the object
    [this.loaded_flag]; [on_all_loaded] tells whether a callback has been
    registered by [load]. *)
Record Images := mkImages {
  names : list string;
  loaded_flag : gmap string bool;
  on_all_loaded : bool }.

Definition set_loaded_flag (v : gmap string bool) (o : Images) : Images :=
  mkImages (names o) v (on_all_loaded o).

Definition set_on_all_loaded (v : bool) (o : Images) : Images :=
  mkImages (names o) (loaded_flag o) v.

(** [EgoPose] *)
Record EgoPose := mkEgoPose {
  ep_egoPose : option Pose;
  ep_preloaded : bool;
  go_cmd_received : bool;
  on_go_finished : option Callback }.

Definition set_ep_egoPose (v : option Pose) (o : EgoPose) : EgoPose :=
  mkEgoPose v (ep_preloaded o) (go_cmd_received o) (on_go_finished o).

Definition set_ep_preloaded (v : bool) (o : EgoPose) : EgoPose :=
  mkEgoPose (ep_egoPose o) v (go_cmd_received o) (on_go_finished o).

Definition set_go_cmd_received (v : bool) (o : EgoPose) : EgoPose :=
  mkEgoPose (ep_egoPose o) (ep_preloaded o) v (on_go_finished o).

Definition set_on_go_finished (v : option Callback) (o : EgoPose) : EgoPose :=
  mkEgoPose (ep_egoPose o) (ep_preloaded o) (go_cmd_received o) v.

(** [World] *)
Record World := mkWorld {
  frameInfo : FrameInfo;
  coordinatesOffset : Qc * Qc * Qc;
  offsetIndex : OffsetArray;
  on_preload_finished : option Callback;
  cameras : Images;
  lidar : Lidar;
  annotation : Annotation;
  egoPose : EgoPose;
  scene : option Scene;
  active : bool;
  everythingDone : bool;
  destroyed : bool;
  destroy_old_world : option DestroyOldWorld;
  on_finished : option Callback;
  trans_lidar_utm : option Matrix4;
  trans_lidar_scene : option Matrix4;
  trans_utm_lidar : option Matrix4;
  trans_scene_lidar : option Matrix4;
  webglGroup_matrix : Matrix4 }.

Definition set_cameras (v : Images) (o : World) : World :=
  mkWorld (frameInfo o) (coordinatesOffset o) (offsetIndex o)
    (on_preload_finished o) v (lidar o) (annotation o) (egoPose o) (scene o)
    (active o) (everythingDone o) (destroyed o) (destroy_old_world o)
    (on_finished o) (trans_lidar_utm o) (trans_lidar_scene o)
    (trans_utm_lidar o) (trans_scene_lidar o) (webglGroup_matrix o).

Definition set_lidar (v : Lidar) (o : World) : World :=
  mkWorld (frameInfo o) (coordinatesOffset o) (offsetIndex o)
    (on_preload_finished o) (cameras o) v (annotation o) (egoPose o) (scene
    o) (active o) (everythingDone o) (destroyed o) (destroy_old_world o)
    (on_finished o) (trans_lidar_utm o) (trans_lidar_scene o)
    (trans_utm_lidar o) (trans_scene_lidar o) (webglGroup_matrix o).

Definition set_annotation (v : Annotation) (o : World) : World :=
  mkWorld (frameInfo o) (coordinatesOffset o) (offsetIndex o)
    (on_preload_finished o) (cameras o) (lidar o) v (egoPose o) (scene o)
    (active o) (everythingDone o) (destroyed o) (destroy_old_world o)
    (on_finished o) (trans_lidar_utm o) (trans_lidar_scene o)
    (trans_utm_lidar o) (trans_scene_lidar o) (webglGroup_matrix o).

Definition set_egoPose (v : EgoPose) (o : World) : World :=
  mkWorld (frameInfo o) (coordinatesOffset o) (offsetIndex o)
    (on_preload_finished o) (cameras o) (lidar o) (annotation o) v (scene o)
    (active o) (everythingDone o) (destroyed o) (destroy_old_world o)
    (on_finished o) (trans_lidar_utm o) (trans_lidar_scene o)
    (trans_utm_lidar o) (trans_scene_lidar o) (webglGroup_matrix o).

Definition set_scene (v : option Scene) (o : World) : World :=
  mkWorld (frameInfo o) (coordinatesOffset o) (offsetIndex o)
    (on_preload_finished o) (cameras o) (lidar o) (annotation o) (egoPose o)
    v (active o) (everythingDone o) (destroyed o) (destroy_old_world o)
    (on_finished o) (trans_lidar_utm o) (trans_lidar_scene o)
    (trans_utm_lidar o) (trans_scene_lidar o) (webglGroup_matrix o).

Definition set_active (v : bool) (o : World) : World :=
  mkWorld (frameInfo o) (coordinatesOffset o) (offsetIndex o)
    (on_preload_finished o) (cameras o) (lidar o) (annotation o) (egoPose o)
    (scene o) v (everythingDone o) (destroyed o) (destroy_old_world o)
    (on_finished o) (trans_lidar_utm o) (trans_lidar_scene o)
    (trans_utm_lidar o) (trans_scene_lidar o) (webglGroup_matrix o).

Definition set_everythingDone (v : bool) (o : World) : World :=
  mkWorld (frameInfo o) (coordinatesOffset o) (offsetIndex o)
    (on_preload_finished o) (cameras o) (lidar o) (annotation o) (egoPose o)
    (scene o) (active o) v (destroyed o) (destroy_old_world o) (on_finished
    o) (trans_lidar_utm o) (trans_lidar_scene o) (trans_utm_lidar o)
    (trans_scene_lidar o) (webglGroup_matrix o).

Definition set_destroyed (v : bool) (o : World) : World :=
  mkWorld (frameInfo o) (coordinatesOffset o) (offsetIndex o)
    (on_preload_finished o) (cameras o) (lidar o) (annotation o) (egoPose o)
    (scene o) (active o) (everythingDone o) v (destroy_old_world o)
    (on_finished o) (trans_lidar_utm o) (trans_lidar_scene o)
    (trans_utm_lidar o) (trans_scene_lidar o) (webglGroup_matrix o).

Definition set_destroy_old_world (v : option DestroyOldWorld) (o : World) : World :=
  mkWorld (frameInfo o) (coordinatesOffset o) (offsetIndex o)
    (on_preload_finished o) (cameras o) (lidar o) (annotation o) (egoPose o)
    (scene o) (active o) (everythingDone o) (destroyed o) v (on_finished o)
    (trans_lidar_utm o) (trans_lidar_scene o) (trans_utm_lidar o)
    (trans_scene_lidar o) (webglGroup_matrix o).

Definition set_on_finished (v : option Callback) (o : World) : World :=
  mkWorld (frameInfo o) (coordinatesOffset o) (offsetIndex o)
    (on_preload_finished o) (cameras o) (lidar o) (annotation o) (egoPose o)
    (scene o) (active o) (everythingDone o) (destroyed o) (destroy_old_world
    o) v (trans_lidar_utm o) (trans_lidar_scene o) (trans_utm_lidar o)
    (trans_scene_lidar o) (webglGroup_matrix o).

Definition set_trans_lidar_utm (v : option Matrix4) (o : World) : World :=
  mkWorld (frameInfo o) (coordinatesOffset o) (offsetIndex o)
    (on_preload_finished o) (cameras o) (lidar o) (annotation o) (egoPose o)
    (scene o) (active o) (everythingDone o) (destroyed o) (destroy_old_world
    o) (on_finished o) v (trans_lidar_scene o) (trans_utm_lidar o)
    (trans_scene_lidar o) (webglGroup_matrix o).

Definition set_trans_lidar_scene (v : option Matrix4) (o : World) : World :=
  mkWorld (frameInfo o) (coordinatesOffset o) (offsetIndex o)
    (on_preload_finished o) (cameras o) (lidar o) (annotation o) (egoPose o)
    (scene o) (active o) (everythingDone o) (destroyed o) (destroy_old_world
    o) (on_finished o) (trans_lidar_utm o) v (trans_utm_lidar o)
    (trans_scene_lidar o) (webglGroup_matrix o).

Definition set_trans_utm_lidar (v : option Matrix4) (o : World) : World :=
  mkWorld (frameInfo o) (coordinatesOffset o) (offsetIndex o)
    (on_preload_finished o) (cameras o) (lidar o) (annotation o) (egoPose o)
    (scene o) (active o) (everythingDone o) (destroyed o) (destroy_old_world
    o) (on_finished o) (trans_lidar_utm o) (trans_lidar_scene o) v
    (trans_scene_lidar o) (webglGroup_matrix o).

Definition set_trans_scene_lidar (v : option Matrix4) (o : World) : World :=
  mkWorld (frameInfo o) (coordinatesOffset o) (offsetIndex o)
    (on_preload_finished o) (cameras o) (lidar o) (annotation o) (egoPose o)
    (scene o) (active o) (everythingDone o) (destroyed o) (destroy_old_world
    o) (on_finished o) (trans_lidar_utm o) (trans_lidar_scene o)
    (trans_utm_lidar o) v (webglGroup_matrix o).

Definition set_webglGroup_matrix (v : Matrix4) (o : World) : World :=
  mkWorld (frameInfo o) (coordinatesOffset o) (offsetIndex o)
    (on_preload_finished o) (cameras o) (lidar o) (annotation o) (egoPose o)
    (scene o) (active o) (everythingDone o) (destroyed o) (destroy_old_world
    o) (on_finished o) (trans_lidar_utm o) (trans_lidar_scene o)
    (trans_utm_lidar o) (trans_scene_lidar o) v.

(** [cfg]: the configuration [Data] reads. *)
Record Config := mkConfig { coordinateSystem : string; enablePreload : bool }.

(** [Data]: [refEgoPose] holds the own properties of the object
    [this.refEgoPose]. *)
Record Data := mkData {
  cfg : Config;
  worldList : list wid;
  webglMainScene : option Scene;
  world : option wid;
  refEgoPose : gmap string Pose;
  offsetList : list OffsetArray;
  lastSeedOffset : Z * Z * Z;
  offsetsAliveCount : Z;
  MaxWorldNumber : Z;
  createWorldIndex : Z }.

Definition set_cfg (v : Config) (o : Data) : Data :=
  mkData v (worldList o) (webglMainScene o) (world o) (refEgoPose o) (offsetList o)
    (lastSeedOffset o) (offsetsAliveCount o) (MaxWorldNumber o) (createWorldIndex o).

Definition set_worldList (v : list wid) (o : Data) : Data :=
  mkData (cfg o) v (webglMainScene o) (world o) (refEgoPose o) (offsetList
    o) (lastSeedOffset o) (offsetsAliveCount o) (MaxWorldNumber o)
    (createWorldIndex o).

Definition set_world (v : option wid) (o : Data) : Data :=
  mkData (cfg o) (worldList o) (webglMainScene o) v (refEgoPose o)
    (offsetList o) (lastSeedOffset o) (offsetsAliveCount o) (MaxWorldNumber
    o) (createWorldIndex o).

Definition set_refEgoPose (v : gmap string Pose) (o : Data) : Data :=
  mkData (cfg o) (worldList o) (webglMainScene o) (world o) v (offsetList o)
    (lastSeedOffset o) (offsetsAliveCount o) (MaxWorldNumber o)
    (createWorldIndex o).

Definition set_offsetList (v : list OffsetArray) (o : Data) : Data :=
  mkData (cfg o) (worldList o) (webglMainScene o) (world o) (refEgoPose o) v
    (lastSeedOffset o) (offsetsAliveCount o) (MaxWorldNumber o)
    (createWorldIndex o).

Definition set_lastSeedOffset (v : Z * Z * Z) (o : Data) : Data :=
  mkData (cfg o) (worldList o) (webglMainScene o) (world o) (refEgoPose o)
    (offsetList o) v (offsetsAliveCount o) (MaxWorldNumber o)
    (createWorldIndex o).

Definition set_offsetsAliveCount (v : Z) (o : Data) : Data :=
  mkData (cfg o) (worldList o) (webglMainScene o) (world o) (refEgoPose o)
    (offsetList o) (lastSeedOffset o) v (MaxWorldNumber o) (createWorldIndex
    o).

Definition set_createWorldIndex (v : Z) (o : Data) : Data :=
  mkData (cfg o) (worldList o) (webglMainScene o) (world o) (refEgoPose o)
    (offsetList o) (lastSeedOffset o) (offsetsAliveCount o) (MaxWorldNumber
    o) v.

(** What the cache does to its collaborators, in the order it does it. *)
Inductive Obs :=
| CalcTransformMatrix (w : wid)
| OnPreloadFinished (cb : Callback) (w : wid)
| OnFinished (cb : Callback) (w : wid)
| OnGoFinished (cb : Callback) (w : wid)
| SceneAdd (w : wid)
| SceneRemove (w : wid)
| LidarGo (w : wid)
| AnnotationGo (w : wid)
| LidarUnload (w : wid)
| AnnotationUnload (w : wid)
| LidarDeleteAll (w : wid)
| AnnotationDeleteAll (w : wid).

(** The whole store: the [World] objects by identity, the one [Data]
    instance, the children of the main scene (the [webglGroup]s attached to
    it, named by their world), the trace of observations, and the next
    unused object identity. *)
Record State := mkState {
  heap : wid -> World;
  data : Data;
  children : list wid;
  trace : list Obs;
  nextId : nat }.

Definition set_heap (v : wid -> World) (o : State) : State :=
  mkState v (data o) (children o) (trace o) (nextId o).

Definition set_data (v : Data) (o : State) : State :=
  mkState (heap o) v (children o) (trace o) (nextId o).

Definition set_children (v : list wid) (o : State) : State :=
  mkState (heap o) (data o) v (trace o) (nextId o).

Definition set_trace (v : list Obs) (o : State) : State :=
  mkState (heap o) (data o) (children o) v (nextId o).

Definition set_nextId (v : nat) (o : State) : State :=
  mkState (heap o) (data o) (children o) (trace o) v.


(** ** Effects: mutable store and exceptions *)

Inductive JsError :=
| TypeError
| Error (msg : string).

Inductive Completion (A : Type) :=
| Normal (a : A)
| Thrown (e : JsError).

Arguments Normal {A} a.
Arguments Thrown {A} e.

Definition JS (A : Type) : Type := State -> Completion A * State.

Definition ret {A} (a : A) : JS A := fun s => (Normal a, s).

Definition bind {A B} (m : JS A) (k : A -> JS B) : JS B :=
  fun s =>
    match m s with
    | (Normal a, s') => k a s'
    | (Thrown e, s') => (Thrown e, s')
    end.

Definition throw {A} (e : JsError) : JS A := fun s => (Thrown e, s).

Notation "'do' x <- m ; k" := (bind m (fun x => k))
  (at level 10, x name, m at level 100, k at level 200,
   format "'[v' 'do'  x  <-  m ; '/' k ']'").

Notation "m >> k" := (bind m (fun _ => k))
  (at level 100, k at level 200, right associativity,
   format "'[v' m  >> '/' k ']'").

Definition getState : JS State := fun s => (Normal s, s).

(** Replaces the object at [w] by [f] of it. *)
Definition upd (w : wid) (f : World -> World) (h : wid -> World) : wid -> World :=
  fun k => if Nat.eqb k w then f (h k) else h k.

Definition read {A} (w : wid) (f : World -> A) : JS A :=
  fun s => (Normal (f (heap s w)), s).

Definition write (w : wid) (f : World -> World) : JS unit :=
  fun s => (Normal tt, set_heap (upd w f (heap s)) s).

Definition readData {A} (f : Data -> A) : JS A :=
  fun s => (Normal (f (data s)), s).

Definition writeData (f : Data -> Data) : JS unit :=
  fun s => (Normal tt, set_data (f (data s)) s).

Definition emit (e : Obs) : JS unit :=
  fun s => (Normal tt, set_trace (trace s ++ [e]) s).

Definition modifyChildren (f : list wid -> list wid) : JS unit :=
  fun s => (Normal tt, set_children (f (children s)) s).

(** [k] new objects are created: the first of their identities. *)
Definition freshId (k : nat) : JS nat :=
  fun s => (Normal (nextId s), set_nextId (nextId s + k)%nat s).

(** [cb?.(...)]: a caller's callback is invoked when it is set. *)
Definition invoke (cb : option Callback) (o : Callback -> Obs) : JS unit :=
  match cb with
  | Some c => emit (o c)
  | None => ret tt
  end.

(** [l.forEach(f)] *)
Fixpoint forEach {A} (l : list A) (f : A -> JS unit) : JS unit :=
  match l with
  | [] => ret tt
  | x :: l' => f x >> forEach l' f
  end.

(** The state a call leaves behind, whether it returns or throws. *)
Definition exec {A} (m : JS A) (s : State) : State := snd (m s).

(** ** [Data]: the offset allocator *)

(** [l.includes(o)] for an array of arrays: identity of the element. *)
Definition Array_includes (l : list OffsetArray) (o : OffsetArray) : bool :=
  existsb (fun a => Nat.eqb (ref a) (ref o)) l.

(** [newOffsets.forEach(offset => { if (!offsetList.includes(offset))
    offsetList.push(offset); })] *)
Fixpoint push_new (offsetList newOffsets : list OffsetArray) : list OffsetArray :=
  match newOffsets with
  | [] => offsetList
  | o :: rest =>
      push_new (if Array_includes offsetList o then offsetList else offsetList ++ [o]) rest
  end.

(** The array literals of one evaluation of an array expression are new
    objects: they take consecutive unused identities. *)
Fixpoint literals (n : nat) (cells : list (Z * Z * Z)) : list OffsetArray :=
  match cells with
  | [] => []
  | c :: cs => mkOffsetArray n c :: literals (S n) cs
  end.

(** [Data.allocateOffset]; the result is [None] when [pop] finds the list
    empty ([undefined]). *)
Definition allocateOffset : JS (option OffsetArray) :=
  do alive <- readData offsetsAliveCount;
  (if decide (alive = 0) then
     do n <- freshId 1;
     writeData (set_offsetList [mkOffsetArray n (0, 0, 0)]) >>
     writeData (set_lastSeedOffset (0, 0, 0))
   else ret tt) >>
  do l <- readData offsetList;
  (if decide (length l = 0%nat) then
     do seed <- readData lastSeedOffset;
     let '(x, y, _) := seed in
     let '(x, y) := if decide (x = y) then (x + 1, 0) else (x, y + 1) in
     writeData (set_lastSeedOffset (x, y, 0)) >>
     do n <- freshId 8;
     let newOffsets :=
       literals n [ (x, y, 0); (- x, y, 0); (x, - y, 0); (- x, - y, 0);
                    (y, x, 0); (- y, x, 0); (y, - x, 0); (- y, - x, 0) ] in
     writeData (fun d => set_offsetList (push_new (offsetList d) newOffsets) d)
   else ret tt) >>
  writeData (fun d => set_offsetsAliveCount (offsetsAliveCount d + 1) d) >>
  do l <- readData offsetList;
  writeData (set_offsetList (removelast l)) >>
  ret (last l).

(** [Data.returnOffset] *)
Definition returnOffset (offset : OffsetArray) : JS unit :=
  writeData (fun d => set_offsetList (offsetList d ++ [offset]) d) >>
  writeData (fun d => set_offsetsAliveCount (offsetsAliveCount d - 1) d).

(** [Data.getRefEgoPose]:
    [this.refEgoPose[sceneName] ?? (this.refEgoPose[sceneName] = currentPose)].
    [refEgoPose] is an object literal: for a scene named like a property of
    [Object.prototype] the read finds the inherited property, which is not
    nullish, so nothing is assigned and that property is the result. *)
Definition getRefEgoPose (sceneName : string) (currentPose : Pose) : JS RefEgoPose :=
  do m <- readData refEgoPose;
  match m !! sceneName with
  | Some p => ret (StoredPose p)
  | None =>
      if inherited sceneName then ret (InheritedProperty sceneName)
      else
        writeData (fun d => set_refEgoPose (<[sceneName := currentPose]> (refEgoPose d)) d) >>
        ret (StoredPose currentPose)
  end.

(** [Data.removeRefEgoPoseOfScene] *)
Definition removeRefEgoPoseOfScene (sceneName : string) : JS unit :=
  writeData (fun d => set_refEgoPose (delete sceneName (refEgoPose d)) d).

(** ** [Images] *)

(** [this.loaded_flag[name]] as a condition.  [loaded_flag] is an object
    literal: the own property decides when there is one, an inherited
    property is truthy, and otherwise the read is [undefined]. *)
Definition loaded_flag_of (c : Images) (name : string) : bool :=
  default (inherited name) (loaded_flag c !! name).

(** [Images.loaded]: [this.names.every(name => this.loaded_flag[name])] *)
Definition Images_loaded (c : Images) : bool :=
  forallb (loaded_flag_of c) (names c).

(** ** [World] *)

(** [World.preloaded]:
    [this.lidar.preloaded && this.annotation.preloaded && this.egoPose.preloaded] *)
Definition preloaded (W : World) : bool :=
  lidar_preloaded (lidar W) && annotation_preloaded (annotation W)
  && ep_preloaded (egoPose W).

(** [this.scene.add(this.webglGroup)]: a group that already has a parent is
    removed from it first; [this.scene] being [null] is a [TypeError]. *)
Definition scene_add (w : wid) : JS unit :=
  do sc <- read w scene;
  match sc with
  | None => throw TypeError
  | Some MainScene =>
      modifyChildren (fun l => filter (fun k => k <> w) l ++ [w]) >>
      emit (SceneAdd w)
  end.

(** [this.scene.remove(this.webglGroup)] *)
Definition scene_remove (w : wid) : JS unit :=
  do sc <- read w scene;
  match sc with
  | None => throw TypeError
  | Some MainScene =>
      modifyChildren (fun l => filter (fun k => k <> w) l) >>
      emit (SceneRemove w)
  end.

(** [World.calcTransformMatrix]; that it ran is recorded in the trace.  Each
    branch yields the [trans_lidar_scene] it has just assigned, which is what
    [this.webglGroup.matrix.copy(this.trans_lidar_scene)] then reads.  When
    [getRefEgoPose] hands back an inherited property, [refPose.transform] is
    [undefined] and reading its [translation] is a [TypeError], raised before
    anything is assigned. *)
Definition calcTransformMatrix (w : wid) : JS unit :=
  emit (CalcTransformMatrix w) >>
  do W <- read w id;
  let identity := THREE.identity in
  let '(ox, oy, oz) := coordinatesOffset W in
  let offset := setPosition THREE.identity ox oy oz in
  do lidar_scene <-
    (match ep_egoPose (egoPose W) with
     | Some pose =>
         do ref <- getRefEgoPose (fi_scene (frameInfo W)) pose;
         match ref with
         | InheritedProperty _ => throw TypeError
         | StoredPose refPose =>
         let posDelta :=
           mkVector3 (v3x (translation pose) - v3x (translation refPose))%Qc
                     (v3y (translation pose) - v3y (translation refPose))%Qc
                     (v3z (translation pose) - v3z (translation refPose))%Qc in
         let rotation :=
           mkQuaternion (qx (rotation pose)) (qy (rotation pose))
                        (qz (rotation pose)) (qw (rotation pose)) in
         let trans_lidar_ego := identity in
         let trans_ego_utm :=
           setPosition (makeRotationFromQuaternion rotation)
                       (v3x posDelta) (v3y posDelta) (v3z posDelta) in
         let lidar_utm := multiplyMatrices trans_ego_utm trans_lidar_ego in
         do cs <- readData (fun d => coordinateSystem (cfg d));
         let lidar_scene :=
           if decide (cs = "utm") then multiplyMatrices offset lidar_utm else offset in
         write w (set_trans_lidar_utm (Some lidar_utm)) >>
         write w (set_trans_lidar_scene (Some lidar_scene)) >>
         write w (set_trans_utm_lidar (Some (invert lidar_utm))) >>
         write w (set_trans_scene_lidar (Some (invert lidar_scene))) >>
         ret lidar_scene
         end
     | None =>
         write w (set_trans_lidar_utm (Some identity)) >>
         write w (set_trans_lidar_scene (Some offset)) >>
         write w (set_trans_utm_lidar (Some identity)) >>
         write w (set_trans_scene_lidar (Some (invert offset))) >>
         ret offset
     end);
  write w (set_webglGroup_matrix lidar_scene).

(** [World.unload] *)
Definition unload (w : wid) : JS unit :=
  do done <- read w everythingDone;
  if done then
    emit (LidarUnload w) >>
    emit (AnnotationUnload w) >>
    scene_remove w >>
    write w (set_active false) >>
    write w (set_everythingDone false)
  else ret tt.

(** Calling the stored [destroy_old_world]:
    [if (!dontDestroyOld && old) old.unload()]. *)
Definition call_destroy_old_world (w : wid) : JS unit :=
  do f <- read w destroy_old_world;
  match f with
  | Some (DestroyOld dontDestroyOld (Some old)) =>
      if negb dontDestroyOld then unload old else ret tt
  | Some (DestroyOld _ None) => ret tt
  | None => ret tt
  end.

(** [World.go] *)
Definition go (w : wid) : JS unit :=
  do done <- read w everythingDone;
  if done then
    do fin <- read w on_finished;
    invoke fin (fun c => OnFinished c w)
  else
    do p <- read w preloaded;
    if p then
      call_destroy_old_world w >>
      do d <- read w destroyed;
      if d then unload w
      else
        scene_add w >>
        emit (LidarGo w) >>
        emit (AnnotationGo w) >>
        (do fin <- read w on_finished;
         invoke fin (fun c => OnFinished c w)) >>
        write w (set_everythingDone true)
    else ret tt.

(** [World.on_subitem_preload_finished] *)
Definition on_subitem_preload_finished (w : wid) (callback : option Callback) : JS unit :=
  do p <- read w preloaded;
  if p then
    calcTransformMatrix w >>
    invoke callback (fun c => OnPreloadFinished c w) >>
    do a <- read w active;
    if a then go w else ret tt
  else ret tt.

(** The closure [cb] that [World.preload(callback)] hands to the four
    sub-loaders: [() => this.on_subitem_preload_finished(callback)], where
    the constructor passes [this.on_preload_finished] for [callback]. *)
Definition preload_cb (w : wid) : JS unit :=
  do callback <- read w on_preload_finished;
  on_subitem_preload_finished w callback.

(** [World.activate] *)
Definition activate (w : wid) (sc : option Scene)
    (destroy_old : option DestroyOldWorld) (on_fin : option Callback) : JS unit :=
  write w (set_scene sc) >>
  write w (set_active true) >>
  write w (set_destroy_old_world destroy_old) >>
  write w (set_on_finished on_fin) >>
  do p <- read w preloaded;
  if p then go w else ret tt.

(** [World.deleteAll] *)
Definition deleteAll (w : wid) : JS unit :=
  do done <- read w everythingDone;
  (if done then unload w else ret tt) >>
  do d <- read w destroyed;
  if d then ret tt
  else
    emit (LidarDeleteAll w) >>
    emit (AnnotationDeleteAll w) >>
    write w (set_destroyed true).

(** [World.scenePosToLidar], [World.lidarPosToScene], [World.lidarPosToUtm]:
    reading a transform that has not been computed is a [TypeError]. *)
Definition scenePosToLidar (W : World) (pos : Vector3) : option Vector4 :=
  m ← trans_scene_lidar W;
  Some (Vector4_applyMatrix4 (mkVector4 (v3x pos) (v3y pos) (v3z pos) 1%Qc) m).

Definition lidarPosToScene (W : World) (pos : Vector3) : option Vector3 :=
  m ← trans_lidar_scene W;
  Some (Vector3_applyMatrix4 (mkVector3 (v3x pos) (v3y pos) (v3z pos)) m).

Definition lidarPosToUtm (W : World) (pos : Vector3) : option Vector3 :=
  m ← trans_lidar_utm W;
  Some (Vector3_applyMatrix4 (mkVector3 (v3x pos) (v3y pos) (v3z pos)) m).

(** ** [EgoPose] and the completions of the sub-loaders *)

(** [EgoPose.go] *)
Definition EgoPose_go (w : wid) (on_go_fin : option Callback) : JS unit :=
  do ep <- read w egoPose;
  if ep_preloaded ep then invoke on_go_fin (fun c => OnGoFinished c w)
  else
    write w (fun W => set_egoPose (set_go_cmd_received true (egoPose W)) W) >>
    write w (fun W => set_egoPose (set_on_go_finished on_go_fin (egoPose W)) W).

(** [EgoPose.preload], called by [World.preload] with the closure
    [preload_cb]; without a pose in the frame details the request of
    [load_ego_pose] is sent and nothing else happens yet. *)
Definition EgoPose_preload (w : wid) : JS unit :=
  do fi <- read w frameInfo;
  match pose fi with
  | Some p =>
      write w (fun W => set_egoPose (set_ep_egoPose (Some p) (egoPose W)) W) >>
      write w (fun W => set_egoPose (set_ep_preloaded true (egoPose W)) W) >>
      preload_cb w >>
      do ep <- read w egoPose;
      if go_cmd_received ep then EgoPose_go w (on_go_finished ep) else ret tt
  | None => ret tt
  end.

(** The [onreadystatechange] handler of [EgoPose.load_ego_pose] at
    [readyState == 4]; [response] is the parsed pose when the status is 200
    (the response text is taken to be JSON: [JSON.parse] returns).
    Inside the handler [this] is the request, so [go] gets [undefined] for
    both arguments. *)
Definition EgoPose_onreadystatechange (w : wid) (response : option Pose) : JS unit :=
  (match response with
   | Some p => write w (fun W => set_egoPose (set_ep_egoPose (Some p) (egoPose W)) W)
   | None => ret tt
   end) >>
  write w (fun W => set_egoPose (set_ep_preloaded true (egoPose W)) W) >>
  preload_cb w >>
  do ep <- read w egoPose;
  if go_cmd_received ep then EgoPose_go w None else ret tt.

(** Modelled from the spec: lidar.js is not among the sources.  "Every
    sub-loader completion callback invokes a shared check": the point-cloud
    load settles, its flag is set and the closure given to [preload] runs. *)
Definition Lidar_on_preloaded (w : wid) : JS unit :=
  write w (set_lidar (mkLidar true)) >>
  preload_cb w.

(** Modelled from the spec: annotation.js is not among the sources; as for
    the point cloud. *)
Definition Annotation_on_preloaded (w : wid) : JS unit :=
  write w (fun W => set_annotation (mkAnnotation true (modified (annotation W))) W) >>
  preload_cb w.

(** [Images.on_image_loaded] *)
Definition Images_on_image_loaded (w : wid) : JS unit :=
  do c <- read w cameras;
  if Images_loaded c && on_all_loaded c then preload_cb w else ret tt.

(** The [onload] and [onerror] handlers of the image of camera [cam]:
    [this.loaded_flag[cam] = true; this.on_image_loaded();].  (For the name
    [__proto__] the assignment creates no own property; the read finds the
    prototype, truthy as well.) *)
Definition Image_onload (w : wid) (cam : string) : JS unit :=
  write w (fun W => set_cameras
                      (set_loaded_flag (<[cam := true]> (loaded_flag (cameras W))) (cameras W)) W) >>
  Images_on_image_loaded w.

(** ** [Data]: eviction and activation *)

(** The predicate [removable] of [Data.deleteDistantWorlds]:
    [tooFar && isSafe]. *)
Definition removable (currentIndex maxWorldNumber : Z) (W : World) : bool :=
  let tooFar := bool_decide (Z.abs (frame_index (frameInfo W) - currentIndex) > maxWorldNumber) in
  let isSafe := negb (modified (annotation W)) && everythingDone W in
  tooFar && isSafe.

(** [Data.deleteDistantWorlds] *)
Definition deleteDistantWorlds (currentWorld : wid) : JS unit :=
  do currentIndex <- read currentWorld (fun W => frame_index (frameInfo W));
  let removable_now : JS (wid -> bool) :=
    do s <- getState;
    ret (fun w => removable currentIndex (MaxWorldNumber (data s)) (heap s w)) in
  do r <- removable_now;
  do l <- readData worldList;
  let toDelete := List.filter r l in
  forEach toDelete (fun w =>
    (do off <- read w offsetIndex; returnOffset off) >>
    deleteAll w) >>
  do r' <- removable_now;
  do l' <- readData worldList;
  writeData (set_worldList (List.filter (fun w => negb (r' w)) l')).

(** [Data.deleteOtherWorldsExcept] *)
Definition deleteOtherWorldsExcept (keepScene : string) : JS unit :=
  do l <- readData worldList;
  forEach l (fun w =>
    do sc <- read w (fun W => fi_scene (frameInfo W));
    if decide (sc <> keepScene) then
      (do off <- read w offsetIndex; returnOffset off) >>
      deleteAll w >>
      removeRefEgoPoseOfScene sc
    else ret tt) >>
  do s <- getState;
  writeData (set_worldList
    (List.filter (fun w => bool_decide (fi_scene (frameInfo (heap s w)) = keepScene))
                 (worldList (data s)))).

(** [Data.findWorld] *)
Definition findWorld (s : State) (sc : string) (frameIndex : Z) : option wid :=
  List.find (fun w => bool_decide (fi_scene (frameInfo (heap s w)) = sc)
                      && bool_decide (frame_index (frameInfo (heap s w)) = frameIndex))
            (worldList (data s)).

(** [Data.activate_world] *)
Definition activate_world (world_ : wid) (onFinished : option Callback)
    (dontDestroyOld : bool) : JS unit :=
  do old <- readData world;
  writeData (set_world (Some world_)) >>
  do sc <- readData webglMainScene;
  activate world_ sc (Some (DestroyOld dontDestroyOld old)) onFinished.

(** The handler of the coordinate-system selector of the configuration
    panel ([ConfigUi], "#cfg-coordinate-system-select"):
    [pointsGlobalConfig.setItem("coordinateSystem", coord)], then
    [calcTransformMatrix] on every entry of [worldList], preloaded or not.
    [pointsGlobalConfig] is the object main.js hands to [new Data] as [cfg];
    config.js is not among the sources, and [c] is the configuration as
    [setItem] leaves it. *)
Definition select_coordinate_system (c : Config) : JS unit :=
  writeData (set_cfg c) >>
  do l <- readData worldList;
  forEach l calcTransformMatrix.

(** ** What the event loop can deliver to the cache *)

Inductive Step :=
| LidarPreloaded (w : wid)
| AnnotationPreloaded (w : wid)
| EgoPoseLoaded (w : wid) (response : option Pose)
| ImageSettled (w : wid) (cam : string)
| CallCheck (w : wid) (callback : option Callback)
| CallActivate (w : wid) (sc : option Scene) (d : option DestroyOldWorld) (f : option Callback)
| CallGo (w : wid)
| CallUnload (w : wid)
| CallDeleteAll (w : wid)
| CallActivateWorld (w : wid) (f : option Callback) (dontDestroyOld : bool)
| CallDeleteDistantWorlds (currentWorld : wid)
| CallDeleteOtherWorldsExcept (keepScene : string)
| CallAllocateOffset
| CallReturnOffset (offset : OffsetArray)
| SelectCoordinateSystem (c : Config).

Definition step (e : Step) : JS unit :=
  match e with
  | LidarPreloaded w => Lidar_on_preloaded w
  | AnnotationPreloaded w => Annotation_on_preloaded w
  | EgoPoseLoaded w r => EgoPose_onreadystatechange w r
  | ImageSettled w cam => Image_onload w cam
  | CallCheck w cb => on_subitem_preload_finished w cb
  | CallActivate w sc d f => activate w sc d f
  | CallGo w => go w
  | CallUnload w => unload w
  | CallDeleteAll w => deleteAll w
  | CallActivateWorld w f dont => activate_world w f dont
  | CallDeleteDistantWorlds w => deleteDistantWorlds w
  | CallDeleteOtherWorldsExcept k => deleteOtherWorldsExcept k
  | CallAllocateOffset => allocateOffset >> ret tt
  | CallReturnOffset o => returnOffset o
  | SelectCoordinateSystem c => select_coordinate_system c
  end.

(** Each delivery runs to completion; an exception ends that delivery only. *)
Definition run (es : list Step) (s : State) : State :=
  fold_left (fun s e => exec (step e) s) es s.

(** ** Rotation conversion *)

(** The functions of three.js the rotation helpers call that go through
    square roots and trigonometry.  three.module.js is not among the
    sources, and the helpers are stated for any implementation of them. *)
Class QuaternionOps := {
  (** [new THREE.Quaternion().setFromEuler(e)] *)
  setFromEuler : Euler -> Quaternion;
  (** [new THREE.Quaternion().setFromRotationMatrix(m)] *)
  setFromRotationMatrix : Matrix4 -> Quaternion;
  (** [q.normalize()] *)
  normalize : Quaternion -> Quaternion;
  (** [new THREE.Euler().setFromQuaternion(q, order)] *)
  Euler_setFromQuaternion : Quaternion -> string -> Euler }.

(** The values a caller may pass for a rotation.  [RotFalsy] is any falsy
    value ([undefined], [null], [0], [NaN], the empty string, [false]);
    [RotPrimitive] any other primitive; an array element or a property that
    is [undefined] or [null] is [None]. *)
Inductive RotationArg :=
| RotFalsy
| RotPrimitive
| RotQuaternion (q : Quaternion)
| RotEuler (e : Euler)
| RotArray (a : list (option Qc))
| RotObject (o : gmap string (option Qc)).

(** [o.k]: the value of property [k], [undefined] when [o] has none. *)
Definition property (o : gmap string (option Qc)) (k : string) : option Qc :=
  mjoin (o !! k).

(** [v ?? d] *)
Definition nullish (v : option Qc) (d : Qc) : Qc := default d v.

Definition Unsupported : JsError := Error "Unsupported rotation format: ".

Section RotationHelpers.

Context {ops : QuaternionOps}.

(** [World.toQuat] *)
Definition toQuat (rot : RotationArg) : Completion Quaternion :=
  match rot with
  | RotFalsy => Normal Quaternion_identity
  | RotQuaternion q => Normal q
  | RotEuler e => Normal (setFromEuler e)
  | RotArray [w; x; y; z] =>
      Normal (mkQuaternion (nullish x 0%Qc) (nullish y 0%Qc) (nullish z 0%Qc) (nullish w 1%Qc))
  | RotArray _ => Thrown Unsupported
  | RotObject o =>
      if bool_decide (is_Some (o !! "x")) && bool_decide (is_Some (o !! "y"))
         && bool_decide (is_Some (o !! "z"))
      then Normal (mkQuaternion (nullish (property o "x") 0%Qc) (nullish (property o "y") 0%Qc)
                                (nullish (property o "z") 0%Qc) (nullish (property o "w") 1%Qc))
      else Thrown Unsupported
  | RotPrimitive => Thrown TypeError
  end.

(** [(m?.isMatrix4) ? new THREE.Quaternion().setFromRotationMatrix(m)
                    : new THREE.Quaternion()] *)
Definition parentQuat (m : option Matrix4) : Quaternion :=
  match m with
  | Some m => setFromRotationMatrix m
  | None => Quaternion_identity
  end.

(** [World.sceneRotToLidarQuat] *)
Definition sceneRotToLidarQuat (W : World) (rot : RotationArg) : Completion Quaternion :=
  match toQuat rot with
  | Normal qLocal =>
      let qParent := parentQuat (trans_scene_lidar W) in
      Normal (normalize (Quaternion_multiply qLocal qParent))
  | Thrown e => Thrown e
  end.

(** [World.lidarRotToSceneQuat] *)
Definition lidarRotToSceneQuat (W : World) (rot : RotationArg) : Completion Quaternion :=
  match toQuat rot with
  | Normal qLocal =>
      let qParent := parentQuat (trans_lidar_scene W) in
      Normal (normalize (Quaternion_multiply qLocal qParent))
  | Thrown e => Thrown e
  end.

(** [World.lidarRotToUtmQuat] *)
Definition lidarRotToUtmQuat (W : World) (rot : RotationArg) : Completion Quaternion :=
  match toQuat rot with
  | Normal qLocal =>
      let qParent := parentQuat (trans_lidar_utm W) in
      Normal (normalize (Quaternion_multiply qLocal qParent))
  | Thrown e => Thrown e
  end.

(** [World.utmRotToLidarQuat] *)
Definition utmRotToLidarQuat (W : World) (rot : RotationArg) : Completion Quaternion :=
  match toQuat rot with
  | Normal qLocal =>
      let qParent := parentQuat (trans_utm_lidar W) in
      Normal (normalize (Quaternion_multiply qLocal qParent))
  | Thrown e => Thrown e
  end.

(** [rot?.isEuler ? rot.order : "XYZ"] *)
Definition orderOf (rot : RotationArg) : string :=
  match rot with
  | RotEuler e => order e
  | _ => "XYZ"
  end.

(** [World.sceneRotToLidar] *)
Definition sceneRotToLidar (W : World) (rot : RotationArg) : Completion Euler :=
  let order := orderOf rot in
  match sceneRotToLidarQuat W rot with
  | Normal q => Normal (Euler_setFromQuaternion q order)
  | Thrown e => Thrown e
  end.

(** [World.lidarRotToScene] *)
Definition lidarRotToScene (W : World) (rot : RotationArg) : Completion Euler :=
  let eulerOrder := orderOf rot in
  match lidarRotToSceneQuat W rot with
  | Normal q => Normal (Euler_setFromQuaternion q eulerOrder)
  | Thrown e => Thrown e
  end.

(** [World.lidarRotToUtm] *)
Definition lidarRotToUtm (W : World) (rot : RotationArg) : Completion Euler :=
  let order := orderOf rot in
  match lidarRotToUtmQuat W rot with
  | Normal q => Normal (Euler_setFromQuaternion q order)
  | Thrown e => Thrown e
  end.

(** [World.utmRotToLidar] *)
Definition utmRotToLidar (W : World) (rot : RotationArg) : Completion Euler :=
  let order := orderOf rot in
  match utmRotToLidarQuat W rot with
  | Normal q => Normal (Euler_setFromQuaternion q order)
  | Thrown e => Thrown e
  end.

End RotationHelpers.

(** * Notions the properties are stated with *)

(** From a state that satisfies [P], the call [m] ends (by returning or by
    throwing) in a state that satisfies [Q]. *)
Definition hoare {A} (P Q : State -> Prop) (m : JS A) : Prop :=
  forall s, P s -> Q (snd (m s)).

(** World [w0] is destroyed and detached, and since the trace was [tr0] its
    group has not been added to the scene. *)
Definition never_attaches (w0 : wid) (tr0 : list Obs) (s : State) : Prop :=
  destroyed (heap s w0) = true /\ everythingDone (heap s w0) = false /\
  (exists tr, trace s = tr0 ++ tr /\ SceneAdd w0 ∉ tr) /\
  w0 ∉ children s.

(** An update of a [World] that leaves it destroyed and not done. *)
Definition keeps_flags (f : World -> World) : Prop :=
  forall W, destroyed W = true -> everythingDone W = false ->
            destroyed (f W) = true /\ everythingDone (f W) = false.

(** ** Preload aggregation *)

(** The three flags [World.preloaded] reads. *)
Definition flags (W : World) : bool * bool * bool :=
  (lidar_preloaded (lidar W), annotation_preloaded (annotation W), ep_preloaded (egoPose W)).

(** What delivering [e] records in world [w] before any callback runs: the
    sub-load of [w] that [e] settles, if any. *)
Definition settle (e : Step) (w : wid) (W : World) : World :=
  match e with
  | LidarPreloaded w' =>
      if decide (w' = w) then set_lidar (mkLidar true) W else W
  | AnnotationPreloaded w' =>
      if decide (w' = w) then set_annotation (mkAnnotation true (modified (annotation W))) W
      else W
  | EgoPoseLoaded w' r =>
      if decide (w' = w) then
        set_egoPose (set_ep_preloaded true
          (match r with
           | Some p => set_ep_egoPose (Some p) (egoPose W)
           | None => egoPose W
           end)) W
      else W
  | ImageSettled w' cam =>
      if decide (w' = w) then
        set_cameras (set_loaded_flag (<[cam := true]> (loaded_flag (cameras W))) (cameras W)) W
      else W
  | _ => W
  end.

(** The invocation of [on_subitem_preload_finished] on [w] that delivering
    [e] makes, if any: the callback it is called with. *)
Definition checks (e : Step) (w : wid) (W : World) : option (option Callback) :=
  match e with
  | LidarPreloaded w' | AnnotationPreloaded w' | EgoPoseLoaded w' _ =>
      if decide (w' = w) then Some (on_preload_finished W) else None
  | ImageSettled w' cam =>
      if decide (w' = w) then
        if Images_loaded (cameras (settle e w W)) && on_all_loaded (cameras W)
        then Some (on_preload_finished W) else None
      else None
  | CallCheck w' cb => if decide (w' = w) then Some cb else None
  | _ => None
  end.

(** The check of [w] that [e] makes finds [preloaded()] true. *)
Definition fires (e : Step) (w : wid) (W : World) : option (option Callback) :=
  match checks e w W with
  | Some c => if preloaded (settle e w W) then Some c else None
  | None => None
  end.

(** [calcTransformMatrix] of world [W] raises: [W] has a pose and the read of
    its scene's reference pose finds an inherited property. *)
Definition calc_raises (d : Data) (W : World) : bool :=
  match ep_egoPose (egoPose W) with
  | Some _ =>
      bool_decide (refEgoPose d !! fi_scene (frameInfo W) = None)
      && inherited (fi_scene (frameInfo W))
  | None => false
  end.

(** The entries of [l] on which [l.forEach(w => w.calcTransformMatrix())]
    calls the method: all up to and including the first on which it raises. *)
Fixpoint calc_calls (s : State) (l : list wid) : list wid :=
  match l with
  | [] => []
  | w :: l' => w :: if calc_raises (data s) (heap s w) then [] else calc_calls s l'
  end.

(** The transform computations and preload notifications of [w]. *)
Definition preload_event (w : wid) (o : Obs) : bool :=
  match o with
  | CalcTransformMatrix w' => Nat.eqb w' w
  | OnPreloadFinished _ w' => Nat.eqb w' w
  | _ => false
  end.

(** What one check that finds [preloaded()] true adds to the trace of [w]:
    the transform computation and, unless that raises, the call of the
    callback. *)
Definition firing (w : wid) (c : option Callback) (raises : bool) : list Obs :=
  CalcTransformMatrix w ::
  if raises then []
  else match c with Some cb => [OnPreloadFinished cb w] | None => [] end.

(** The transform computations and preload notifications of [w] that
    delivering [e] in state [s] makes: those of the check of [w] it makes, if
    that finds [preloaded()] true, and for the coordinate-system selector one
    transform computation for each time [w] is called in [worldList]. *)
Definition preload_events (e : Step) (w : wid) (s : State) : list Obs :=
  match e with
  | SelectCoordinateSystem _ =>
      map CalcTransformMatrix (List.filter (Nat.eqb w) (calc_calls s (worldList (data s))))
  | _ =>
      match fires e w (heap s w) with
      | Some c => firing w c (calc_raises (data s) (settle e w (heap s w)))
      | None => []
      end
  end.

(** The same while [es] is delivered. *)
Fixpoint preload_trace (w : wid) (es : list Step) (s : State) : list Obs :=
  match es with
  | [] => []
  | e :: es' => preload_events e w s ++ preload_trace w es' (exec (step e) s)
  end.

(** The call returns: it does not throw. *)
Definition returns {A} (m : JS A) : Prop :=
  forall s, exists a, fst (m s) = Normal a.

(** The flags of [w0] are [x]. *)
Definition has_flags (w0 : wid) (x : bool * bool * bool) (s : State) : Prop :=
  flags (heap s w0) = x.

(** The transform computations and preload notifications of [w0] so far. *)
Definition sub_trace (w0 : wid) (t : list Obs) (s : State) : Prop :=
  List.filter (preload_event w0) (trace s) = t.

(** ** Example states *)

(** [Data.worldGap] *)
Definition worldGap : Z := 1000.

(** The fields of a [World] when its constructor has called [preload] and
    the frame details hold no pose: nothing has settled, the image set has
    its callback. *)
Definition World_constructed (fi : FrameInfo) (camera : list string)
    (offset : OffsetArray) (cb : option Callback) : World :=
  let '(x, y, z) := cell offset in
  mkWorld fi (Q2Qc (inject_Z (worldGap * x)), Q2Qc (inject_Z (worldGap * y)),
              Q2Qc (inject_Z (worldGap * z)))
          offset cb
          (mkImages camera ∅ true) (mkLidar false) (mkAnnotation false false)
          (mkEgoPose None false false None)
          None false false false None None None None None None THREE.identity.

(** Scene "A" after [_createWorld] for two of its frames: world 0 is frame 0
    with one camera, at the first cell the allocator hands out, (0, 0, 0);
    world 1 is frame 100 without cameras, at the second one, (0, -1, 0).
    [offsetIndex] is the array [[x, y, z]] that [_createWorld] builds. *)
Definition ex_heap (w : wid) : World :=
  match w with
  | O => World_constructed (mkFrameInfo "A" 1000 0 None) ["front"]
                           (mkOffsetArray 10 (0, 0, 0)) (Some (Cb 0))
  | _ => World_constructed (mkFrameInfo "A" 1100 100 None) []
                           (mkOffsetArray 11 (0, -1, 0)) (Some (Cb 0))
  end.

(** The allocator after these two allocations: the first ring (seed (1, 0))
    less the array handed out last. *)
Definition ex_data : Data :=
  mkData (mkConfig "utm" true) [0%nat; 1%nat] (Some MainScene) None ∅
    (literals 2 [ (1, 0, 0); (-1, 0, 0); (1, 0, 0); (-1, 0, 0);
                  (0, 1, 0); (0, 1, 0); (0, -1, 0) ])
    (1, 0, 0) 2 80 2.

Definition ex_state : State := mkState ex_heap ex_data [] [] 12%nat.

(** Both worlds preloaded (the image of world 0 still loading) and world 0
    shown. *)
Definition ex_shown : State :=
  run [ LidarPreloaded 0; AnnotationPreloaded 0; EgoPoseLoaded 0 None;
        LidarPreloaded 1; AnnotationPreloaded 1; EgoPoseLoaded 1 None;
        CallActivateWorld 0 (Some (Cb 1)) false ] ex_state.

(** World 0 preloaded and shown; nothing of world 1 has settled. *)
Definition ex_first_shown : State :=
  run [ LidarPreloaded 0; AnnotationPreloaded 0; EgoPoseLoaded 0 None;
        CallActivateWorld 0 (Some (Cb 1)) false ] ex_state.

(** World 1 has then been activated, its point cloud and annotation have
    settled, and the handler of its pose request has just set the flag: the
    state in which that handler makes its check. *)
Definition ex_switch_pending : State :=
  exec (write 1 (fun W => set_egoPose (set_ep_preloaded true (egoPose W)) W))
       (run [ CallActivateWorld 1 (Some (Cb 2)) false;
              LidarPreloaded 1; AnnotationPreloaded 1 ] ex_first_shown).

(** Worlds 0 and 1 both shown (world 1 activated with [dontDestroyOld]);
    world 1 is the current one. *)
Definition ex_both_shown : State :=
  run [CallActivateWorld 1 (Some (Cb 2)) true] ex_shown.

(** ** Eviction and activation *)

(** World [w] is still [W0] and still in [worldList]. *)
Definition spared (w : wid) (W0 : World) (M : Z) (s : State) : Prop :=
  heap s w = W0 /\ w ∈ worldList (data s) /\ MaxWorldNumber (data s) = M.

(** What [deleteDistantWorlds] does to each entry it selects:
    [this.returnOffset(w.offsetIndex); w.deleteAll();] *)
Definition evict (w : wid) : JS unit :=
  (do off <- read w offsetIndex; returnOffset off) >> deleteAll w.

(** World [w] is destroyed and its offset array [off] is back in the free
    list. *)
Definition evicted (w : wid) (off : OffsetArray) (s : State) : Prop :=
  destroyed (heap s w) = true /\ offsetIndex (heap s w) = off /\ off ∈ offsetList (data s).

(** [on_finished?.()] of world [w], as observed. *)
Definition on_finished_obs (fin : option Callback) (w : wid) : list Obs :=
  match fin with Some c => [OnFinished c w] | None => [] end.

(** What [unload()] of world [w] does to its collaborators when [w] is shown,
    and that it does nothing otherwise. *)
Definition unload_obs (w : wid) (shown : bool) : list Obs :=
  if shown then [LidarUnload w; AnnotationUnload w; SceneRemove w] else [].

(** What [go()] does to attach world [w]. *)
Definition attach_obs (w : wid) (fin : option Callback) : list Obs :=
  [SceneAdd w; LidarGo w; AnnotationGo w] ++ on_finished_obs fin w.

(** The world less its cached transforms: what [calcTransformMatrix] leaves
    as it is. *)
Definition untransformed (W : World) : World :=
  mkWorld (frameInfo W) (coordinatesOffset W) (offsetIndex W) (on_preload_finished W)
    (cameras W) (lidar W) (annotation W) (egoPose W) (scene W) (active W) (everythingDone W)
    (destroyed W) (destroy_old_world W) (on_finished W) None None None None THREE.identity.

(** ** Transforms *)



Definition unit_quaternion (q : Quaternion) : Prop :=
  (qx q * qx q + qy q * qy q + qz q * qz q + qw q * qw q = 1)%Qc.

(** The pose of the world, when it has one, has a unit quaternion for its
    rotation. *)
Definition unit_pose (W : World) : Prop :=
  forall p, ep_egoPose (egoPose W) = Some p -> unit_quaternion (rotation p).

(** The four transforms of the world are set, and the two inverse ones are
    [invert()] of the two forward ones. *)
Definition transforms_cached (W : World) : Prop :=
  exists m u,
    trans_lidar_scene W = Some m /\ trans_scene_lidar W = Some (invert m) /\
    trans_lidar_utm W = Some u /\ trans_utm_lidar W = Some (invert u).

(** The same of world [w0] in the store. *)
Definition has_transforms (w0 : wid) (s : State) : Prop := transforms_cached (heap s w0).

(** The last row is [0 0 0 1]. *)
Definition affine (m : Matrix4) : Prop :=
  (n41 m = 0 /\ n42 m = 0 /\ n43 m = 0 /\ n44 m = 1)%Qc.

(** The point [v] in homogeneous coordinates. *)
Definition point (v : Vector3) : Vector4 := mkVector4 (v3x v) (v3y v) (v3z v) 1%Qc.

(** [new THREE.Matrix4().setPosition(...this.coordinatesOffset)] *)
Definition offsetMatrix (W : World) : Matrix4 :=
  let '(ox, oy, oz) := coordinatesOffset W in setPosition identity ox oy oz.

(** The [trans_lidar_utm] that [calcTransformMatrix] builds from pose [p]
    against the reference pose [r]. *)
Definition lidar_utm_of (p r : Pose) : Matrix4 :=
  multiplyMatrices
    (setPosition (makeRotationFromQuaternion (rotation p))
       (v3x (translation p) - v3x (translation r))
       (v3y (translation p) - v3y (translation r))
       (v3z (translation p) - v3z (translation r)))%Qc
    identity.

(** Poses of two frames: the second is 3 and 4 further along x and y and
    turned about z (the quaternion (0, 0, 3/5, 4/5)). *)
Definition ex_poseA : Pose :=
  mkPose (mkVector3 (Q2Qc 10) (Q2Qc 20) 0%Qc) (mkQuaternion 0 0 0 1)%Qc.

Definition ex_poseB : Pose :=
  mkPose (mkVector3 (Q2Qc 13) (Q2Qc 24) 0%Qc)
         (mkQuaternion 0%Qc 0%Qc (Q2Qc (3 # 5)) (Q2Qc (4 # 5))).



(** The poses of worlds 0 and 1 have arrived; world 0 was preloaded first and
    is the reference of scene "A". *)
Definition ex_posed : State :=
  run [ LidarPreloaded 0; AnnotationPreloaded 0; EgoPoseLoaded 0 (Some ex_poseA);
        EgoPoseLoaded 1 (Some ex_poseB) ] ex_state.

(** ** Rotation conversion *)

(** The shapes [toQuat] accepts. *)
Definition supported (rot : RotationArg) : bool :=
  match rot with
  | RotFalsy | RotQuaternion _ | RotEuler _ => true
  | RotArray a => bool_decide (length a = 4%nat)
  | RotObject o =>
      bool_decide (is_Some (o !! "x")) && bool_decide (is_Some (o !! "y"))
      && bool_decide (is_Some (o !! "z"))
  | RotPrimitive => false
  end.

(** What a rotation helper computes from the cached transform [m]: the
    input as a quaternion, times the rotation of [m], normalised, as Euler
    angles in the input's order. *)
Definition convert_with `{QuaternionOps} (m : option Matrix4) (rot : RotationArg) :
    Completion Euler :=
  match toQuat rot with
  | Normal qLocal =>
      Normal (Euler_setFromQuaternion
                (normalize (Quaternion_multiply qLocal (parentQuat m))) (orderOf rot))
  | Thrown e => Thrown e
  end.

Definition raises {A} (c : Completion A) : Prop := exists e, c = Thrown e.

(** ** The allocator of a new [Data] *)

(** The fields of [new Data(cfg)]. *)
Definition Data_new (c : Config) : Data :=
  mkData c [] None None ∅ [mkOffsetArray 0 (0, 0, 0)] (0, 0, 0) 0 80 0.

Definition fresh_state : State := mkState ex_heap (Data_new (mkConfig "utm" true)) [] [] 1%nat.


(** * More of the cache manager *)

(** ** Scene metadata *)

(** One entry of [sceneMeta.frameDetails]; of a frame's details the cache
    reads [pose]. *)
Record FrameDetails := mkFrameDetails { fd_pose : option Pose }.

(** The metadata of a scene as [readSceneMetaData] stores it in
    [this.meta[sceneName]]: the frame ids in order, the details by frame id,
    the camera names. *)
Record SceneMeta := mkSceneMeta {
  frames : list Z;
  frameDetails : option (gmap Z FrameDetails);
  camera : option (list string) }.

(** [frames.findIndex(x => x === frame)]: the first position, or -1. *)
Fixpoint findIndex_from (i : Z) (frames : list Z) (frame : Z) : Z :=
  match frames with
  | [] => -1
  | x :: rest => if decide (x = frame) then i else findIndex_from (i + 1) rest frame
  end.

Definition findIndex (frames : list Z) (frame : Z) : Z := findIndex_from 0 frames frame.

(** [new FrameInfo(data, sceneMeta, sceneName, frame)] *)
Definition FrameInfo_new (sceneMeta : SceneMeta) (sceneName : string) (frame : Z) : FrameInfo :=
  let details := fd ← frameDetails sceneMeta; fd !! frame in
  mkFrameInfo sceneName frame (findIndex (frames sceneMeta) frame) (details ≫= fd_pose).

(** [new Images(sceneMeta, sceneName, frame)] *)
Definition Images_new (sceneMeta : SceneMeta) : Images :=
  mkImages (default [] (camera sceneMeta)) ∅ false.

(** [Images.load]: the callback is registered and the images start loading;
    they settle later, one [onload] or [onerror] each. *)
Definition Images_load (w : wid) : JS unit :=
  write w (fun W => set_cameras (set_on_all_loaded true (cameras W)) W).

(** Modelled from the spec: lidar.js is not among the sources.  The
    constructor "synchronously kicks off all four sub-loads"; the point-cloud
    load is asynchronous and settles later ([Lidar_on_preloaded]). *)
Definition Lidar_preload (w : wid) : JS unit := ret tt.

(** Modelled from the spec: annotation.js is not among the sources; as for
    the point cloud. *)
Definition Annotation_preload (w : wid) : JS unit := ret tt.

(** [World.preload] *)
Definition World_preload (w : wid) : JS unit :=
  Lidar_preload w >>
  Annotation_preload w >>
  Images_load w >>
  EgoPose_preload w.

Definition set_offsetIndex (v : OffsetArray) (o : World) : World :=
  mkWorld (frameInfo o) (coordinatesOffset o) v (on_preload_finished o) (cameras o) (lidar o)
    (annotation o) (egoPose o) (scene o) (active o) (everythingDone o) (destroyed o)
    (destroy_old_world o) (on_finished o) (trans_lidar_utm o) (trans_lidar_scene o)
    (trans_utm_lidar o) (trans_scene_lidar o) (webglGroup_matrix o).

(** [new World(data, sceneName, frame, coordinatesOffset, on_preload_finished)].
    [meta] holds the own properties of [data.meta]; for a scene without
    metadata [this.sceneMeta] is [undefined] or an inherited property, which
    has no [frames], and [this.sceneMeta.frames.findIndex] is a [TypeError].
    The constructor does not assign [offsetIndex]: the new object has what
    was at its address. *)
Definition World_new (meta : gmap string SceneMeta) (sceneName : string) (frame : Z)
    (coordinatesOffset : Qc * Qc * Qc) (on_preload_finished : option Callback) : JS wid :=
  match meta !! sceneName with
  | None => throw TypeError
  | Some sceneMeta =>
      do w <- freshId 1;
      write w (fun W0 =>
        mkWorld (FrameInfo_new sceneMeta sceneName frame) coordinatesOffset (offsetIndex W0)
                on_preload_finished
                (Images_new sceneMeta) (mkLidar false) (mkAnnotation false false)
                (mkEgoPose None false false None)
                None false false false None None None None None None THREE.identity) >>
      World_preload w >>
      ret w
  end.

(** [this.worldGap * x] *)
Definition gap (x : Z) : Qc := Q2Qc (inject_Z (worldGap * x)).

(** [Data._createWorld]; [pop] having returned [undefined] makes the
    destructuring a [TypeError]. *)
Definition _createWorld (meta : gmap string SceneMeta) (sceneName : string) (frameId : Z)
    (onPreloadFinished : option Callback) : JS wid :=
  do off <- allocateOffset;
  match off with
  | None => throw TypeError
  | Some o =>
      let '(x, y, z) := cell o in
      do world <- World_new meta sceneName frameId (gap x, gap y, gap z) onPreloadFinished;
      do n <- freshId 1;
      write world (set_offsetIndex (mkOffsetArray n (x, y, z))) >>
      writeData (fun d => set_createWorldIndex (createWorldIndex d + 1) d) >>
      writeData (fun d => set_worldList (worldList d ++ [world]) d) >>
      ret world
  end.

(** The entry of [worldList] for a scene and a frame id:
    [this.worldList.find(w => w.frameInfo.scene === sceneName &&
    w.frameInfo.frame === frameId)]. *)
Definition findFrame (s : State) (sceneName : string) (frameId : Z) : option wid :=
  List.find (fun w => bool_decide (fi_scene (frameInfo (heap s w)) = sceneName)
                      && bool_decide (frame (frameInfo (heap s w)) = frameId))
            (worldList (data s)).

(** [this.meta[sceneName]] as a condition.  [meta] is an object literal: a
    name without metadata that names an inherited property is truthy too. *)
Definition has_meta (meta : gmap string SceneMeta) (sceneName : string) : bool :=
  bool_decide (is_Some (meta !! sceneName)) || inherited sceneName.

(** [Data.readSceneMetaData].  [fetched] is the outcome of the request: the
    metadata built from the response, or the error of a failed request, which
    is rethrown.  The result is [this.meta] afterwards.  ([getWorld] awaits it
    only for a name under which [this.meta] has nothing, own or inherited.) *)
Definition readSceneMetaData (meta : gmap string SceneMeta) (sceneName : string)
    (fetched : Completion SceneMeta) : Completion (gmap string SceneMeta) :=
  match fetched with
  | Normal sceneMetadata => Normal (<[sceneName := sceneMetadata]> meta)
  | Thrown err => Thrown err
  end.

(** [Data.getWorld].  [meta] is [this.meta] at the call and [fetched] the
    outcome of the request of [readSceneMetaData], should it be awaited; the
    call resumes in the given state with [this.meta] as the read left it.
    The result comes with [this.meta] as it is at the end; [None] is
    [null]. *)
Definition getWorld (meta : gmap string SceneMeta) (fetched : Completion SceneMeta)
    (sceneName : string) (frameId : Z) (onPreloadFinished : option Callback) :
    JS (gmap string SceneMeta * option wid) :=
  do meta <- (if negb (has_meta meta sceneName) then
                match readSceneMetaData meta sceneName fetched with
                | Normal meta' => ret meta'
                | Thrown err => throw err
                end
              else ret meta);
  if negb (has_meta meta sceneName) then ret (meta, None)
  else
    do s <- getState;
    match findFrame s sceneName frameId with
    | Some existing => ret (meta, Some existing)
    | None =>
        do w <- _createWorld meta sceneName frameId onPreloadFinished;
        ret (meta, Some w)
    end.

(** The integer an index argument stands for: the fraction is dropped. *)
Definition ToInteger (q : Q) : Z := if Qle_bool 0 q then Qfloor q else Qceiling q.

(** [l.slice(start, end)]: a negative index counts from the end, and both are
    clamped to the array. *)
Definition Array_slice {A} (l : list A) (start end_ : Q) : list A :=
  let len := Z.of_nat (length l) in
  let clamp (k : Z) := if k <? 0 then Z.max (len + k) 0 else Z.min k len in
  let k := clamp (ToInteger start) in
  let final := clamp (ToInteger end_) in
  firstn (Z.to_nat (final - k)) (skipn (Z.to_nat k) l).

(** [Data._doPreload]; the worlds are created without a callback.  Without
    metadata (an inherited property has no [frames] either) it returns. *)
Definition _doPreload (meta : gmap string SceneMeta) (sceneName : string)
    (startIndex endIndex : Q) : JS unit :=
  match meta !! sceneName with
  | None => ret tt
  | Some m =>
      do s <- getState;
      let pending :=
        List.filter (fun f => negb (bool_decide (is_Some (findFrame s sceneName f))))
                    (Array_slice (frames m) startIndex endIndex) in
      forEach pending (fun f => _createWorld meta sceneName f None >> ret tt)
  end.

(** [Data.forcePreloadScene].  [currentWorld.sceneMeta] is the metadata of
    the world's scene, which its constructor read from [meta]. *)
Definition forcePreloadScene (meta : gmap string SceneMeta) (sceneName : string)
    (currentWorld : wid) : JS unit :=
  do fi <- read currentWorld frameInfo;
  match meta !! fi_scene fi with
  | None => throw TypeError
  | Some m =>
      let currentIndex := frame_index fi in
      do M <- readData MaxWorldNumber;
      let start := Qmax 0 (inject_Z currentIndex - (M # 2)) in
      let end_ := Qmin (inject_Z (Z.of_nat (length (frames m)))) (start + inject_Z M) in
      _doPreload meta sceneName start end_
  end.

(** [Data.preloadScene] *)
Definition preloadScene (meta : gmap string SceneMeta) (sceneName : string)
    (currentWorld : wid) : JS unit :=
  deleteOtherWorldsExcept sceneName >>
  deleteDistantWorlds currentWorld >>
  do enable <- readData (fun d => enablePreload (cfg d));
  if enable then forcePreloadScene meta sceneName currentWorld else ret tt.


(** ** Notions the further properties are stated with *)

(** What [deleteOtherWorldsExcept] does to one entry. *)
Definition purge (keepScene : string) (w : wid) : JS unit :=
  do sc <- read w (fun W => fi_scene (frameInfo W));
  if decide (sc <> keepScene) then
    (do off <- read w offsetIndex; returnOffset off) >>
    deleteAll w >>
    removeRefEgoPoseOfScene sc
  else ret tt.

(** World [w] is destroyed, no longer done, its offset is back in the free
    list and its scene has no reference pose. *)
Definition purged (w : wid) (s : State) : Prop :=
  destroyed (heap s w) = true /\ everythingDone (heap s w) = false /\
  offsetIndex (heap s w) ∈ offsetList (data s) /\
  refEgoPose (data s) !! fi_scene (frameInfo (heap s w)) = None.

(** The groups in the scene are those of the worlds that are done. *)
Definition attached_iff_done (s : State) : Prop :=
  forall w, w ∈ children s <-> everythingDone (heap s w) = true.

(** The calls of [lidar.deleteAll()] and [annotation.deleteAll()] of world
    [w] among the observations. *)
Definition releases (w : wid) (tr : list Obs) : nat :=
  length (List.filter (fun o => match o with
                                | LidarDeleteAll w' | AnnotationDeleteAll w' => Nat.eqb w' w
                                | _ => false
                                end) tr).

(** Since a state with [r0] releases of world [w] and [destroyed] equal to
    [b0]: the sub-loaders of [w] have been released (two calls) exactly if
    [w] has been destroyed since, and a destroyed world stays destroyed. *)
Definition released_once (w : wid) (r0 : nat) (b0 : bool) (s : State) : Prop :=
  releases w (trace s)
    = (r0 + (if b0 then 0 else if destroyed (heap s w) then 2 else 0))%nat /\
  (b0 = true -> destroyed (heap s w) = true).

(** The image set of world [w0] is [x]. *)
Definition has_cameras (w0 : wid) (x : Images) (s : State) : Prop := cameras (heap s w0) = x.

(** [this.loaded_flag[cam]] is truthy. *)
Definition flagged (c : Images) (cam : string) : Prop := loaded_flag_of c cam = true.

(** The point [v] moved by the cell offset [(ox, oy, oz)]. *)
Definition shifted (off : Qc * Qc * Qc) (v : Vector3) : Vector3 :=
  let '(ox, oy, oz) := off in mkVector3 (v3x v + ox) (v3y v + oy) (v3z v + oz)%Qc.

(** The new world of [_createWorld], with its offset array still to be
    assigned. *)
Definition World_created (m : SceneMeta) (sceneName : string) (frameId : Z)
    (c : Z * Z * Z) (cb : option Callback) (off : OffsetArray) : World :=
  let '(x, y, z) := c in
  let fi := FrameInfo_new m sceneName frameId in
  mkWorld fi (gap x, gap y, gap z) off cb
          (mkImages (default [] (camera m)) ∅ true) (mkLidar false) (mkAnnotation false false)
          (mkEgoPose (pose fi) (bool_decide (is_Some (pose fi))) false None)
          None false false false None None None None None None THREE.identity.

(** [_createWorld] from the allocated array [o] on. *)
Definition createWorld_with (meta : gmap string SceneMeta) (sceneName : string) (frameId : Z)
    (cb : option Callback) (o : OffsetArray) : JS wid :=
  let '(x, y, z) := cell o in
  do world <- World_new meta sceneName frameId (gap x, gap y, gap z) cb;
  do n <- freshId 1;
  write world (set_offsetIndex (mkOffsetArray n (x, y, z))) >>
  writeData (fun d => set_createWorldIndex (createWorldIndex d + 1) d) >>
  writeData (fun d => set_worldList (worldList d ++ [world]) d) >>
  ret world.

(** Every entry was created before: its identity is below the next one. *)
Definition registered (s : State) : Prop :=
  forall w, w ∈ worldList (data s) -> (w < nextId s)%nat.

(** [worldList] has an entry for frame [frameId] of scene [sceneName]. *)
Definition has_entry (s : State) (sceneName : string) (frameId : Z) : Prop :=
  exists w, w ∈ worldList (data s) /\
            fi_scene (frameInfo (heap s w)) = sceneName /\
            frame (frameInfo (heap s w)) = frameId.

(** Since [s0] no object was created and no world changed its frame. *)
Definition same_frames (s0 s : State) : Prop :=
  nextId s = nextId s0 /\ forall w, frameInfo (heap s w) = frameInfo (heap s0 w).

(** Every entry of [worldList] is a frame of scene [sc]. *)
Definition one_scene (sc : string) (s : State) : Prop :=
  forall w, w ∈ worldList (data s) -> fi_scene (frameInfo (heap s w)) = sc.

(** What [_doPreload] does for one pending frame:
    [this._createWorld(sceneName, f)]. *)
Definition create_frame (meta : gmap string SceneMeta) (sc : string) (f : Z) : JS unit :=
  _createWorld meta sc f None >> ret tt.

(** ** Example metadata *)

(** Scene "A" has four frames, the second with a pose in its details, and one
    camera; scene "B" has two frames and neither details nor cameras. *)
Definition ex_sceneA : SceneMeta :=
  mkSceneMeta [1000; 1100; 1200; 1300]
    (Some {[ 1000 := mkFrameDetails None; 1100 := mkFrameDetails (Some ex_poseA) ]})
    (Some ["front"]).

Definition ex_sceneB : SceneMeta := mkSceneMeta [5; 6] None None.

Definition ex_meta : gmap string SceneMeta := {[ "A" := ex_sceneA; "B" := ex_sceneB ]}.

(** A new [Data] after [_createWorld] for two frames of "A" and one of "B". *)
Definition ex_cache : State :=
  exec (_createWorld ex_meta "A" 1000 (Some (Cb 0)) >>
        _createWorld ex_meta "A" 1100 None >>
        _createWorld ex_meta "B" 5 None) fresh_state.

(** * Reasoning about calls *)

Section Hoare.
Context {A B : Type}.
Implicit Types (P Q R : State -> Prop).

Lemma hoare_ret P Q (a : A) : (forall s, P s -> Q s) -> hoare P Q (ret a).
Proof. intros H s Hs. apply H, Hs. Qed.

Lemma hoare_throw P Q e : (forall s, P s -> Q s) -> hoare P Q (@throw A e).
Proof. intros H s Hs. apply H, Hs. Qed.

Lemma hoare_weaken P P' Q (m : JS A) :
  (forall s, P s -> P' s) -> hoare P' Q m -> hoare P Q m.
Proof. intros HP H s Hs. apply H, HP, Hs. Qed.

Lemma hoare_false P Q (m : JS A) : (forall s, P s -> False) -> hoare P Q m.
Proof. intros HP s Hs. destruct (HP s Hs). Qed.

Lemma hoare_bind P Q (m : JS A) (k : A -> JS B) :
  hoare P Q m -> (forall a, hoare Q Q (k a)) -> hoare P Q (bind m k).
Proof.
  intros Hm Hk s Hs. unfold bind. specialize (Hm s Hs).
  destruct (m s) as [[a|e] s']; simpl in *; [apply Hk, Hm | exact Hm].
Qed.

Lemma hoare_read P Q w (f : World -> A) (k : A -> JS B) :
  (forall a, hoare (fun s => P s /\ a = f (heap s w)) Q (k a)) ->
  hoare P Q (bind (read w f) k).
Proof. intros Hk s Hs. unfold bind, read. apply Hk. auto. Qed.

Lemma hoare_readData P Q (f : Data -> A) (k : A -> JS B) :
  (forall a, hoare (fun s => P s /\ a = f (data s)) Q (k a)) ->
  hoare P Q (bind (readData f) k).
Proof. intros Hk s Hs. unfold bind, readData. apply Hk. auto. Qed.

Lemma hoare_getState P Q (k : State -> JS B) :
  (forall a, hoare (fun s => P s /\ a = s) Q (k a)) ->
  hoare P Q (bind getState k).
Proof. intros Hk s Hs. unfold bind, getState. apply Hk. auto. Qed.

End Hoare.

Lemma hoare_forEach {A} P (l : list A) (f : A -> JS unit) :
  (forall x, x ∈ l -> hoare P P (f x)) -> hoare P P (forEach l f).
Proof.
  induction l as [|x l IH]; intros H; simpl.
  - apply hoare_ret. auto.
  - apply hoare_bind; [apply H; left | intros _; apply IH; intros y Hy; apply H; right; exact Hy].
Qed.

Lemma hoare_invoke P cb (o : Callback -> Obs) :
  (forall c, hoare P P (emit (o c))) -> hoare P P (invoke cb o).
Proof. intros H. destruct cb; simpl; [apply H | apply hoare_ret; auto]. Qed.

Lemma hoare_run (P : State -> Prop) es :
  (forall e, hoare P P (step e)) -> forall s, P s -> P (run es s).
Proof.
  intros H. induction es as [|e es IH]; intros s Hs; simpl; [exact Hs |].
  apply IH. apply H. exact Hs.
Qed.

Lemma upd_same w f h : upd w f h w = f (h w).
Proof. unfold upd. rewrite Nat.eqb_refl. reflexivity. Qed.

Lemma upd_other w f h k : k <> w -> upd w f h k = h k.
Proof. intros H. unfold upd. destruct (Nat.eqb_spec k w); [contradiction | reflexivity]. Qed.

Ltac pre_tauto := let s := fresh "s" in let H := fresh "H" in intros s H; tauto.

(** One step of a proof of [hoare P Q m] along the structure of [m]; [leaf]
    closes [hoare I I m'] for a primitive or for a method proved before. *)
Ltac hoare_step leaf :=
  lazymatch goal with
  | |- hoare _ _ (ret _) => apply hoare_ret; pre_tauto
  | |- hoare _ _ (throw _) => apply hoare_throw; pre_tauto
  | |- hoare _ _ (bind (read _ _) _) => apply hoare_read; intros ?
  | |- hoare _ _ (bind (readData _) _) => apply hoare_readData; intros ?
  | |- hoare _ _ (bind getState _) => apply hoare_getState; intros ?
  | |- hoare _ _ (bind _ _) => apply hoare_bind; [| intros ?]
  | |- hoare _ _ (forEach _ _) =>
      (eapply hoare_weaken; [| apply hoare_forEach; intros ? ?]); [pre_tauto |]
  | |- hoare _ _ (if ?b then _ else _) => destruct b eqn:?
  | |- hoare _ _ (match ?x with _ => _ end) => destruct x eqn:?
  | |- hoare _ _ _ => (eapply hoare_weaken; [| solve [leaf]]); pre_tauto
  end.

Ltac hoare_go leaf := repeat hoare_step leaf.

(** ** Running a call on a given state, one primitive at a time *)

Section Equations.
Context {A B : Type}.

Lemma bind_ret (a : A) (k : A -> JS B) s : bind (ret a) k s = k a s.
Proof. reflexivity. Qed.

Lemma bind_throw e (k : A -> JS B) s : bind (throw e) k s = (Thrown e, s).
Proof. reflexivity. Qed.

Lemma bind_read w (f : World -> A) (k : A -> JS B) s :
  bind (read w f) k s = k (f (heap s w)) s.
Proof. reflexivity. Qed.

Lemma bind_readData (f : Data -> A) (k : A -> JS B) s :
  bind (readData f) k s = k (f (data s)) s.
Proof. reflexivity. Qed.

Lemma bind_getState (k : State -> JS B) s : bind getState k s = k s s.
Proof. reflexivity. Qed.

Lemma bind_write w f (k : unit -> JS B) s :
  bind (write w f) k s = k tt (set_heap (upd w f (heap s)) s).
Proof. reflexivity. Qed.

Lemma bind_writeData f (k : unit -> JS B) s :
  bind (writeData f) k s = k tt (set_data (f (data s)) s).
Proof. reflexivity. Qed.

Lemma bind_emit e (k : unit -> JS B) s :
  bind (emit e) k s = k tt (set_trace (trace s ++ [e]) s).
Proof. reflexivity. Qed.

Lemma bind_modifyChildren f (k : unit -> JS B) s :
  bind (modifyChildren f) k s = k tt (set_children (f (children s)) s).
Proof. reflexivity. Qed.

Lemma bind_freshId n (k : nat -> JS B) s :
  bind (freshId n) k s = k (nextId s) (set_nextId (nextId s + n)%nat s).
Proof. reflexivity. Qed.

Lemma bind_bind {C} (m : JS A) (k : A -> JS B) (k' : B -> JS C) s :
  bind (bind m k) k' s = bind m (fun a => bind (k a) k') s.
Proof. unfold bind. destruct (m s) as [[a|e] s']; reflexivity. Qed.

Lemma run_ret (a : A) s : ret a s = (Normal a, s).
Proof. reflexivity. Qed.

Lemma run_throw e s : @throw A e s = (Thrown e, s).
Proof. reflexivity. Qed.

Lemma run_read w (f : World -> A) s : read w f s = (Normal (f (heap s w)), s).
Proof. reflexivity. Qed.

Lemma run_readData (f : Data -> A) s : readData f s = (Normal (f (data s)), s).
Proof. reflexivity. Qed.

Lemma run_write w f s : write w f s = (Normal tt, set_heap (upd w f (heap s)) s).
Proof. reflexivity. Qed.

Lemma run_writeData f s : writeData f s = (Normal tt, set_data (f (data s)) s).
Proof. reflexivity. Qed.

Lemma run_emit e s : emit e s = (Normal tt, set_trace (trace s ++ [e]) s).
Proof. reflexivity. Qed.

Lemma run_modifyChildren f s :
  modifyChildren f s = (Normal tt, set_children (f (children s)) s).
Proof. reflexivity. Qed.

End Equations.

Ltac st_simpl :=
  unfold set_heap, set_data, set_children, set_trace, set_nextId in *;
  cbn [id negb heap data children trace nextId
       set_heap set_data set_children set_trace set_nextId
       frameInfo coordinatesOffset offsetIndex on_preload_finished cameras lidar annotation
       egoPose scene active everythingDone destroyed destroy_old_world on_finished
       trans_lidar_utm trans_lidar_scene trans_utm_lidar trans_scene_lidar webglGroup_matrix
       set_cameras set_lidar set_annotation set_egoPose set_scene set_active
       set_everythingDone set_destroyed set_destroy_old_world set_on_finished
       set_trans_lidar_utm set_trans_lidar_scene set_trans_utm_lidar set_trans_scene_lidar
       set_webglGroup_matrix
       cfg worldList webglMainScene world refEgoPose offsetList lastSeedOffset
       offsetsAliveCount MaxWorldNumber createWorldIndex coordinateSystem enablePreload
       set_cfg set_worldList set_world set_refEgoPose set_offsetList set_lastSeedOffset
       set_offsetsAliveCount set_createWorldIndex
       names loaded_flag on_all_loaded set_loaded_flag set_on_all_loaded
       ep_egoPose ep_preloaded go_cmd_received on_go_finished
       set_ep_egoPose set_ep_preloaded set_go_cmd_received set_on_go_finished
       lidar_preloaded annotation_preloaded modified
       fst snd] in *.

Ltac js_run :=
  repeat first
    [ rewrite bind_bind | rewrite bind_ret | rewrite bind_throw | rewrite bind_read
    | rewrite bind_readData | rewrite bind_getState | rewrite bind_write
    | rewrite bind_writeData | rewrite bind_emit | rewrite bind_modifyChildren
    | rewrite bind_freshId
    | rewrite run_ret | rewrite run_throw | rewrite run_read | rewrite run_readData
    | rewrite run_write | rewrite run_writeData | rewrite run_emit
    | rewrite run_modifyChildren
    | progress cbv beta iota | progress st_simpl
    | rewrite upd_same | rewrite upd_other by congruence ].

(** * Destroyed wins *)

Section NeverAttaches.
Variables (w0 : wid) (tr0 : list Obs).

Lemma na_emit e : e <> SceneAdd w0 -> hoare (never_attaches w0 tr0) (never_attaches w0 tr0) (emit e).
Proof.
  intros He s (Hd & Hn & (tr & Ht & Hno) & Hc). split; [| split; [| split]]; simpl; auto.
  exists (tr ++ [e]). rewrite Ht, app_assoc. split; [reflexivity |].
  rewrite elem_of_app, list_elem_of_singleton. intros [?|?]; [auto | congruence].
Qed.

Lemma na_write w f :
  w <> w0 \/ keeps_flags f ->
  hoare (never_attaches w0 tr0) (never_attaches w0 tr0) (write w f).
Proof.
  intros Hf s (Hd & Hn & Ht & Hc). unfold never_attaches; simpl.
  destruct (decide (w0 = w)) as [->|Hne].
  - rewrite upd_same. destruct Hf as [?|Hf]; [congruence |].
    destruct (Hf _ Hd Hn). auto.
  - rewrite upd_other by exact Hne. auto.
Qed.

Lemma na_writeData f : hoare (never_attaches w0 tr0) (never_attaches w0 tr0) (writeData f).
Proof. intros s H. exact H. Qed.

Lemma na_freshId k : hoare (never_attaches w0 tr0) (never_attaches w0 tr0) (freshId k).
Proof. intros s H. exact H. Qed.

Lemma na_modifyChildren f :
  (forall l, w0 ∈ f l -> w0 ∈ l) ->
  hoare (never_attaches w0 tr0) (never_attaches w0 tr0) (modifyChildren f).
Proof.
  intros Hf s (Hd & Hn & Ht & Hc). unfold never_attaches; simpl.
  split; [| split; [| split]]; auto.
Qed.

Ltac na_prim :=
  first [ apply na_emit; congruence
        | apply na_writeData
        | apply na_freshId
        | apply na_write;
          first [ left; congruence | right; intros []; simpl; intros; split; congruence ]
        | apply hoare_invoke; intros ?; apply na_emit; congruence
        | apply na_modifyChildren; intros ?;
          rewrite ?elem_of_app, list_elem_of_filter, ?list_elem_of_singleton;
          intuition congruence ].

Lemma na_scene_remove w :
  hoare (never_attaches w0 tr0) (never_attaches w0 tr0) (scene_remove w).
Proof. unfold scene_remove. hoare_go na_prim. Qed.

Lemma na_unload w : hoare (never_attaches w0 tr0) (never_attaches w0 tr0) (unload w).
Proof. unfold unload. hoare_go ltac:(first [na_prim | apply na_scene_remove]). Qed.

Lemma na_scene_add w :
  w <> w0 -> hoare (never_attaches w0 tr0) (never_attaches w0 tr0) (scene_add w).
Proof. intros Hw. unfold scene_add. hoare_go na_prim. Qed.

Lemma na_call_destroy_old_world w :
  hoare (never_attaches w0 tr0) (never_attaches w0 tr0) (call_destroy_old_world w).
Proof. unfold call_destroy_old_world. hoare_go ltac:(first [na_prim | apply na_unload]). Qed.

(** [go] on the destroyed world takes the branch that unloads; on another
    world it may attach that world only. *)
Lemma na_go w : hoare (never_attaches w0 tr0) (never_attaches w0 tr0) (go w).
Proof.
  unfold go. destruct (decide (w = w0)) as [->|Hw].
  - apply hoare_read; intros done. destruct done.
    { apply hoare_false. intros s [(Hd & Hn & _) E]. congruence. }
    apply hoare_read; intros p. destruct p; [| apply hoare_ret; pre_tauto].
    apply hoare_bind.
    { eapply hoare_weaken; [| apply na_call_destroy_old_world]. pre_tauto. }
    intros _. apply hoare_read; intros d. destruct d.
    + eapply hoare_weaken; [| apply na_unload]. pre_tauto.
    + apply hoare_false. intros s [(Hd & Hn & _) E]. congruence.
  - hoare_go ltac:(first [ na_prim | apply na_unload | apply na_call_destroy_old_world
                         | apply na_scene_add; exact Hw ]).
Qed.

Ltac na_meth :=
  first [ na_prim | apply na_unload | apply na_call_destroy_old_world | apply na_go ].

Lemma na_getRefEgoPose sc p :
  hoare (never_attaches w0 tr0) (never_attaches w0 tr0) (getRefEgoPose sc p).
Proof. unfold getRefEgoPose. hoare_go na_prim. Qed.

Lemma na_calcTransformMatrix w :
  hoare (never_attaches w0 tr0) (never_attaches w0 tr0) (calcTransformMatrix w).
Proof.
  unfold calcTransformMatrix. hoare_go ltac:(first [na_prim | apply na_getRefEgoPose]).
Qed.

Lemma na_on_subitem_preload_finished w cb :
  hoare (never_attaches w0 tr0) (never_attaches w0 tr0) (on_subitem_preload_finished w cb).
Proof.
  unfold on_subitem_preload_finished.
  hoare_go ltac:(first [na_meth | apply na_calcTransformMatrix]).
Qed.

Lemma na_preload_cb w : hoare (never_attaches w0 tr0) (never_attaches w0 tr0) (preload_cb w).
Proof. unfold preload_cb. hoare_go ltac:(apply na_on_subitem_preload_finished). Qed.

Lemma na_activate w sc d f :
  hoare (never_attaches w0 tr0) (never_attaches w0 tr0) (activate w sc d f).
Proof. unfold activate. hoare_go na_meth. Qed.

Lemma na_deleteAll w : hoare (never_attaches w0 tr0) (never_attaches w0 tr0) (deleteAll w).
Proof. unfold deleteAll. hoare_go na_meth. Qed.

Lemma na_EgoPose_go w cb :
  hoare (never_attaches w0 tr0) (never_attaches w0 tr0) (EgoPose_go w cb).
Proof. unfold EgoPose_go. hoare_go na_meth. Qed.

Lemma na_returnOffset o :
  hoare (never_attaches w0 tr0) (never_attaches w0 tr0) (returnOffset o).
Proof. unfold returnOffset. hoare_go na_prim. Qed.

Lemma na_allocateOffset :
  hoare (never_attaches w0 tr0) (never_attaches w0 tr0) allocateOffset.
Proof. unfold allocateOffset. hoare_go na_prim. Qed.

Lemma na_step e : hoare (never_attaches w0 tr0) (never_attaches w0 tr0) (step e).
Proof.
  destruct e; simpl;
    unfold Lidar_on_preloaded, Annotation_on_preloaded, EgoPose_onreadystatechange,
      Image_onload, Images_on_image_loaded, activate_world, deleteDistantWorlds,
      deleteOtherWorldsExcept, removeRefEgoPoseOfScene, select_coordinate_system;
    hoare_go ltac:(first [ na_meth | apply na_preload_cb | apply na_EgoPose_go
                         | apply na_on_subitem_preload_finished | apply na_activate
                         | apply na_deleteAll | apply na_returnOffset
                         | apply na_allocateOffset | apply na_calcTransformMatrix ]).
Qed.

End NeverAttaches.

(** [deleteAll] that returns leaves the world destroyed, not done and, when
    attached worlds are the done ones, detached. *)
Lemma deleteAll_destroys w s :
  fst (deleteAll w s) = Normal tt ->
  (w ∈ children s -> everythingDone (heap s w) = true) ->
  never_attaches w (trace (exec (deleteAll w) s)) (exec (deleteAll w) s).
Proof.
  unfold never_attaches, exec, deleteAll. intros Hn Hc. revert Hn. js_run.
  destruct (everythingDone (heap s w)) eqn:Hd.
  - unfold unload. js_run. rewrite Hd. js_run. unfold scene_remove. js_run.
    destruct (scene (heap s w)) as [[]|] eqn:Hs; js_run; [| discriminate].
    destruct (destroyed (heap s w)) eqn:Hx; js_run; intros _;
      (split; [| split; [| split]]; auto;
       [ eexists; split; [symmetry; apply app_nil_r | apply not_elem_of_nil]
       | rewrite list_elem_of_filter; tauto ]).
  - js_run.
    destruct (destroyed (heap s w)) eqn:Hx; js_run; intros _;
      (split; [| split; [| split]]; auto;
       [ eexists; split; [symmetry; apply app_nil_r | apply not_elem_of_nil]
       | intros H; apply Hc in H; congruence ]).
Qed.

(** C4 (destroyed wins).  Once [deleteAll()] has returned on a world, no
    later delivery attaches its group to the scene, whatever is delivered
    to whichever world and in whatever order: the completions of its
    sub-loads, [activate], [go], the manager's calls.  The world stays
    destroyed and not done, no [scene.add] of its group occurs, and it is not
    among the scene's children.  (Attached worlds are assumed to be the ones
    flagged [everythingDone] when [deleteAll] is called.) *)
Theorem destroyed_world_never_attaches (s : State) (w : wid) (es : list Step) :
  fst (deleteAll w s) = Normal tt ->
  (w ∈ children s -> everythingDone (heap s w) = true) ->
  let s1 := exec (deleteAll w) s in
  let s2 := run es s1 in
  destroyed (heap s2 w) = true /\ everythingDone (heap s2 w) = false /\
  (exists tr, trace s2 = trace s1 ++ tr /\ SceneAdd w ∉ tr) /\
  w ∉ children s2.
Proof.
  intros Hn Hc s1 s2.
  apply (hoare_run (never_attaches w (trace s1))); [apply na_step |].
  apply deleteAll_destroys; assumption.
Qed.

Lemma destroyed_world_never_attaches_witness :
  let es := [ LidarPreloaded 0; AnnotationPreloaded 0; EgoPoseLoaded 0 None;
              ImageSettled 0 "front"; CallActivateWorld 0 None false; CallGo 0 ] in
  let s1 := exec (deleteAll 0) ex_state in
  let s2 := run es s1 in
  fst (deleteAll 0 ex_state) = Normal tt /\
  destroyed (heap s2 0%nat) = true /\ everythingDone (heap s2 0%nat) = false /\
  (exists tr, trace s2 = trace s1 ++ tr /\ SceneAdd 0 ∉ tr) /\
  0%nat ∉ children s2.
Proof.
  split; [vm_compute; reflexivity |].
  apply (destroyed_world_never_attaches ex_state 0);
    [vm_compute; reflexivity | intros H; apply elem_of_nil in H; destruct H].
Defined.

(** * Preload aggregation *)

(** ** The flags [preloaded()] reads *)

Lemma fl_write w0 x w f :
  w <> w0 \/ (forall W, flags (f W) = flags W) ->
  hoare (has_flags w0 x) (has_flags w0 x) (write w f).
Proof.
  intros Hf s H. unfold has_flags in *; simpl.
  destruct (decide (w0 = w)) as [->|Hne].
  - rewrite upd_same. destruct Hf as [?|Hf]; [congruence |]. rewrite Hf. exact H.
  - rewrite upd_other by exact Hne. exact H.
Qed.

Ltac fl_prim :=
  first [ apply fl_write; first [ left; congruence | right; intros []; reflexivity ]
        | apply hoare_invoke; intros ?; let H := fresh in intros ? H; exact H
        | lazymatch goal with
          | |- hoare _ _ (emit _) => idtac
          | |- hoare _ _ (writeData _) => idtac
          | |- hoare _ _ (modifyChildren _) => idtac
          | |- hoare _ _ (freshId _) => idtac
          end; let H := fresh in intros ? H; exact H ].

Lemma fl_unload w0 x w : hoare (has_flags w0 x) (has_flags w0 x) (unload w).
Proof. unfold unload, scene_remove. hoare_go fl_prim. Qed.

Lemma fl_go w0 x w : hoare (has_flags w0 x) (has_flags w0 x) (go w).
Proof.
  unfold go, call_destroy_old_world, scene_add.
  hoare_go ltac:(first [apply fl_unload | fl_prim]).
Qed.

Lemma fl_preload_cb w0 x w : hoare (has_flags w0 x) (has_flags w0 x) (preload_cb w).
Proof.
  unfold preload_cb, on_subitem_preload_finished, calcTransformMatrix, getRefEgoPose.
  hoare_go ltac:(first [apply fl_go | fl_prim]).
Qed.

Lemma fl_deleteAll w0 x w : hoare (has_flags w0 x) (has_flags w0 x) (deleteAll w).
Proof. unfold deleteAll. hoare_go ltac:(first [apply fl_unload | fl_prim]). Qed.

Ltac fl_meth :=
  first [ apply fl_go | apply fl_unload | apply fl_preload_cb | apply fl_deleteAll | fl_prim ].

Ltac fl_all :=
  unfold Lidar_on_preloaded, Annotation_on_preloaded, EgoPose_onreadystatechange,
    Image_onload, Images_on_image_loaded, activate_world, deleteDistantWorlds,
    deleteOtherWorldsExcept, removeRefEgoPoseOfScene, activate, on_subitem_preload_finished,
    select_coordinate_system,
    calcTransformMatrix, getRefEgoPose, EgoPose_go, returnOffset, allocateOffset;
  hoare_go fl_meth.

(** A call under which the flags of [w0] are invariant leaves them as they are. *)
Lemma fl_frame {A} w0 (m : JS A) s :
  (forall x, hoare (has_flags w0 x) (has_flags w0 x) m) ->
  flags (heap (snd (m s)) w0) = flags (heap s w0).
Proof. intros H. apply (H _ s). reflexivity. Qed.

Lemma fl_step w0 e s :
  flags (heap (exec (step e) s) w0) = flags (settle e w0 (heap s w0)).
Proof.
  unfold exec.
  destruct e as [w|w|w r|w cam| | | | | | | | | | |]; simpl settle;
    try (apply fl_frame; intros x; simpl step; fl_all);
    (destruct (decide (w = w0)) as [->|Hne];
     [| apply fl_frame; intros x; simpl step; fl_all]); simpl step.
  - unfold Lidar_on_preloaded. js_run. rewrite fl_frame by (intros; fl_all). js_run. reflexivity.
  - unfold Annotation_on_preloaded. js_run. rewrite fl_frame by (intros; fl_all). js_run.
    reflexivity.
  - unfold EgoPose_onreadystatechange. destruct r; js_run;
      rewrite fl_frame by (intros; fl_all); js_run; reflexivity.
  - unfold Image_onload. js_run. rewrite fl_frame by (intros; fl_all). js_run. reflexivity.
Qed.

Lemma fl_run w0 es s :
  flags (heap (run es s) w0) = flags (fold_left (fun W e => settle e w0 W) es (heap s w0)).
Proof.
  revert s. induction es as [|e es IH]; intros s; simpl; [reflexivity |].
  rewrite IH. clear IH. generalize (fl_step w0 e s).
  generalize (heap (exec (step e) s) w0) (settle e w0 (heap s w0)). intros W1 W2 H.
  revert W1 W2 H. induction es as [|e' es IH]; intros W1 W2 H; simpl; [exact H |].
  apply IH. clear IH.
  unfold flags in *. destruct e'; simpl; try exact H;
    destruct (decide (_ = w0)); try exact H; simpl; try congruence.
Qed.

Lemma settle_lidar e w W :
  lidar_preloaded (lidar (settle e w W)) = true <->
  lidar_preloaded (lidar W) = true \/ e = LidarPreloaded w.
Proof.
  destruct e; simpl; try (split; [tauto | intros [?|?]; [assumption | discriminate]]);
    case_decide; subst; simpl; split; try tauto; try (intros [?|?]; [assumption | congruence]).
Qed.

Lemma settle_annotation e w W :
  annotation_preloaded (annotation (settle e w W)) = true <->
  annotation_preloaded (annotation W) = true \/ e = AnnotationPreloaded w.
Proof.
  destruct e; simpl; try (split; [tauto | intros [?|?]; [assumption | discriminate]]);
    case_decide; subst; simpl; split; try tauto; try (intros [?|?]; [assumption | congruence]).
Qed.

Lemma settle_egoPose e w W :
  ep_preloaded (egoPose (settle e w W)) = true <->
  ep_preloaded (egoPose W) = true \/ exists r, e = EgoPoseLoaded w r.
Proof.
  destruct e; simpl;
    try (split; [tauto | intros [?|[? ?]]; [assumption | discriminate]]);
    case_decide; subst; simpl; split; eauto;
    try (intros [?|[? ?]]; [assumption | congruence]).
Qed.

Lemma settled_lidar w es W :
  lidar_preloaded (lidar (fold_left (fun W e => settle e w W) es W)) = true <->
  lidar_preloaded (lidar W) = true \/ LidarPreloaded w ∈ es.
Proof.
  revert W. induction es as [|e es IH]; intros W; simpl.
  - rewrite elem_of_nil. tauto.
  - rewrite IH, settle_lidar, elem_of_cons. intuition (subst; auto).
Qed.

Lemma settled_annotation w es W :
  annotation_preloaded (annotation (fold_left (fun W e => settle e w W) es W)) = true <->
  annotation_preloaded (annotation W) = true \/ AnnotationPreloaded w ∈ es.
Proof.
  revert W. induction es as [|e es IH]; intros W; simpl.
  - rewrite elem_of_nil. tauto.
  - rewrite IH, settle_annotation, elem_of_cons. intuition (subst; auto).
Qed.

Lemma settled_egoPose w es W :
  ep_preloaded (egoPose (fold_left (fun W e => settle e w W) es W)) = true <->
  ep_preloaded (egoPose W) = true \/ exists r, EgoPoseLoaded w r ∈ es.
Proof.
  revert W. induction es as [|e es IH]; intros W; simpl.
  - split; [tauto | intros [?|[r Hr]]; [assumption | inversion Hr]].
  - rewrite IH, settle_egoPose. split.
    + intros [[?|[r ->]]|[r Hr]]; [tauto | |];
        right; exists r; apply elem_of_cons; [left; reflexivity | right; exact Hr].
    + intros [?|[r Hr]]; [tauto |]. apply elem_of_cons in Hr as [Hr|Hr];
        [left; right; exists r; symmetry; exact Hr | right; exists r; exact Hr].
Qed.

(** C2, in the form that holds of the code.  After any deliveries, [preloaded()] of a world is true
    if and only if its point-cloud, annotation and pose sub-loaders have each
    signalled completion (before or among the deliveries); whether the image
    set has loaded plays no part. *)
Theorem preloaded_iff_three_settled (s : State) (w : wid) (es : list Step) :
  preloaded (heap (run es s) w) = true <->
    (lidar_preloaded (lidar (heap s w)) = true \/ LidarPreloaded w ∈ es) /\
    (annotation_preloaded (annotation (heap s w)) = true \/ AnnotationPreloaded w ∈ es) /\
    (ep_preloaded (egoPose (heap s w)) = true \/ exists r, EgoPoseLoaded w r ∈ es).
Proof.
  rewrite <- settled_lidar, <- settled_annotation, <- settled_egoPose.
  pose proof (fl_run w es s) as H. unfold flags in H. injection H as H1 H2 H3.
  unfold preloaded. rewrite H1, H2, H3, !andb_true_iff. tauto.
Qed.

(** C2 fails as stated: point cloud, annotation and pose have settled, the
    image of camera "front" has not, and [preloaded()] is true. *)
Lemma preloaded_before_images :
  let s := run [LidarPreloaded 0; AnnotationPreloaded 0; EgoPoseLoaded 0 None] ex_state in
  preloaded (heap s 0%nat) = true /\ Images_loaded (cameras (heap s 0%nat)) = false.
Proof. vm_compute. split; reflexivity. Qed.


(** ** When the transform is computed and the caller notified *)

Section Returns.
Context {A B : Type}.

Lemma returns_ret (a : A) : returns (ret a).
Proof. intros s. exists a. reflexivity. Qed.

Lemma returns_bind (m : JS A) (k : A -> JS B) :
  returns m -> (forall a, returns (k a)) -> returns (bind m k).
Proof.
  intros Hm Hk s. unfold bind. destruct (Hm s) as [a Ha].
  destruct (m s) as [[a'|e] s']; simpl in Ha; [| discriminate]. apply Hk.
Qed.

Lemma hoare_seq (P R Q : State -> Prop) (m : JS A) (k : A -> JS B) :
  hoare P R m -> returns m -> (forall a, hoare R Q (k a)) -> hoare P Q (bind m k).
Proof.
  intros Hm Hr Hk s Hs. unfold bind. specialize (Hm s Hs). destruct (Hr s) as [a Ha].
  destruct (m s) as [[a'|e] s']; simpl in *; [apply Hk, Hm | discriminate].
Qed.
End Returns.

Lemma returns_prim :
  (forall A w (f : World -> A), returns (read w f)) /\
  (forall A (f : Data -> A), returns (readData f)) /\
  (forall w f, returns (write w f)) /\
  (forall f, returns (writeData f)) /\
  (forall e, returns (emit e)) /\
  (forall cb o, returns (invoke cb o)).
Proof.
  repeat split; intros; intros s; try (eexists; reflexivity).
  destruct cb; eexists; reflexivity.
Qed.

Ltac returns_go :=
  repeat lazymatch goal with
    | |- returns (bind _ _) => apply returns_bind; [| intros ?]
    | |- returns (ret _) => apply returns_ret
    | |- returns (if ?b then _ else _) => destruct b
    | |- returns (match ?x with _ => _ end) => destruct x
    | |- returns _ => first [ apply returns_prim ]
    end.

(** [calcTransformMatrix] raises exactly when the read of the reference pose
    finds an inherited property. *)
Lemma calc_completion w s :
  fst (calcTransformMatrix w s)
  = if calc_raises (data s) (heap s w) then Thrown TypeError else Normal tt.
Proof.
  unfold calcTransformMatrix, getRefEgoPose, calc_raises. js_run.
  destruct (coordinatesOffset (heap s w)) as [[ox oy] oz].
  destruct (ep_egoPose (egoPose (heap s w))) as [p|]; js_run; [| reflexivity].
  destruct (refEgoPose (data s) !! fi_scene (frameInfo (heap s w))) as [r|] eqn:Hr; js_run.
  - rewrite bool_decide_eq_false_2 by discriminate. reflexivity.
  - rewrite bool_decide_eq_true_2 by reflexivity. cbn [andb].
    destruct (inherited (fi_scene (frameInfo (heap s w)))); js_run; reflexivity.
Qed.

(** Whether it raises on a world does not change when it runs on any. *)
Lemma calc_raises_stable w w' s :
  let s' := exec (calcTransformMatrix w) s in
  calc_raises (data s') (heap s' w') = calc_raises (data s) (heap s w').
Proof.
  cbv zeta. unfold exec, calcTransformMatrix, getRefEgoPose. js_run.
  destruct (coordinatesOffset (heap s w)) as [[ox oy] oz].
  assert (Hupd : forall (d : Data) (f : World -> World) h,
            (forall W, egoPose (f W) = egoPose W /\ frameInfo (f W) = frameInfo W) ->
            calc_raises d (upd w f h w') = calc_raises d (h w')).
  { intros d f h Hf. unfold upd. destruct (Nat.eqb w' w); [| reflexivity].
    unfold calc_raises. destruct (Hf (h w')) as [-> ->]. reflexivity. }
  destruct (ep_egoPose (egoPose (heap s w))) as [p|]; js_run.
  - destruct (refEgoPose (data s) !! fi_scene (frameInfo (heap s w))) as [r|] eqn:Hr; js_run.
    + rewrite !Hupd by (intros []; split; reflexivity). reflexivity.
    + destruct (inherited (fi_scene (frameInfo (heap s w)))) eqn:Hi; js_run; [reflexivity |].
      rewrite !Hupd by (intros []; split; reflexivity).
      unfold calc_raises. destruct (ep_egoPose (egoPose (heap s w'))); [| reflexivity].
      destruct (decide (fi_scene (frameInfo (heap s w')) = fi_scene (frameInfo (heap s w))))
        as [E|E].
      * rewrite E, Hi, !andb_false_r. reflexivity.
      * unfold set_refEgoPose. cbn [refEgoPose].
        rewrite lookup_insert_ne by congruence. reflexivity.
  - rewrite !Hupd by (intros []; split; reflexivity). reflexivity.
Qed.

Lemma st_emit w0 t e :
  preload_event w0 e = false -> hoare (sub_trace w0 t) (sub_trace w0 t) (emit e).
Proof.
  intros He s H. unfold sub_trace in *. simpl. rewrite List.filter_app, H. simpl.
  rewrite He. apply app_nil_r.
Qed.

Lemma st_emit_event w0 t e :
  preload_event w0 e = true -> hoare (sub_trace w0 t) (sub_trace w0 (t ++ [e])) (emit e).
Proof.
  intros He s H. unfold sub_trace in *. simpl. rewrite List.filter_app, H. simpl.
  rewrite He. reflexivity.
Qed.

Ltac st_prim :=
  first [ apply st_emit; simpl; first [ reflexivity | apply Nat.eqb_neq; congruence ]
        | apply hoare_invoke; intros ?; apply st_emit; simpl;
          first [ reflexivity | apply Nat.eqb_neq; congruence ]
        | lazymatch goal with
          | |- hoare _ _ (write _ _) => idtac
          | |- hoare _ _ (writeData _) => idtac
          | |- hoare _ _ (modifyChildren _) => idtac
          | |- hoare _ _ (freshId _) => idtac
          end; let H := fresh in intros ? H; exact H ].

Lemma st_unload w0 t w : hoare (sub_trace w0 t) (sub_trace w0 t) (unload w).
Proof. unfold unload, scene_remove. hoare_go st_prim. Qed.

Lemma st_go w0 t w : hoare (sub_trace w0 t) (sub_trace w0 t) (go w).
Proof.
  unfold go, call_destroy_old_world, scene_add.
  hoare_go ltac:(first [apply st_unload | st_prim]).
Qed.

Lemma st_deleteAll w0 t w : hoare (sub_trace w0 t) (sub_trace w0 t) (deleteAll w).
Proof. unfold deleteAll. hoare_go ltac:(first [apply st_unload | st_prim]). Qed.

Lemma st_calc_other w0 t w :
  w <> w0 -> hoare (sub_trace w0 t) (sub_trace w0 t) (calcTransformMatrix w).
Proof. intros Hw. unfold calcTransformMatrix, getRefEgoPose. hoare_go st_prim. Qed.

Lemma st_calc w0 t :
  hoare (sub_trace w0 t) (sub_trace w0 (t ++ [CalcTransformMatrix w0])) (calcTransformMatrix w0).
Proof.
  unfold calcTransformMatrix, getRefEgoPose. apply hoare_bind.
  - apply st_emit_event. simpl. apply Nat.eqb_refl.
  - intros _. hoare_go st_prim.
Qed.

Lemma st_check_other w0 t w cb :
  w <> w0 -> hoare (sub_trace w0 t) (sub_trace w0 t) (on_subitem_preload_finished w cb).
Proof.
  intros Hw. unfold on_subitem_preload_finished.
  hoare_go ltac:(first [apply st_go | apply st_calc_other; exact Hw | st_prim]).
Qed.

Lemma st_check_false w0 t cb :
  hoare (fun s => sub_trace w0 t s /\ preloaded (heap s w0) = false) (sub_trace w0 t)
        (on_subitem_preload_finished w0 cb).
Proof.
  unfold on_subitem_preload_finished. apply hoare_read; intros p. destruct p.
  - apply hoare_false. intros s [[_ H] E]. congruence.
  - apply hoare_ret. tauto.
Qed.

Lemma hoare_apply {A} (P Q : State -> Prop) (m : JS A) s :
  hoare P Q m -> P s -> Q (snd (m s)).
Proof. intros H. apply H. Qed.

Lemma hoare_bind_at {A B} (Q : State -> Prop) (m : JS A) (k : A -> JS B) s :
  Q (snd (m s)) -> (forall a, hoare Q Q (k a)) -> Q (snd (bind m k s)).
Proof.
  intros Hm Hk. unfold bind. destruct (m s) as [[a|e] s']; simpl in *; [apply Hk, Hm | exact Hm].
Qed.

(** A check that finds [preloaded()] true computes the transform and, if
    that returns, calls the callback. *)
Lemma st_check_true w0 t cb s :
  sub_trace w0 t s -> preloaded (heap s w0) = true ->
  sub_trace w0 (t ++ firing w0 cb (calc_raises (data s) (heap s w0)))
            (snd (on_subitem_preload_finished w0 cb s)).
Proof.
  intros H Hp. unfold on_subitem_preload_finished. rewrite bind_read, Hp.
  pose proof (calc_completion w0 s) as Hc. pose proof (st_calc w0 t s H) as Ht.
  unfold bind at 1. unfold firing.
  destruct (calcTransformMatrix w0 s) as [[[]|e] s1]; simpl in Hc, Ht;
    destruct (calc_raises (data s) (heap s w0)); try discriminate; [| exact Ht].
  match goal with |- sub_trace _ _ (snd (?m s1)) =>
    apply (hoare_apply (sub_trace w0 (t ++ [CalcTransformMatrix w0])) _ m s1); [| exact Ht]
  end.
  apply hoare_seq
    with (R := sub_trace w0 (t ++ CalcTransformMatrix w0 ::
                               match cb with Some c => [OnPreloadFinished c w0] | None => [] end)).
  { destruct cb as [c|]; unfold invoke.
    - replace (t ++ [CalcTransformMatrix w0; OnPreloadFinished c w0])
        with ((t ++ [CalcTransformMatrix w0]) ++ [OnPreloadFinished c w0])
        by (rewrite <- app_assoc; reflexivity).
      apply st_emit_event. simpl. apply Nat.eqb_refl.
    - apply hoare_ret. auto. }
  { apply returns_prim. }
  intros _. hoare_go ltac:(first [apply st_go | st_prim]).
Qed.

Ltac st_meth :=
  first [ apply st_go | apply st_unload | apply st_deleteAll | st_prim ].

Ltac st_all :=
  unfold activate_world, deleteDistantWorlds, deleteOtherWorldsExcept,
    removeRefEgoPoseOfScene, activate, EgoPose_go, returnOffset, allocateOffset;
  hoare_go st_meth.

Lemma st_preload_cb w0 t s :
  sub_trace w0 t s ->
  sub_trace w0 (t ++ (if preloaded (heap s w0)
                      then firing w0 (on_preload_finished (heap s w0))
                                  (calc_raises (data s) (heap s w0))
                      else []))
            (snd (preload_cb w0 s)).
Proof.
  intros H. unfold preload_cb. rewrite bind_read.
  destruct (preloaded (heap s w0)) eqn:Hp.
  - apply st_check_true; auto.
  - rewrite app_nil_r. apply (hoare_apply _ _ _ s (st_check_false w0 t _)); auto.
Qed.

Lemma st_preload_cb_other w0 t w :
  w <> w0 -> hoare (sub_trace w0 t) (sub_trace w0 t) (preload_cb w).
Proof.
  intros Hw. unfold preload_cb. hoare_go ltac:(apply st_check_other; exact Hw).
Qed.

Lemma calc_calls_ext s1 s l :
  (forall w, calc_raises (data s1) (heap s1 w) = calc_raises (data s) (heap s w)) ->
  calc_calls s1 l = calc_calls s l.
Proof.
  intros H. induction l as [|w l IH]; simpl; [reflexivity |]. rewrite H, IH. reflexivity.
Qed.

(** [worldList.forEach(w => w.calcTransformMatrix())] computes the transform
    of each entry in turn and stops at the first that raises. *)
Lemma st_calc_all w0 l : forall t s,
  sub_trace w0 t s ->
  sub_trace w0 (t ++ map CalcTransformMatrix (List.filter (Nat.eqb w0) (calc_calls s l)))
            (snd (forEach l calcTransformMatrix s)).
Proof.
  induction l as [|w l IH]; intros t s H; simpl.
  - rewrite app_nil_r. exact H.
  - pose proof (calc_completion w s) as Hc.
    assert (Hs1 : sub_trace w0 (t ++ (if Nat.eqb w0 w then [CalcTransformMatrix w] else []))
                            (snd (calcTransformMatrix w s))).
    { destruct (Nat.eqb_spec w0 w) as [<-|Hne].
      - apply st_calc, H.
      - rewrite app_nil_r. apply st_calc_other; [congruence | exact H]. }
    pose proof (fun w' => calc_raises_stable w w' s) as Hst. cbv zeta in Hst. unfold exec in Hst.
    unfold bind.
    destruct (calcTransformMatrix w s) as [[[]|e] s1]; simpl in Hc, Hs1, Hst |- *;
      destruct (calc_raises (data s) (heap s w)); try discriminate.
    + specialize (IH _ s1 Hs1). rewrite (calc_calls_ext s1 s) in IH by exact Hst.
      destruct (Nat.eqb w0 w); simpl; [rewrite <- app_assoc in IH | rewrite app_nil_r in IH];
        exact IH.
    + destruct (Nat.eqb w0 w); simpl; exact Hs1.
Qed.

Lemma st_select w0 coord t s :
  sub_trace w0 t s ->
  sub_trace w0 (t ++ map CalcTransformMatrix
                       (List.filter (Nat.eqb w0) (calc_calls s (worldList (data s)))))
            (snd (select_coordinate_system coord s)).
Proof.
  intros H. unfold select_coordinate_system. js_run.
  match goal with |- sub_trace _ _ (snd (forEach _ _ ?s2)) =>
    rewrite <- (calc_calls_ext s2 s) by (intros; reflexivity);
    apply (st_calc_all w0 (worldList (data s)) t s2)
  end.
  exact H.
Qed.

Lemma st_step w0 e t s :
  sub_trace w0 t s -> sub_trace w0 (t ++ preload_events e w0 s) (exec (step e) s).
Proof.
  intros H. unfold exec, preload_events.
  destruct e as [w|w|w r|w cam|w cb| | | | | | | | | |coord];
    [ .. | apply st_select; exact H ];
    unfold fires; simpl checks; cbv beta iota;
    try (rewrite app_nil_r;
         apply (hoare_apply (sub_trace w0 t) (sub_trace w0 t)); [| exact H];
         simpl step; st_all);
    (destruct (decide (w = w0)) as [->|Hne]; cbv beta iota;
     [| rewrite app_nil_r;
        apply (hoare_apply (sub_trace w0 t) (sub_trace w0 t)); [| exact H];
        simpl step;
        unfold Lidar_on_preloaded, Annotation_on_preloaded, EgoPose_onreadystatechange,
          Image_onload, Images_on_image_loaded, EgoPose_go;
        hoare_go ltac:(first [ apply st_preload_cb_other; exact Hne
                             | apply st_check_other; exact Hne | st_meth ]) ]);
    simpl step.
  - unfold Lidar_on_preloaded, settle. js_run. rewrite decide_True by reflexivity.
    match goal with |- sub_trace _ _ (snd (preload_cb _ ?s1)) =>
      generalize (st_preload_cb w0 t s1 H) end.
    js_run. destruct (preloaded _); auto.
  - unfold Annotation_on_preloaded, settle. js_run. rewrite decide_True by reflexivity.
    match goal with |- sub_trace _ _ (snd (preload_cb _ ?s1)) =>
      generalize (st_preload_cb w0 t s1 H) end.
    js_run. destruct (preloaded _); auto.
  - unfold EgoPose_onreadystatechange, settle. rewrite decide_True by reflexivity.
    destruct r; js_run;
      (apply hoare_bind_at;
       [ match goal with |- sub_trace _ _ (snd (preload_cb _ ?s1)) =>
           generalize (st_preload_cb w0 t s1 H) end;
         js_run; destruct (preloaded _); auto
       | intros _; unfold EgoPose_go; hoare_go st_meth ]).
  - unfold Image_onload, Images_on_image_loaded, settle. rewrite !decide_True by reflexivity.
    js_run.
    match goal with |- context [Images_loaded ?c && on_all_loaded ?d] =>
      destruct (Images_loaded c && on_all_loaded d) end; cbv beta iota.
    + match goal with |- sub_trace _ _ (snd (preload_cb _ ?s1)) =>
        generalize (st_preload_cb w0 t s1 H) end.
      js_run. destruct (preloaded _); auto.
    + js_run. rewrite app_nil_r. exact H.
  - unfold settle. destruct (preloaded (heap s w0)) eqn:Hp.
    + apply st_check_true; auto.
    + rewrite app_nil_r. apply (hoare_apply _ _ _ s (st_check_false w0 t _)); auto.
Qed.

(** C1, in the form that holds of the code.  Over any deliveries, in any
    order and to any worlds, the transform computations and preload
    notifications of a world are exactly these, in the order of the
    deliveries: for each invocation of [on_subitem_preload_finished] on it
    that finds [preloaded()] true, one [calcTransformMatrix] followed, unless
    that raises, by one call of the callback; and for each selection of a
    coordinate system one [calcTransformMatrix] for each time the world is
    reached in [worldList].  So the callback is never called before the point
    cloud, the annotation and the pose have settled, it is called at the
    completion that makes [preloaded()] true, and again at every later
    invocation (the image set's completion, a repeated check). *)
Theorem preload_fires_at_every_check (w0 : wid) (es : list Step) (s : State) :
  List.filter (preload_event w0) (trace (run es s)) =
  List.filter (preload_event w0) (trace s) ++ preload_trace w0 es s.
Proof.
  revert s. induction es as [|e es IH]; intros s; simpl.
  - symmetry. apply app_nil_r.
  - rewrite IH. rewrite (st_step w0 e _ s eq_refl). rewrite <- app_assoc. reflexivity.
Qed.

(** C1 fails as stated: with the three flags set, the completion of the
    image set and a further check each compute the transform and notify the
    caller once more. *)
Lemma preload_fires_repeatedly :
  trace (run [ LidarPreloaded 0; AnnotationPreloaded 0; EgoPoseLoaded 0 None;
               ImageSettled 0 "front"; CallCheck 0 (Some (Cb 0)) ] ex_state)
  = [ CalcTransformMatrix 0; OnPreloadFinished (Cb 0) 0;
      CalcTransformMatrix 0; OnPreloadFinished (Cb 0) 0;
      CalcTransformMatrix 0; OnPreloadFinished (Cb 0) 0 ].
Proof. vm_compute. reflexivity. Qed.

(** * Eviction *)

Section HoareMore.
Context {A B C : Type}.

Lemma hoare_assoc (P Q : State -> Prop) (m : JS A) (k : A -> JS B) (k' : B -> JS C) :
  hoare P Q (bind m (fun a => bind (k a) k')) -> hoare P Q (bind (bind m k) k').
Proof. intros H s Hs. rewrite bind_bind. apply H, Hs. Qed.

Lemma hoare_ret_bind (P Q : State -> Prop) (a : A) (k : A -> JS B) :
  hoare P Q (k a) -> hoare P Q (bind (ret a) k).
Proof. intros H s Hs. apply H, Hs. Qed.

Lemma hoare_pure (P Q : State -> Prop) (phi : Prop) (m : JS A) :
  (forall s, P s -> phi) -> (phi -> hoare P Q m) -> hoare P Q m.
Proof. intros H1 H2 s Hs. apply H2; [eapply H1, Hs | exact Hs]. Qed.
End HoareMore.

Lemma removable_unsafe ci M W :
  everythingDone W = false \/ modified (annotation W) = true -> removable ci M W = false.
Proof.
  unfold removable. intros [->| ->]; simpl; rewrite ?andb_false_r; reflexivity.
Qed.

Lemma sp_write w W0 M x f :
  x <> w -> hoare (spared w W0 M) (spared w W0 M) (write x f).
Proof.
  intros Hx s (H1 & H2 & H3). unfold spared; simpl. rewrite upd_other by congruence. auto.
Qed.

Lemma sp_writeData w W0 M f :
  (forall d, worldList (f d) = worldList d /\ MaxWorldNumber (f d) = MaxWorldNumber d) ->
  hoare (spared w W0 M) (spared w W0 M) (writeData f).
Proof.
  intros Hf s (H1 & H2 & H3). unfold spared; simpl. destruct (Hf (data s)) as [-> ->]. auto.
Qed.

Ltac sp_prim :=
  first [ apply sp_write; congruence
        | apply sp_writeData; intros []; split; reflexivity
        | apply hoare_invoke; intros ?; let H := fresh in intros ? H; exact H
        | lazymatch goal with
          | |- hoare _ _ (emit _) => idtac
          | |- hoare _ _ (modifyChildren _) => idtac
          | |- hoare _ _ (freshId _) => idtac
          end; let H := fresh in intros ? H; exact H ].

Lemma sp_deleteAll w W0 M x :
  x <> w -> hoare (spared w W0 M) (spared w W0 M) (deleteAll x).
Proof. intros Hx. unfold deleteAll, unload, scene_remove. hoare_go sp_prim. Qed.

Lemma sp_returnOffset w W0 M o : hoare (spared w W0 M) (spared w W0 M) (returnOffset o).
Proof. unfold returnOffset. hoare_go sp_prim. Qed.

Lemma sp_deleteDistantWorlds w W0 M cur :
  everythingDone W0 = false \/ modified (annotation W0) = true ->
  hoare (spared w W0 M) (spared w W0 M) (deleteDistantWorlds cur).
Proof.
  intros Hu. unfold deleteDistantWorlds.
  apply hoare_read; intros ci.
  apply hoare_assoc, hoare_getState; intros a. apply hoare_ret_bind.
  apply hoare_readData; intros l.
  apply hoare_pure with (phi := heap a w = W0 /\ MaxWorldNumber (data a) = M).
  { intros s [[[(H1 & H2 & H3) _] ->] _]. auto. }
  intros [Ha HM]. apply hoare_bind.
  - eapply hoare_weaken; [| apply hoare_forEach]; [pre_tauto |].
    intros x Hx. apply list_elem_of_In, filter_In in Hx as [_ Hx].
    assert (x <> w) as Hne.
    { intros ->. rewrite Ha, HM, removable_unsafe in Hx by exact Hu. discriminate. }
    hoare_go ltac:(first [apply sp_deleteAll; exact Hne | apply sp_returnOffset | sp_prim]).
  - intros _. apply hoare_assoc, hoare_getState; intros a'. apply hoare_ret_bind.
    apply hoare_readData; intros l'.
    intros s [[(H1 & H2 & H3) ->] ->]. unfold spared; simpl.
    split; [exact H1 |]. split; [| exact H3].
    apply list_elem_of_In, filter_In. split; [apply list_elem_of_In, H2 |].
    rewrite H1, removable_unsafe by exact Hu. reflexivity.
Qed.

(** C5 (eviction safety).  [deleteDistantWorlds] leaves alone every entry
    that is not [everythingDone] or whose annotation is [modified], whatever
    its frame index and the current one: the entry stays in [worldList] and
    the object is untouched (so it is neither unloaded nor destroyed). *)
Theorem deleteDistantWorlds_spares_unsafe (s : State) (currentWorld w : wid) :
  w ∈ worldList (data s) ->
  everythingDone (heap s w) = false \/ modified (annotation (heap s w)) = true ->
  let s' := exec (deleteDistantWorlds currentWorld) s in
  w ∈ worldList (data s') /\ heap s' w = heap s w.
Proof.
  intros Hin Hu s'.
  destruct (sp_deleteDistantWorlds w (heap s w) (MaxWorldNumber (data s)) currentWorld Hu s)
    as (H1 & H2 & _).
  - split; [reflexivity | split; [exact Hin | reflexivity]].
  - split; assumption.
Qed.


Lemma deleteDistantWorlds_spares_unsafe_witness :
  let s' := exec (deleteDistantWorlds 0) ex_shown in
  (everythingDone (heap ex_shown 1%nat) = false \/
   modified (annotation (heap ex_shown 1%nat)) = true) /\
  1%nat ∈ worldList (data s') /\ heap s' 1%nat = heap ex_shown 1%nat.
Proof.
  split; [left; vm_compute; reflexivity |].
  apply (deleteDistantWorlds_spares_unsafe ex_shown 0 1);
    [ vm_compute; apply elem_of_cons; right; apply elem_of_cons; left; reflexivity
    | left; vm_compute; reflexivity ].
Defined.

(** ** What eviction leaves in [worldList] *)

(** One eviction touches the evicted world and the free list only, and if it
    returns the world is destroyed and no longer done. *)
Lemma evict_one x s :
  let r := evict x s in
  worldList (data (snd r)) = worldList (data s) /\
  MaxWorldNumber (data (snd r)) = MaxWorldNumber (data s) /\
  (forall w, w <> x -> heap (snd r) w = heap s w) /\
  frameInfo (heap (snd r) x) = frameInfo (heap s x) /\
  annotation (heap (snd r) x) = annotation (heap s x) /\
  offsetIndex (heap (snd r) x) = offsetIndex (heap s x) /\
  offsetList (data (snd r)) = offsetList (data s) ++ [offsetIndex (heap s x)] /\
  (destroyed (heap s x) = true -> destroyed (heap (snd r) x) = true) /\
  (fst r = Normal tt ->
   everythingDone (heap (snd r) x) = false /\ destroyed (heap (snd r) x) = true).
Proof.
  intros r. remember (evict x s) as r' eqn:E. subst r. revert E.
  unfold evict, returnOffset, deleteAll, unload, scene_remove. js_run.
  destruct (everythingDone (heap s x)) eqn:Hd; js_run; rewrite ?Hd; js_run;
    [destruct (scene (heap s x)) as [[]|] eqn:Hs; js_run |];
    try (destruct (destroyed (heap s x)) eqn:Hx; js_run);
    intros ->; js_run;
    (split; [reflexivity |]; split; [reflexivity |]; split; [intros w Hw; js_run; reflexivity |]);
    js_run; repeat split; try reflexivity; try discriminate; try assumption; try (intros; assumption).
Qed.

Lemma removable_done ci M W : everythingDone W = false -> removable ci M W = false.
Proof. intros H. apply removable_unsafe. left. exact H. Qed.

(** While the selected entries are evicted, no entry of the list other than
    those still to come is removable. *)
Lemma evict_all ci M l rest s :
  worldList (data s) = l -> MaxWorldNumber (data s) = M ->
  (forall w, w ∈ l -> removable ci M (heap s w) = true -> w ∈ rest) ->
  let r := forEach rest evict s in
  worldList (data (snd r)) = l /\ MaxWorldNumber (data (snd r)) = M /\
  (fst r = Normal tt -> forall w, w ∈ l -> removable ci M (heap (snd r) w) = false).
Proof.
  revert s. induction rest as [|x rest IH]; intros s Hl HM Hr; simpl.
  - split; [exact Hl |]. split; [exact HM |]. intros _ w Hw.
    destruct (removable ci M (heap s w)) eqn:E; [| reflexivity].
    apply Hr in E; [| exact Hw]. apply elem_of_nil in E. destruct E.
  - destruct (evict_one x s) as (H1 & H2 & H3 & _ & _ & _ & _ & _ & H6).
    unfold bind. destruct (evict x s) as [[[]|e] s1] eqn:E; simpl in *.
    + apply IH; [congruence | congruence |].
      intros w Hw Hrem. destruct (decide (w = x)) as [->|Hne].
      * rewrite removable_done in Hrem by (apply H6; reflexivity). discriminate.
      * rewrite H3 in Hrem by exact Hne. apply Hr in Hrem; [| exact Hw].
        apply elem_of_cons in Hrem as [?|?]; [contradiction | assumption].
    + split; [congruence |]. split; [congruence |]. discriminate.
Qed.

Lemma evict_keeps_evicted x w off s :
  evicted w off s -> evicted w off (snd (evict x s)).
Proof.
  intros (Hd & Ho & Hl). destruct (evict_one x s) as (_ & _ & H3 & _ & _ & H4 & H5 & H6 & _).
  unfold evicted. rewrite H5. destruct (decide (w = x)) as [->|Hne].
  - rewrite H4. split; [auto |]. split; [exact Ho |]. apply elem_of_app. left. exact Hl.
  - rewrite H3 by exact Hne. split; [exact Hd |]. split; [exact Ho |]. apply elem_of_app. left. exact Hl.
Qed.

Lemma evict_all_evicted rest s w :
  fst (forEach rest evict s) = Normal tt ->
  w ∈ rest \/ evicted w (offsetIndex (heap s w)) s ->
  evicted w (offsetIndex (heap s w)) (snd (forEach rest evict s)).
Proof.
  revert s. induction rest as [|x rest IH]; intros s Hn H; simpl in *.
  - destruct H as [H|H]; [apply elem_of_nil in H; destruct H | exact H].
  - destruct (evict_one x s) as (_ & _ & H3 & _ & _ & H4 & H5 & _ & H7).
    pose proof (evict_keeps_evicted x w (offsetIndex (heap s w)) s) as Hk.
    unfold bind in *. destruct (evict x s) as [[[]|e] s1] eqn:E; simpl in *; [| discriminate].
    assert (Hoff : offsetIndex (heap s1 w) = offsetIndex (heap s w)).
    { destruct (decide (w = x)) as [->|Hne]; [exact H4 | rewrite H3 by exact Hne; reflexivity]. }
    rewrite <- Hoff. apply IH; [exact Hn |]. rewrite Hoff.
    destruct H as [H|H]; [| right; apply Hk, H].
    apply elem_of_cons in H as [->|H]; [| left; exact H].
    right. split; [apply H7; reflexivity |]. split; [exact H4 |].
    rewrite H5. apply elem_of_app. right. apply elem_of_cons. left. reflexivity.
Qed.

Lemma filter_all {A} (f : A -> bool) (l : list A) :
  (forall x, x ∈ l -> f x = true) -> List.filter f l = l.
Proof.
  induction l as [|a l IH]; intros H; simpl; [reflexivity |].
  rewrite H by (apply elem_of_cons; left; reflexivity). f_equal. apply IH.
  intros x Hx. apply H. apply elem_of_cons. right. exact Hx.
Qed.

(** [deleteDistantWorlds] is the loop followed by the second filter. *)
Lemma deleteDistantWorlds_run (s : State) (currentWorld : wid) :
  let ci := frame_index (frameInfo (heap s currentWorld)) in
  let toDelete :=
    List.filter (fun w => removable ci (MaxWorldNumber (data s)) (heap s w)) (worldList (data s)) in
  deleteDistantWorlds currentWorld s =
  match forEach toDelete evict s with
  | (Normal _, s1) =>
      (Normal tt,
       set_data (set_worldList
                   (List.filter
                      (fun w => negb (removable ci (MaxWorldNumber (data s1)) (heap s1 w)))
                      (worldList (data s1)))
                   (data s1)) s1)
  | (Thrown e, s1) => (Thrown e, s1)
  end.
Proof.
  cbv zeta. unfold deleteDistantWorlds. js_run. fold evict. unfold bind at 1.
  destruct (forEach _ evict s) as [[[]|e] s1]; js_run; reflexivity.
Qed.

(** The second filter of [deleteDistantWorlds] never removes anything: by
    then no entry is [removable], the evicted ones because [deleteAll] has
    reset [everythingDone]. *)
Lemma deleteDistantWorlds_keeps_worldList (s : State) (currentWorld : wid) :
  worldList (data (exec (deleteDistantWorlds currentWorld) s)) = worldList (data s).
Proof.
  unfold exec. rewrite deleteDistantWorlds_run.
  set (ci := frame_index (frameInfo (heap s currentWorld))).
  set (M := MaxWorldNumber (data s)).
  set (l := worldList (data s)).
  destruct (evict_all ci M l (List.filter (fun w => removable ci M (heap s w)) l) s eq_refl eq_refl)
    as (H1 & H2 & H3).
  { intros w Hw Hr. apply list_elem_of_In, filter_In. split; [apply list_elem_of_In, Hw | exact Hr]. }
  destruct (forEach _ evict s) as [[[]|e] s1]; simpl in *.
  - rewrite H1, H2. apply filter_all. intros x Hx. rewrite H3 by auto. reflexivity.
  - exact H1.
Qed.

(** C6 fails on the code.  When [deleteDistantWorlds] returns, every entry
    that was too far and safe to remove has been destroyed by [deleteAll]
    and has had its offset returned to the allocator, and it is still in
    [worldList]: the second evaluation of [removable] sees [everythingDone]
    already reset by [deleteAll]. *)
Theorem deleteDistantWorlds_keeps_evicted_entry (s : State) (currentWorld w : wid) :
  w ∈ worldList (data s) ->
  removable (frame_index (frameInfo (heap s currentWorld))) (MaxWorldNumber (data s)) (heap s w)
    = true ->
  fst (deleteDistantWorlds currentWorld s) = Normal tt ->
  let s' := exec (deleteDistantWorlds currentWorld) s in
  destroyed (heap s' w) = true /\
  offsetIndex (heap s w) ∈ offsetList (data s') /\
  w ∈ worldList (data s').
Proof.
  intros Hw Hr Hn s'.
  pose proof (deleteDistantWorlds_keeps_worldList s currentWorld) as Hl. fold s' in Hl.
  rewrite Hl. subst s'. clear Hl. revert Hn. unfold exec. rewrite deleteDistantWorlds_run.
  match goal with |- context [forEach ?l evict s] =>
    pose proof (evict_all_evicted l s w) as He;
    destruct (forEach l evict s) as [[[]|e] s1]
  end; simpl; [| discriminate]. intros _.
  destruct He as (H1 & H2 & H3);
    [ reflexivity
    | left; apply list_elem_of_In, filter_In; split; [apply list_elem_of_In, Hw | exact Hr]
    | auto ].
Qed.

(** World 0 (frame index 0) is shown, done and unmodified, the current
    world 1 has frame index 100 and the window is 80. *)
Lemma deleteDistantWorlds_keeps_evicted_entry_witness :
  let s := ex_both_shown in
  let s' := exec (deleteDistantWorlds 1) s in
  worldList (data s') = [0%nat; 1%nat] /\
  destroyed (heap s' 0%nat) = true /\
  offsetIndex (heap s 0%nat) ∈ offsetList (data s') /\
  0%nat ∈ worldList (data s').
Proof.
  split; [vm_compute; reflexivity |].
  apply (deleteDistantWorlds_keeps_evicted_entry ex_both_shown 1 0);
    [ vm_compute; apply elem_of_cons; left; reflexivity
    | vm_compute; reflexivity
    | vm_compute; reflexivity ].
Defined.

(** * Activation *)

Lemma untransformed_fields W1 W :
  untransformed W1 = untransformed W ->
  active W1 = active W /\ destroy_old_world W1 = destroy_old_world W /\
  scene W1 = scene W /\ everythingDone W1 = everythingDone W /\
  preloaded W1 = preloaded W /\ destroyed W1 = destroyed W /\
  on_finished W1 = on_finished W.
Proof.
  destruct W1, W. unfold untransformed, preloaded. cbn. intros [=]. subst. repeat split.
Qed.

(** [calcTransformMatrix] records that it ran and touches nothing of the
    world but its transforms, whether it returns or raises. *)
Lemma calc_frame w s :
  let s' := exec (calcTransformMatrix w) s in
  trace s' = trace s ++ [CalcTransformMatrix w] /\ children s' = children s /\
  (forall w', w' <> w -> heap s' w' = heap s w') /\
  untransformed (heap s' w) = untransformed (heap s w).
Proof.
  cbv zeta. unfold exec, calcTransformMatrix, getRefEgoPose. js_run.
  destruct (coordinatesOffset (heap s w)) as [[ox oy] oz] eqn:E.
  destruct (ep_egoPose (egoPose (heap s w))); js_run;
    [ destruct (refEgoPose (data s) !! _); js_run;
      [| destruct (inherited _); js_run ] |];
    (split; [reflexivity |]; split; [reflexivity |];
     split; [intros w' Hw'; js_run; reflexivity |]);
    js_run; unfold untransformed; js_run; try rewrite E; reflexivity.
Qed.

Ltac obs_close :=
  unfold unload_obs, attach_obs, on_finished_obs, invoke; js_run;
  cbn [app]; rewrite <- ?app_assoc; cbn [app]; rewrite ?app_nil_r;
  repeat split; auto.

(** [go()] on a world that is preloaded and not shown, and holds the closure
    stored by [activate_world]: the old world is unloaded first; then the
    world is attached, unless it has been destroyed. *)
Lemma go_switch (t : State) (new old : wid) :
  old <> new ->
  destroy_old_world (heap t new) = Some (DestroyOld false (Some old)) ->
  scene (heap t new) = Some MainScene ->
  everythingDone (heap t new) = false -> preloaded (heap t new) = true ->
  (everythingDone (heap t old) = true -> scene (heap t old) = Some MainScene) ->
  let t' := exec (go new) t in
  trace t' = trace t ++ unload_obs old (everythingDone (heap t old))
                     ++ (if destroyed (heap t new) then []
                         else attach_obs new (on_finished (heap t new))) /\
  children t' =
    (let l := if everythingDone (heap t old) then filter (fun k => k <> old) (children t)
              else children t in
     if destroyed (heap t new) then l else filter (fun k => k <> new) l ++ [new]) /\
  everythingDone (heap t' old) = false /\
  everythingDone (heap t' new) = negb (destroyed (heap t new)).
Proof.
  intros Hne Hc Hsc Hnd Hp Hos. unfold exec, go. js_run. rewrite Hnd. js_run. rewrite Hp. js_run.
  unfold call_destroy_old_world. js_run. rewrite Hc. js_run. cbn [negb]. unfold unload. js_run.
  destruct (everythingDone (heap t old)) eqn:Hod; js_run.
  - unfold scene_remove. js_run. rewrite (Hos eq_refl). js_run.
    destruct (destroyed (heap t new)) eqn:Hx; js_run.
    + rewrite Hnd. js_run. obs_close.
    + unfold scene_add. js_run. rewrite Hsc. js_run.
      destruct (on_finished (heap t new)); obs_close.
  - destruct (destroyed (heap t new)) eqn:Hx; js_run.
    + rewrite Hnd. js_run. obs_close.
    + unfold scene_add. js_run. rewrite Hsc. js_run.
      destruct (on_finished (heap t new)); obs_close.
Qed.

(** C7, in the form that holds of the code.  [activate_world] without
    [dontDestroyOld], the main scene being set and the previously active
    world shown, makes the new world the current one at once and stores in it
    the closure that unloads the old one.  The closure runs inside the new
    world's [go()], before its group is added to the scene: the old entry's
    [scene.remove] precedes the new entry's [scene.add].  [go()] runs at once
    when the new world is preloaded, and otherwise at the check that finds it
    preloaded; until then nothing is attached or detached and the old entry
    stays attached.  Two cases attach nothing: a new world that has been
    destroyed makes [go()] unload the old one and return, and a new world
    that is already shown makes [go()] only call [onFinished], the old entry
    staying attached. *)
Theorem activate_world_unloads_old_then_attaches (s : State) (new old : wid)
    (onFinished : option Callback) :
  world (data s) = Some old -> old <> new ->
  webglMainScene (data s) = Some MainScene ->
  everythingDone (heap s old) = true -> scene (heap s old) = Some MainScene ->
  let s' := exec (activate_world new onFinished false) s in
  world (data s') = Some new /\
  active (heap s' new) = true /\
  destroy_old_world (heap s' new) = Some (DestroyOld false (Some old)) /\
  (if preloaded (heap s new) then
     if everythingDone (heap s new) then
       trace s' = trace s ++ on_finished_obs onFinished new /\
       children s' = children s /\
       everythingDone (heap s' old) = true
     else
       trace s' = trace s ++ unload_obs old true
                          ++ (if destroyed (heap s new) then [] else attach_obs new onFinished) /\
       children s' =
         (if destroyed (heap s new) then filter (fun k => k <> old) (children s)
          else filter (fun k => k <> new) (filter (fun k => k <> old) (children s)) ++ [new]) /\
       everythingDone (heap s' old) = false /\
       everythingDone (heap s' new) = negb (destroyed (heap s new))
   else
     trace s' = trace s /\ children s' = children s /\
     everythingDone (heap s' old) = true /\
     everythingDone (heap s' new) = everythingDone (heap s new)) /\
  (forall (t : State) (cb : option Callback),
     active (heap t new) = true ->
     destroy_old_world (heap t new) = Some (DestroyOld false (Some old)) ->
     scene (heap t new) = Some MainScene ->
     everythingDone (heap t new) = false -> preloaded (heap t new) = true ->
     calc_raises (data t) (heap t new) = false ->
     (everythingDone (heap t old) = true -> scene (heap t old) = Some MainScene) ->
     trace (exec (on_subitem_preload_finished new cb) t)
     = trace t ++ firing new cb false
               ++ unload_obs old (everythingDone (heap t old))
               ++ (if destroyed (heap t new) then []
                   else attach_obs new (on_finished (heap t new)))).
Proof.
  intros Hw Hne Hsc Hod Hos. cbv zeta.
  split; [| split; [| split; [| split]]].
  - unfold exec, activate_world, activate. js_run.
    destruct (preloaded _); js_run; [| reflexivity].
    apply (hoare_apply (fun s => world (data s) = Some new) (fun s => world (data s) = Some new));
      [| reflexivity].
    unfold go, call_destroy_old_world, unload, scene_remove, scene_add.
    hoare_go ltac:(first [ apply hoare_invoke; intros ?; let H := fresh in intros ? H; exact H
                         | let H := fresh in intros ? H; exact H ]).
  - unfold exec, activate_world, activate. js_run. rewrite Hw, Hsc. js_run.
    unfold preloaded. js_run.
    match goal with |- context [if ?b then _ else _] => destruct b eqn:Hp end;
      js_run; [| reflexivity].
    unfold go. js_run. destruct (everythingDone (heap s new)) eqn:Hnd; js_run.
    + destruct onFinished; unfold invoke; js_run; reflexivity.
    + unfold preloaded in *. js_run. rewrite Hp. js_run.
      unfold call_destroy_old_world. js_run. unfold unload. js_run. rewrite Hod. js_run.
      unfold scene_remove. js_run. rewrite Hos. js_run.
      destruct (destroyed (heap s new)) eqn:Hx; js_run.
      * rewrite Hnd. js_run. reflexivity.
      * unfold scene_add. js_run. destruct onFinished; unfold invoke; js_run; reflexivity.
  - unfold exec, activate_world, activate. js_run. rewrite Hw, Hsc. js_run.
    unfold preloaded. js_run.
    match goal with |- context [if ?b then _ else _] => destruct b eqn:Hp end;
      js_run; [| reflexivity].
    unfold go. js_run. destruct (everythingDone (heap s new)) eqn:Hnd; js_run.
    + destruct onFinished; unfold invoke; js_run; reflexivity.
    + unfold preloaded in *. js_run. rewrite Hp. js_run.
      unfold call_destroy_old_world. js_run. unfold unload. js_run. rewrite Hod. js_run.
      unfold scene_remove. js_run. rewrite Hos. js_run.
      destruct (destroyed (heap s new)) eqn:Hx; js_run.
      * rewrite Hnd. js_run. reflexivity.
      * unfold scene_add. js_run. destruct onFinished; unfold invoke; js_run; reflexivity.
  - unfold exec, activate_world, activate. js_run. rewrite Hw, Hsc. js_run.
    unfold preloaded. js_run.
    match goal with |- context [if ?b then _ else _] => destruct b eqn:Hp end;
      js_run; [| repeat split; auto].
    unfold go. js_run. destruct (everythingDone (heap s new)) eqn:Hnd; js_run.
    + destruct onFinished; obs_close.
    + unfold preloaded in *. js_run. rewrite Hp. js_run.
      unfold call_destroy_old_world. js_run. unfold unload. js_run. rewrite Hod. js_run.
      unfold scene_remove. js_run. rewrite Hos. js_run.
      destruct (destroyed (heap s new)) eqn:Hx; js_run.
      * rewrite Hnd. js_run. obs_close.
      * unfold scene_add. js_run. destruct onFinished; obs_close.
  - intros t cb Ha Hc Hs Hnd Hp Hr Hos'.
    unfold exec, on_subitem_preload_finished. rewrite bind_read, Hp.
    pose proof (calc_completion new t) as Hcc. rewrite Hr in Hcc.
    destruct (calc_frame new t) as (Ht & _ & Ho & Hu). unfold exec in Ht, Ho, Hu.
    unfold bind at 1. destruct (calcTransformMatrix new t) as [[[]|e] t1]; simpl in *;
      [| discriminate].
    apply untransformed_fields in Hu as (Ua & Uc & Us & Ud & Up & Ux & Uf).
    assert (Hgo : forall t2, heap t2 = heap t1 ->
              trace (snd (go new t2))
              = trace t2 ++ unload_obs old (everythingDone (heap t old))
                         ++ (if destroyed (heap t new) then []
                             else attach_obs new (on_finished (heap t new)))).
    { intros t2 Hh.
      pose proof (go_switch t2 new old Hne) as Hg. cbv zeta in Hg. unfold exec in Hg.
      rewrite !Hh, !(Ho old Hne) in Hg.
      destruct Hg as (Hg & _); [first [congruence | exact Hos'] .. |].
      rewrite Hg, Ux, Uf. reflexivity. }
    unfold firing. destruct cb as [c|]; unfold invoke; js_run; rewrite Ua, Ha.
    + rewrite Hgo by reflexivity. js_run. rewrite Ht, <- !app_assoc. reflexivity.
    + rewrite Hgo by reflexivity. rewrite Ht, <- !app_assoc. reflexivity.
Qed.

(** C7 fails as stated: the old world is detached before the new one is
    attached. *)
Lemma activate_world_detaches_before_attaching :
  trace (run [CallActivateWorld 1 (Some (Cb 2)) false] ex_shown)
  = trace ex_shown ++ [ LidarUnload 0; AnnotationUnload 0; SceneRemove 0;
                        SceneAdd 1; LidarGo 1; AnnotationGo 1; OnFinished (Cb 2) 1 ].
Proof. vm_compute. reflexivity. Qed.

(** World 1 is activated while world 0 is shown: at once when world 1 is
    preloaded; and, when it is not, at the check its pose handler makes. *)
Lemma activate_world_unloads_old_then_attaches_witness :
  (let s' := exec (activate_world 1 (Some (Cb 2)) false) ex_shown in
   world (data s') = Some 1%nat /\
   trace s' = trace ex_shown ++ [LidarUnload 0; AnnotationUnload 0; SceneRemove 0;
                                 SceneAdd 1; LidarGo 1; AnnotationGo 1; OnFinished (Cb 2) 1] /\
   children s' = [1%nat] /\
   everythingDone (heap s' 0%nat) = false /\ everythingDone (heap s' 1%nat) = true) /\
  (let s' := exec (activate_world 1 (Some (Cb 2)) false) ex_first_shown in
   trace s' = trace ex_first_shown /\ children s' = [0%nat]) /\
  trace (exec (on_subitem_preload_finished 1 (Some (Cb 0))) ex_switch_pending)
  = trace ex_switch_pending
    ++ [CalcTransformMatrix 1; OnPreloadFinished (Cb 0) 1;
        LidarUnload 0; AnnotationUnload 0; SceneRemove 0;
        SceneAdd 1; LidarGo 1; AnnotationGo 1; OnFinished (Cb 2) 1].
Proof.
  split; [| split].
  - destruct (activate_world_unloads_old_then_attaches ex_shown 1 0 (Some (Cb 2)))
      as (H1 & _ & _ & H2 & _); try (vm_compute; reflexivity); [discriminate |].
    split; [exact H1 |].
    change (preloaded (heap ex_shown 1%nat)) with true in H2.
    change (everythingDone (heap ex_shown 1%nat)) with false in H2.
    change (destroyed (heap ex_shown 1%nat)) with false in H2.
    cbv iota in H2. destruct H2 as (H2 & H3 & H4 & H5).
    split; [exact H2 |]. split; [rewrite H3; vm_compute; reflexivity |].
    split; [exact H4 | exact H5].
  - destruct (activate_world_unloads_old_then_attaches ex_first_shown 1 0 (Some (Cb 2)))
      as (_ & _ & _ & H2 & _); try (vm_compute; reflexivity); [discriminate |].
    change (preloaded (heap ex_first_shown 1%nat)) with false in H2.
    cbv iota in H2. destruct H2 as (H2 & H3 & _).
    split; [exact H2 | rewrite H3; vm_compute; reflexivity].
  - destruct (activate_world_unloads_old_then_attaches ex_first_shown 1 0 (Some (Cb 2)))
      as (_ & _ & _ & _ & H);
      [ vm_compute; reflexivity | discriminate | vm_compute; reflexivity
      | vm_compute; reflexivity | vm_compute; reflexivity |].
    rewrite (H ex_switch_pending (Some (Cb 0)));
      [ vm_compute; reflexivity | vm_compute; reflexivity ..
      | intros _; vm_compute; reflexivity ].
Defined.

(** * Coordinate transforms *)

Local Open Scope Qc_scope.

Lemma multiply_identity_r m : multiplyMatrices m identity = m.
Proof. destruct m. unfold multiplyMatrices, identity. cbn. f_equal; ring. Qed.

Lemma invert_left m : determinant m <> 0 -> multiplyMatrices (invert m) m = identity.
Proof.
  intros Hd. unfold invert. destruct (decide (determinant m = 0)) as [E|_]; [contradiction |].
  destruct m. unfold multiplyMatrices, identity, determinant, t11, t12, t13, t14 in *. cbn in *.
  f_equal; field; exact Hd.
Qed.

Lemma apply_multiply v a b :
  Vector4_applyMatrix4 (Vector4_applyMatrix4 v b) a = Vector4_applyMatrix4 v (multiplyMatrices a b).
Proof. destruct v, a, b. unfold Vector4_applyMatrix4, multiplyMatrices. cbn. f_equal; ring. Qed.

Lemma apply_identity v : Vector4_applyMatrix4 v identity = v.
Proof. destruct v. unfold Vector4_applyMatrix4, identity. cbn. f_equal; ring. Qed.

Lemma apply_affine v m :
  affine m -> point (Vector3_applyMatrix4 v m) = Vector4_applyMatrix4 (point v) m.
Proof.
  intros (H1 & H2 & H3 & H4). destruct v, m. unfold point, Vector3_applyMatrix4, Vector4_applyMatrix4.
  cbn in *. subst. f_equal; field; exact Q_apart_0_1.
Qed.

Lemma calc_with_pose s w p :
  ep_egoPose (egoPose (heap s w)) = Some p ->
  calc_raises (data s) (heap s w) = false ->
  let W := heap s w in
  let s' := exec (calcTransformMatrix w) s in
  let r := default p (refEgoPose (data s) !! fi_scene (frameInfo W)) in
  let lu := lidar_utm_of p r in
  let ls := if decide (coordinateSystem (cfg (data s)) = "utm")
            then multiplyMatrices (offsetMatrix W) lu else offsetMatrix W in
  refEgoPose (data s') = <[fi_scene (frameInfo W) := r]> (refEgoPose (data s)) /\
  trans_lidar_utm (heap s' w) = Some lu /\
  trans_lidar_scene (heap s' w) = Some ls /\
  trans_utm_lidar (heap s' w) = Some (invert lu) /\
  trans_scene_lidar (heap s' w) = Some (invert ls).
Proof.
  intros Hp Hc. unfold calc_raises in Hc. rewrite Hp in Hc.
  unfold exec, calcTransformMatrix, offsetMatrix, lidar_utm_of. js_run.
  destruct (coordinatesOffset (heap s w)) as [[ox oy] oz]. rewrite Hp. js_run.
  unfold getRefEgoPose. js_run.
  destruct (rotation p) as [x y z q] eqn:Hq.
  destruct (refEgoPose (data s) !! fi_scene (frameInfo (heap s w))) as [r|] eqn:Hr; js_run.
  - cbn [default qx qy qz qw]. repeat split; try reflexivity.
    symmetry. apply insert_id. exact Hr.
  - rewrite bool_decide_eq_true_2 in Hc by reflexivity. cbn [andb] in Hc. rewrite Hc. js_run.
    cbn [default qx qy qz qw]. repeat split; reflexivity.
Qed.

Lemma calc_without_pose s w :
  ep_egoPose (egoPose (heap s w)) = None ->
  let W := heap s w in
  let s' := exec (calcTransformMatrix w) s in
  refEgoPose (data s') = refEgoPose (data s) /\
  trans_lidar_utm (heap s' w) = Some identity /\
  trans_lidar_scene (heap s' w) = Some (offsetMatrix W) /\
  trans_utm_lidar (heap s' w) = Some identity /\
  trans_scene_lidar (heap s' w) = Some (invert (offsetMatrix W)).
Proof.
  intros Hp. unfold exec, calcTransformMatrix, offsetMatrix. js_run.
  destruct (coordinatesOffset (heap s w)) as [[ox oy] oz]. rewrite Hp. js_run.
  repeat split; reflexivity.
Qed.

(** When it raises, [calcTransformMatrix] has assigned nothing. *)
Lemma calc_raising s w :
  calc_raises (data s) (heap s w) = true ->
  calcTransformMatrix w s
  = (Thrown TypeError, set_trace (trace s ++ [CalcTransformMatrix w]) s).
Proof.
  unfold calc_raises, calcTransformMatrix, getRefEgoPose. js_run.
  destruct (coordinatesOffset (heap s w)) as [[ox oy] oz].
  destruct (ep_egoPose (egoPose (heap s w))) as [p|]; [| discriminate]. js_run.
  destruct (refEgoPose (data s) !! fi_scene (frameInfo (heap s w))) as [r|] eqn:Hr.
  - rewrite bool_decide_eq_false_2 by discriminate. discriminate.
  - rewrite bool_decide_eq_true_2 by reflexivity. cbn [andb]. intros ->. js_run. reflexivity.
Qed.


Lemma affine_offset W : affine (offsetMatrix W).
Proof.
  unfold offsetMatrix. destruct (coordinatesOffset W) as [[ox oy] oz].
  repeat split; reflexivity.
Qed.

Lemma det_offset W : determinant (offsetMatrix W) = 1.
Proof.
  unfold offsetMatrix. destruct (coordinatesOffset W) as [[ox oy] oz].
  unfold determinant, t11, t12, t13, t14, setPosition, identity. cbn. ring.
Qed.

Lemma det_setPosition m x y z :
  n41 m = 0 -> n42 m = 0 -> n43 m = 0 ->
  determinant (setPosition m x y z) = determinant m.
Proof.
  destruct m. unfold determinant, t11, t12, t13, t14, setPosition. cbn.
  intros -> -> ->. ring.
Qed.

Lemma det_rotation q :
  unit_quaternion q -> determinant (makeRotationFromQuaternion q) = 1.
Proof.
  unfold unit_quaternion. destruct q as [x y z q]. cbn [qx qy qz qw]. intros Hu.
  transitivity (1 + (1 + 1 + 1 + 1) * (x * x + y * y + z * z)
                    * ((x * x + y * y + z * z + q * q) - 1)).
  - unfold determinant, t11, t12, t13, t14, makeRotationFromQuaternion. cbn. ring.
  - rewrite Hu. ring.
Qed.

Lemma affine_lidar_utm p r : affine (lidar_utm_of p r).
Proof.
  unfold lidar_utm_of. rewrite multiply_identity_r. repeat split; reflexivity.
Qed.

Lemma det_lidar_utm p r :
  unit_quaternion (rotation p) -> determinant (lidar_utm_of p r) = 1.
Proof.
  intros Hu. unfold lidar_utm_of. rewrite multiply_identity_r.
  rewrite det_setPosition by reflexivity. apply det_rotation, Hu.
Qed.

(** Composing with the offset translation shifts the translation column of
    an affine matrix. *)
Lemma offset_multiply W m :
  affine m ->
  let '(ox, oy, oz) := coordinatesOffset W in
  multiplyMatrices (offsetMatrix W) m = setPosition m (n14 m + ox) (n24 m + oy) (n34 m + oz).
Proof.
  intros (H1 & H2 & H3 & H4). unfold offsetMatrix.
  destruct (coordinatesOffset W) as [[ox oy] oz]. destruct m. cbn in *. subst.
  unfold multiplyMatrices, setPosition, identity. cbn. f_equal; ring.
Qed.

Lemma affine_det_offset_multiply W m :
  affine m ->
  affine (multiplyMatrices (offsetMatrix W) m) /\
  determinant (multiplyMatrices (offsetMatrix W) m) = determinant m.
Proof.
  intros Ha. pose proof (offset_multiply W m Ha) as H.
  destruct (coordinatesOffset W) as [[ox oy] oz]. rewrite H.
  destruct Ha as (H1 & H2 & H3 & H4).
  split; [repeat split; assumption | apply det_setPosition; assumption].
Qed.


(** A point goes to the render frame and back through an affine, invertible
    [trans_lidar_scene] and its inverse. *)
Lemma round_trip_through W m pos :
  trans_lidar_scene W = Some m -> trans_scene_lidar W = Some (invert m) ->
  affine m -> determinant m = 1 ->
  lidarPosToScene W pos ≫= scenePosToLidar W = Some (point pos).
Proof.
  intros H1 H2 Ha Hd. unfold lidarPosToScene, scenePosToLidar. rewrite H1, H2.
  transitivity (Some (Vector4_applyMatrix4 (point (Vector3_applyMatrix4 pos m)) (invert m))).
  { destruct pos. reflexivity. }
  f_equal. rewrite apply_affine by exact Ha. rewrite apply_multiply, invert_left.
  - apply apply_identity.
  - rewrite Hd. exact Q_apart_0_1.
Qed.

(** Over the rationals, for a world without a pose or with a unit quaternion
    for its rotation, the forward transforms have determinant 1 and a point
    taken to the render frame and back is the point itself. *)
Lemma round_trip_over_rationals (s : State) (w : wid) (pos : Vector3) :
  unit_pose (heap s w) ->
  calc_raises (data s) (heap s w) = false ->
  let W := heap (exec (calcTransformMatrix w) s) w in
  lidarPosToScene W pos ≫= scenePosToLidar W = Some (point pos).
Proof.
  intros Hu Hc W. unfold unit_pose in Hu.
  destruct (ep_egoPose (egoPose (heap s w))) as [p|] eqn:Hp.
  - destruct (calc_with_pose s w p Hp Hc) as (_ & Hlu & Hls & Hul & Hsl).
    fold W in Hlu, Hls, Hul, Hsl. specialize (Hu p eq_refl).
    set (r := default p (refEgoPose (data s) !! fi_scene (frameInfo (heap s w)))) in *.
    set (ls := if decide (coordinateSystem (cfg (data s)) = "utm")
               then multiplyMatrices (offsetMatrix (heap s w)) (lidar_utm_of p r)
               else offsetMatrix (heap s w)) in *.
    assert (Hls' : affine ls /\ determinant ls = 1).
    { unfold ls. destruct (decide _).
      - destruct (affine_det_offset_multiply (heap s w) _ (affine_lidar_utm p r)) as [Ha Hd].
        split; [exact Ha |]. rewrite Hd. apply det_lidar_utm, Hu.
      - split; [apply affine_offset | apply det_offset]. }
    destruct Hls' as [Hla Hld]. apply (round_trip_through W ls); assumption.
  - destruct (calc_without_pose s w Hp) as (_ & Hlu & Hls & Hul & Hsl).
    fold W in Hlu, Hls, Hul, Hsl.
    apply (round_trip_through W (offsetMatrix (heap s w)));
      [exact Hls | exact Hsl | apply affine_offset | apply det_offset].
Qed.

(** ** The cached inverse transforms *)

Section TransformsCached.
Variable w0 : wid.

Let P : State -> Prop := has_transforms w0.





End TransformsCached.





Local Close Scope Qc_scope.

(** * Rotation conversion *)

Lemma toQuat_raises `{QuaternionOps} rot : raises (toQuat rot) <-> supported rot = false.
Proof.
  unfold raises. destruct rot as [| |q|e|a|o]; simpl;
    try (split; [intros [e' He]; discriminate | discriminate]).
  - split; eauto.
  - destruct a as [|w [|x [|y [|z [|? ?]]]]]; simpl;
      split; eauto; try discriminate; intros [e He]; discriminate.
  - destruct (_ && _); split; eauto; try discriminate. intros [e He]; discriminate.
Qed.

(** C10, in the form that holds of the code.  The four rotation helpers compute the same thing from
    their respective cached transform: the input as a quaternion times the
    quaternion of the transform (local times parent; the identity when the
    transform is not there), normalised, and converted to Euler angles in
    the order of the input when it is an Euler angle and in XYZ otherwise.
    They raise exactly on the inputs [toQuat] does not support; it supports
    falsy values, quaternions, Euler angles, arrays of four elements and
    objects with properties x, y and z. *)
Theorem rotation_helpers_compose_local_parent `{QuaternionOps} (W : World) (rot : RotationArg) :
  sceneRotToLidar W rot = convert_with (trans_scene_lidar W) rot /\
  lidarRotToScene W rot = convert_with (trans_lidar_scene W) rot /\
  lidarRotToUtm W rot = convert_with (trans_lidar_utm W) rot /\
  utmRotToLidar W rot = convert_with (trans_utm_lidar W) rot /\
  (forall m, raises (convert_with m rot) <-> supported rot = false) /\
  (forall e, orderOf (RotEuler e) = order e).
Proof.
  unfold sceneRotToLidar, lidarRotToScene, lidarRotToUtm, utmRotToLidar,
    sceneRotToLidarQuat, lidarRotToSceneQuat, lidarRotToUtmQuat, utmRotToLidarQuat, convert_with.
  repeat split; try (destruct (toQuat rot); reflexivity).
  - intros [e He]. apply toQuat_raises. destruct (toQuat rot); [discriminate | eexists; reflexivity].
  - intros Hs. apply toQuat_raises in Hs as [e He]. rewrite He. eexists; reflexivity.
Qed.

(** C10 fails as stated: [null] and a plain object [{x, y, z}] are neither
    Euler angles, quaternions nor arrays, and are converted, not rejected. *)
Lemma rotation_helpers_accept_more :
  let xyz : gmap string (option Qc) :=
    {[ "x" := Some 0%Qc; "y" := Some 0%Qc; "z" := Some 1%Qc ]} in
  supported RotFalsy = true /\
  supported (RotObject xyz) = true /\
  (forall (ops : QuaternionOps) W,
     sceneRotToLidar W RotFalsy
     = Normal (Euler_setFromQuaternion
                 (normalize (Quaternion_multiply Quaternion_identity
                               (parentQuat (trans_scene_lidar W)))) "XYZ")) /\
  (forall (ops : QuaternionOps),
     toQuat (RotObject xyz) = Normal (mkQuaternion 0 0 1 1)%Qc).
Proof.
  repeat split.
Qed.


(** * The offset allocator *)

(** C3 fails on the code.  On a new [Data], three allocations with no release
    in between return the cells (0, 0, 0), (0, -1, 0) and (0, -1, 0): the
    second and third live entries hold equal cells, in distinct arrays.  The
    ring of eight arrays is generated with duplicates, since [includes]
    compares each new array by identity. *)
Theorem allocateOffset_repeats_a_cell :
  let three := do a <- allocateOffset; do b <- allocateOffset; do c <- allocateOffset;
               ret (a, b, c) in
  fst (three fresh_state)
  = Normal (Some (mkOffsetArray 1 (0, 0, 0)),
            Some (mkOffsetArray 9 (0, -1, 0)),
            Some (mkOffsetArray 8 (0, -1, 0))).
Proof. vm_compute. reflexivity. Qed.

(** * Further properties of the cache *)

(** ** The offset allocator, continued *)

Lemma push_new_length l news : (length l <= length (push_new l news))%nat.
Proof.
  revert l. induction news as [|o news IH]; intros l; simpl; [lia |].
  etransitivity; [| apply IH]. destruct (Array_includes l o); [lia |].
  rewrite length_app. simpl. lia.
Qed.

Lemma push_new_nonempty o news : push_new [] (o :: news) <> [].
Proof.
  simpl. intros H. pose proof (push_new_length [o] news) as Hl. rewrite H in Hl. simpl in Hl. lia.
Qed.

Lemma last_is_Some {A} (l : list A) : l <> [] -> is_Some (last l).
Proof.
  intros H. destruct (last l) eqn:E; [eexists; reflexivity |].
  apply last_None in E. contradiction.
Qed.

(** [pop] always finds an array. *)
Lemma allocateOffset_Some (s : State) :
  exists o, fst (allocateOffset s) = Normal (Some o).
Proof.
  unfold allocateOffset. js_run.
  destruct (decide (offsetsAliveCount (data s) = 0)) as [E|E]; js_run.
  - eexists. reflexivity.
  - destruct (decide (length (offsetList (data s)) = 0%nat)) as [L|L]; js_run.
    + destruct (lastSeedOffset (data s)) as [[x y] z].
      destruct (decide (x = y)); js_run;
        (apply length_zero_iff_nil in L; rewrite L;
         match goal with |- context [push_new [] (literals ?n (?c :: ?cs))] =>
           destruct (last_is_Some (push_new [] (literals n (c :: cs)))) as [o Ho];
           [apply push_new_nonempty | exists o; rewrite Ho; reflexivity]
         end).
    + destruct (last_is_Some (offsetList (data s))) as [o Ho].
      { intros H. apply L. rewrite H. reflexivity. }
      exists o. rewrite Ho. reflexivity.
Qed.

(** X2.  When no offset is alive, [allocateOffset] restarts the allocator:
    it hands out the cell (0, 0, 0) in a new array, whatever the free list
    and the seed held, and leaves the free list empty, the seed at (0, 0, 0)
    and one offset alive. *)
Theorem allocateOffset_restarts_at_origin (s : State) :
  offsetsAliveCount (data s) = 0 ->
  let s' := exec allocateOffset s in
  fst (allocateOffset s) = Normal (Some (mkOffsetArray (nextId s) (0, 0, 0))) /\
  offsetList (data s') = [] /\ lastSeedOffset (data s') = (0, 0, 0) /\
  offsetsAliveCount (data s') = 1.
Proof.
  intros H. unfold exec, allocateOffset. js_run.
  destruct (decide (offsetsAliveCount (data s) = 0)) as [_|E]; [| contradiction].
  js_run.
  destruct (decide (length [_] = 0%nat)) as [E|_]; [discriminate |]. js_run.
  rewrite H. repeat split.
Qed.

Lemma removelast_snoc {A} (l : list A) x : removelast (l ++ [x]) = l.
Proof. apply removelast_last. Qed.

Lemma last_snoc' {A} (l : list A) x : last (l ++ [x]) = Some x.
Proof. apply last_snoc. Qed.

(** X3.  A released array is the next one handed out: unless the release
    was of the last offset alive, [returnOffset(o)] followed by
    [allocateOffset()] returns [o] itself and leaves the state as it was
    before the release. *)
Theorem returnOffset_then_allocateOffset (s : State) (o : OffsetArray) :
  offsetsAliveCount (data s) <> 1 ->
  let s1 := exec (returnOffset o) s in
  allocateOffset s1 = (Normal (Some o), s).
Proof.
  intros H. unfold exec, returnOffset, allocateOffset. js_run.
  destruct (decide (offsetsAliveCount (data s) - 1 = 0)) as [E|_]; [exfalso; lia |]. js_run.
  destruct (decide (_ = 0%nat)) as [E|_]; [exfalso; rewrite length_app in E; simpl in E; lia |]. js_run.
  rewrite removelast_snoc, last_snoc'.
  destruct s as [h d c t n]. destruct d. unfold set_offsetList, set_offsetsAliveCount. cbn.
  do 3 f_equal. lia.

Qed.

(** X4.  With offsets alive and a free list that is not empty,
    [allocateOffset()] hands out the last array of the free list, and
    returning it restores the state. *)
Theorem allocateOffset_then_returnOffset (s : State) :
  offsetsAliveCount (data s) <> 0 -> offsetList (data s) <> [] ->
  exists o, fst (allocateOffset s) = Normal (Some o) /\
            last (offsetList (data s)) = Some o /\
            exec (returnOffset o) (exec allocateOffset s) = s.
Proof.
  intros H L. destruct (last_is_Some _ L) as [o Ho]. exists o.
  unfold exec, returnOffset, allocateOffset. js_run.
  destruct (decide (offsetsAliveCount (data s) = 0)) as [E|_]; [contradiction |]. js_run.
  destruct (decide (_ = 0%nat)) as [E|_]; [apply length_zero_iff_nil in E; contradiction |]. js_run.
  rewrite Ho. split; [reflexivity |]. split; [reflexivity |].
  destruct s as [h d c t n]. destruct d. unfold set_offsetList, set_offsetsAliveCount. cbn in *.
  apply last_Some in Ho as [l' ->]. rewrite removelast_snoc.
  do 2 f_equal; lia.
Qed.

(** ** Reference poses and the change of scene *)

(** X5.  [getRefEgoPose] is idempotent: any further [getRefEgoPose(sc, q)]
    returns what the first call for [sc] returned, whatever [q] is, and
    changes nothing.  What it returns is a pose kept under the scene's name,
    the first one offered; unless the scene has none and is named like a
    property of [Object.prototype]: then it is that inherited property, and
    nothing is stored. *)
Theorem getRefEgoPose_first_wins (s : State) (sc : string) (p q : Pose) :
  let s1 := exec (getRefEgoPose sc p) s in
  exists r, fst (getRefEgoPose sc p s) = Normal r /\
            getRefEgoPose sc q s1 = (Normal r, s1) /\
            match r with
            | StoredPose F0 =>
                refEgoPose (data s1) !! sc = Some F0 /\
                (refEgoPose (data s) !! sc = None -> F0 = p /\ inherited sc = false)
            | InheritedProperty k =>
                k = sc /\ inherited sc = true /\ refEgoPose (data s) !! sc = None /\ s1 = s
            end.
Proof.
  unfold exec, getRefEgoPose. js_run.
  destruct (refEgoPose (data s) !! sc) as [r|] eqn:E; js_run.
  - exists (StoredPose r). rewrite E. js_run. repeat split; auto; discriminate.
  - destruct (inherited sc) eqn:Hi; js_run.
    + exists (InheritedProperty sc). rewrite ?E, ?Hi. js_run. repeat split; auto.
    + exists (StoredPose p). rewrite lookup_insert_eq. js_run. repeat split; auto.
Qed.

(** X6.  After [removeRefEgoPoseOfScene(sc)] the next pose offered for [sc]
    becomes its reference, unless [sc] is named like a property of
    [Object.prototype]: then the read still finds the inherited property and
    nothing is stored.  The references of the other scenes are not affected
    by either call. *)
Theorem removeRefEgoPoseOfScene_resets (s : State) (sc : string) (q : Pose) :
  let s1 := exec (removeRefEgoPoseOfScene sc) s in
  let s2 := exec (getRefEgoPose sc q) s1 in
  (if inherited sc then
     fst (getRefEgoPose sc q s1) = Normal (InheritedProperty sc) /\
     refEgoPose (data s2) !! sc = None
   else
     fst (getRefEgoPose sc q s1) = Normal (StoredPose q) /\
     refEgoPose (data s2) !! sc = Some q) /\
  forall sc', sc' <> sc ->
    refEgoPose (data s1) !! sc' = refEgoPose (data s) !! sc' /\
    refEgoPose (data s2) !! sc' = refEgoPose (data s) !! sc'.
Proof.
  unfold exec, removeRefEgoPoseOfScene, getRefEgoPose. js_run.
  rewrite lookup_delete_eq. destruct (inherited sc); js_run.
  - rewrite lookup_delete_eq. split; [split; reflexivity |]. intros sc' Hne.
    rewrite lookup_delete_ne by congruence. auto.
  - rewrite lookup_insert_eq. split; [split; reflexivity |]. intros sc' Hne.
    rewrite lookup_insert_ne, lookup_delete_ne by congruence. auto.
Qed.

Lemma purge_one k x s :
  let r := purge k x s in
  let sc := fi_scene (frameInfo (heap s x)) in
  worldList (data (snd r)) = worldList (data s) /\
  (forall w, w <> x -> heap (snd r) w = heap s w) /\
  frameInfo (heap (snd r) x) = frameInfo (heap s x) /\
  offsetIndex (heap (snd r) x) = offsetIndex (heap s x) /\
  (sc = k -> snd r = s) /\
  (forall o, o ∈ offsetList (data s) -> o ∈ offsetList (data (snd r))) /\
  (forall sc', refEgoPose (data (snd r)) !! sc' = refEgoPose (data s) !! sc' \/
               (sc' <> k /\ refEgoPose (data (snd r)) !! sc' = None)) /\
  (fst r = Normal tt -> sc <> k -> purged x (snd r)).
Proof.
  intros r sc. remember (purge k x s) as r' eqn:E. subst r. revert E.
  unfold purge, returnOffset, deleteAll, unload, scene_remove, removeRefEgoPoseOfScene. js_run.
  fold sc. destruct (decide (sc <> k)) as [Hk|Hk]; js_run.
  2:{ intros ->. js_run.
      split; [reflexivity |]. split; [reflexivity |]. split; [reflexivity |].
      split; [reflexivity |]. split; [reflexivity |]. split; [auto |]. split; [auto |].
      intros _ ?. contradiction. }
  destruct (everythingDone (heap s x)) eqn:Hd; js_run; rewrite ?Hd; js_run;
    [destruct (scene (heap s x)) as [[]|] eqn:Hs; js_run |];
    try (destruct (destroyed (heap s x)) eqn:Hx; js_run);
    intros ->; js_run; unfold purged;
    (split; [reflexivity |]; split; [intros w Hw; js_run; reflexivity |]);
    js_run;
    (split; [reflexivity |]; split; [reflexivity |]; split; [intros; contradiction |];
     split; [intros o Ho; rewrite ?elem_of_app; auto |]; fold sc;
     split; [intros sc'; destruct (decide (sc' = sc)) as [->|Hne];
             [ first [ right; split; [exact Hk | apply lookup_delete_eq] | left; reflexivity ]
             | left; rewrite ?lookup_delete_ne by congruence; reflexivity ] |]);
    try discriminate;
    (intros _ _; js_run; repeat split; try reflexivity; try assumption;
     [ rewrite elem_of_app; right; apply elem_of_cons; left; reflexivity
     | apply lookup_delete_eq ]).
Qed.

Lemma purge_all k rest s :
  let r := forEach rest (purge k) s in
  worldList (data (snd r)) = worldList (data s) /\
  (forall w, frameInfo (heap (snd r) w) = frameInfo (heap s w) /\
             offsetIndex (heap (snd r) w) = offsetIndex (heap s w)) /\
  (forall w, fi_scene (frameInfo (heap s w)) = k -> heap (snd r) w = heap s w) /\
  refEgoPose (data (snd r)) !! k = refEgoPose (data s) !! k /\
  (forall o, o ∈ offsetList (data s) -> o ∈ offsetList (data (snd r))) /\
  (forall sc', refEgoPose (data s) !! sc' = None -> refEgoPose (data (snd r)) !! sc' = None) /\
  (fst r = Normal tt ->
   forall w, (w ∈ rest /\ fi_scene (frameInfo (heap s w)) <> k) \/ purged w s -> purged w (snd r)).
Proof.
  revert s. induction rest as [|x rest IH]; intros s; simpl.
  - do 6 (split; [auto |]). intros _ w [[H _]|H]; [apply elem_of_nil in H; destruct H | exact H].
  - destruct (purge_one k x s) as (H1 & H2 & H3 & H4 & H5 & H6 & H7 & H8).
    assert (Hfi : forall w, frameInfo (heap (snd (purge k x s)) w) = frameInfo (heap s w) /\
                            offsetIndex (heap (snd (purge k x s)) w) = offsetIndex (heap s w)).
    { intros w. destruct (decide (w = x)) as [->|Hne]; [auto | rewrite H2 by exact Hne; auto]. }
    assert (Hk : forall w, fi_scene (frameInfo (heap s w)) = k -> heap (snd (purge k x s)) w = heap s w).
    { intros w Hw. destruct (decide (w = x)) as [->|Hne]; [rewrite H5 by exact Hw; reflexivity | auto]. }
    assert (Hrk : refEgoPose (data (snd (purge k x s))) !! k = refEgoPose (data s) !! k).
    { destruct (H7 k) as [E|[E _]]; [exact E | contradiction]. }
    assert (Hn : forall sc', refEgoPose (data s) !! sc' = None ->
                             refEgoPose (data (snd (purge k x s))) !! sc' = None).
    { intros sc' E. destruct (H7 sc') as [E'|[_ E']]; congruence. }
    unfold bind. destruct (purge k x s) as [[[]|e] s1] eqn:E; simpl in *.
    + destruct (IH s1) as (I1 & I2 & I3 & I4 & I5 & I6 & I7).
      split; [congruence |]. split.
      { intros w. destruct (I2 w), (Hfi w). split; congruence. }
      split. { intros w Hw. rewrite I3; [auto |]. destruct (Hfi w) as [-> _]. exact Hw. }
      split; [congruence |]. split; [auto |]. split; [auto |].
      intros Hr w Hw. apply (I7 Hr). destruct (Hfi w) as [Ef Eo]. rewrite Ef.
      destruct Hw as [[Hin Hsc]|Hp].
      * apply elem_of_cons in Hin as [->|Hin]; [right; apply H8; auto | left; auto].
      * right. destruct Hp as (P1 & P2 & P3 & P4). unfold purged. rewrite Ef, Eo.
        destruct (decide (w = x)) as [->|Hne].
        -- destruct (decide (fi_scene (frameInfo (heap s x)) = k)) as [Ek|Ek].
           ++ rewrite H5 by exact Ek. auto.
           ++ destruct (H8 eq_refl Ek) as (Q1 & Q2 & Q3 & Q4).
              rewrite H3, H4 in *. auto.
        -- rewrite H2 by exact Hne. auto.
    + split; [exact H1 |]. split; [exact Hfi |]. split; [exact Hk |]. split; [exact Hrk |].
      split; [exact H6 |]. split; [exact Hn |]. discriminate.
Qed.

Lemma deleteOtherWorldsExcept_run (s : State) (keepScene : string) :
  deleteOtherWorldsExcept keepScene s =
  match forEach (worldList (data s)) (purge keepScene) s with
  | (Normal _, s1) =>
      (Normal tt,
       set_data (set_worldList
                   (List.filter
                      (fun w => bool_decide (fi_scene (frameInfo (heap s1 w)) = keepScene))
                      (worldList (data s1)))
                   (data s1)) s1)
  | (Thrown e, s1) => (Thrown e, s1)
  end.
Proof.
  unfold deleteOtherWorldsExcept. js_run. fold (purge keepScene).
  change (fun w => purge keepScene w) with (purge keepScene).
  unfold bind at 1.
  destruct (forEach _ (purge keepScene) s) as [[[]|e] s1]; js_run; reflexivity.
Qed.

Lemma deleteOtherWorldsExcept_effect (s : State) (keepScene : string) :
  fst (deleteOtherWorldsExcept keepScene s) = Normal tt ->
  let s' := exec (deleteOtherWorldsExcept keepScene) s in
  worldList (data s')
    = List.filter (fun w => bool_decide (fi_scene (frameInfo (heap s w)) = keepScene))
                  (worldList (data s)) /\
  (forall w, fi_scene (frameInfo (heap s w)) = keepScene -> heap s' w = heap s w) /\
  refEgoPose (data s') !! keepScene = refEgoPose (data s) !! keepScene /\
  (forall w, w ∈ worldList (data s) -> fi_scene (frameInfo (heap s w)) <> keepScene ->
     destroyed (heap s' w) = true /\ everythingDone (heap s' w) = false /\
     offsetIndex (heap s w) ∈ offsetList (data s') /\
     refEgoPose (data s') !! fi_scene (frameInfo (heap s w)) = None).
Proof.
  unfold exec. rewrite deleteOtherWorldsExcept_run.
  destruct (purge_all keepScene (worldList (data s)) s) as (H1 & H2 & H3 & H4 & _ & _ & H7).
  destruct (forEach _ (purge keepScene) s) as [[[]|e] s1]; simpl in *; [| discriminate].
  intros _. split.
  { rewrite H1. apply filter_ext. intros w. destruct (H2 w) as [-> _]. reflexivity. }
  split; [exact H3 |]. split; [exact H4 |].
  intros w Hw Hsc. destruct (H7 eq_refl w) as (P1 & P2 & P3 & P4); [left; auto |].
  destruct (H2 w) as [Ef Eo]. rewrite Ef, Eo in *. auto.
Qed.

(** ** What is attached, what is released *)

Lemma ad_write w f :
  (forall W, everythingDone (f W) = everythingDone W) ->
  hoare attached_iff_done attached_iff_done (write w f).
Proof.
  intros Hf s H k. simpl. rewrite (H k). destruct (decide (k = w)) as [->|Hne].
  - rewrite upd_same, Hf. reflexivity.
  - rewrite upd_other by exact Hne. reflexivity.
Qed.

Lemma ad_keep {A} (m : JS A) :
  (forall s, children (snd (m s)) = children s /\ heap (snd (m s)) = heap s) ->
  hoare attached_iff_done attached_iff_done m.
Proof. intros Hm s H k. destruct (Hm s) as [-> ->]. apply H. Qed.

Ltac ad_prim :=
  first [ apply ad_write; intros []; reflexivity
        | apply hoare_invoke; intros ?; apply ad_keep; intros ?; split; reflexivity
        | lazymatch goal with
          | |- hoare _ _ (emit _) => idtac
          | |- hoare _ _ (writeData _) => idtac
          | |- hoare _ _ (freshId _) => idtac
          end; apply ad_keep; intros ?; split; reflexivity ].

Lemma ad_unload w : hoare attached_iff_done attached_iff_done (unload w).
Proof.
  intros s H. unfold unload, scene_remove. js_run.
  destruct (everythingDone (heap s w)) eqn:Hd; js_run; [| exact H].
  destruct (scene (heap s w)) as [[]|]; js_run.
  - intros k. js_run. rewrite list_elem_of_filter. destruct (decide (k = w)) as [->|Hne]; js_run.
    + split; [intros [? _]; congruence | discriminate].
    + rewrite <- (H k). tauto.
  - exact H.
Qed.

Lemma ad_call_destroy_old_world w :
  hoare attached_iff_done attached_iff_done (call_destroy_old_world w).
Proof. unfold call_destroy_old_world. hoare_go ltac:(first [ad_prim | apply ad_unload]). Qed.

Lemma ad_attach w :
  hoare attached_iff_done attached_iff_done
    (scene_add w >>
     emit (LidarGo w) >>
     emit (AnnotationGo w) >>
     (do fin <- read w on_finished;
      invoke fin (fun c => OnFinished c w)) >>
     write w (set_everythingDone true)).
Proof.
  intros s H. unfold scene_add. js_run.
  destruct (scene (heap s w)) as [[]|]; js_run; [| exact H].
  assert (E : forall t, attached_iff_done
            (mkState (upd w (set_everythingDone true) (heap s)) (data s)
                     (filter (fun k => k <> w) (children s) ++ [w]) t (nextId s))).
  { intros t k. simpl. rewrite elem_of_app, list_elem_of_filter, list_elem_of_singleton.
    destruct (decide (k = w)) as [->|Hne]; js_run.
    - split; auto.
    - rewrite <- (H k). tauto. }
  destruct (on_finished (heap s w)); unfold invoke; js_run; apply E.
Qed.

Lemma ad_go w : hoare attached_iff_done attached_iff_done (go w).
Proof.
  unfold go. apply hoare_read; intros done. destruct done.
  { hoare_go ad_prim. }
  apply hoare_read; intros p. destruct p; [| apply hoare_ret; pre_tauto].
  apply hoare_bind.
  { eapply hoare_weaken; [| apply ad_call_destroy_old_world]. pre_tauto. }
  intros _. apply hoare_read; intros d. destruct d.
  - eapply hoare_weaken; [| apply ad_unload]. pre_tauto.
  - eapply hoare_weaken; [| apply ad_attach]. pre_tauto.
Qed.

Ltac ad_meth :=
  first [ ad_prim | apply ad_unload | apply ad_call_destroy_old_world | apply ad_go ].

Lemma ad_step e : hoare attached_iff_done attached_iff_done (step e).
Proof.
  destruct e; simpl;
    unfold Lidar_on_preloaded, Annotation_on_preloaded, EgoPose_onreadystatechange,
      Image_onload, Images_on_image_loaded, activate_world, deleteDistantWorlds,
      deleteOtherWorldsExcept, removeRefEgoPoseOfScene, select_coordinate_system, preload_cb,
      on_subitem_preload_finished, calcTransformMatrix, getRefEgoPose, activate, deleteAll,
      EgoPose_go, returnOffset, allocateOffset;
    hoare_go ad_meth.
Qed.

(** X9.  Over any deliveries, the groups attached to the scene are exactly
    those of the worlds flagged [everythingDone]: [go] sets the flag with
    the [scene.add], [unload] resets it with the [scene.remove], and an
    exception in between leaves both as they were. *)
Theorem attached_worlds_are_the_done_ones (s : State) (es : list Step) :
  attached_iff_done s -> attached_iff_done (run es s).
Proof. intros H. apply (hoare_run attached_iff_done); [apply ad_step | exact H]. Qed.

Section ReleasedOnce.
Variables (w0 : wid) (r0 : nat) (b0 : bool).

Let P : State -> Prop := released_once w0 r0 b0.










End ReleasedOnce.


(** X11.  A second [deleteAll()] on a world does nothing: it returns and
    leaves the state of the first as it is. *)
Theorem deleteAll_twice (s : State) (w : wid) :
  fst (deleteAll w s) = Normal tt ->
  deleteAll w (exec (deleteAll w) s) = (Normal tt, exec (deleteAll w) s).
Proof.
  unfold exec, deleteAll, unload, scene_remove. js_run.
  destruct (everythingDone (heap s w)) eqn:Hd; js_run; rewrite ?Hd; js_run;
    [destruct (scene (heap s w)) as [[]|] eqn:Hs; js_run; [| discriminate] |];
    destruct (destroyed (heap s w)) eqn:Hx; js_run; intros _;
    repeat (progress (rewrite ?Hd, ?Hx; js_run)); reflexivity.
Qed.

(** ** The image set, activation and the pose loader *)

(** ** The image set *)

Lemma cm_write w0 x w f :
  w <> w0 \/ (forall W, cameras (f W) = cameras W) ->
  hoare (has_cameras w0 x) (has_cameras w0 x) (write w f).
Proof.
  intros Hf s H. unfold has_cameras in *; simpl.
  destruct (decide (w0 = w)) as [->|Hne].
  - rewrite upd_same. destruct Hf as [?|Hf]; [congruence |]. rewrite Hf. exact H.
  - rewrite upd_other by exact Hne. exact H.
Qed.

Ltac cm_prim :=
  first [ apply cm_write; first [ left; congruence | right; intros []; reflexivity ]
        | apply hoare_invoke; intros ?; let H := fresh in intros ? H; exact H
        | lazymatch goal with
          | |- hoare _ _ (emit _) => idtac
          | |- hoare _ _ (writeData _) => idtac
          | |- hoare _ _ (modifyChildren _) => idtac
          | |- hoare _ _ (freshId _) => idtac
          end; let H := fresh in intros ? H; exact H ].

Lemma cm_unload w0 x w : hoare (has_cameras w0 x) (has_cameras w0 x) (unload w).
Proof. unfold unload, scene_remove. hoare_go cm_prim. Qed.

Lemma cm_go w0 x w : hoare (has_cameras w0 x) (has_cameras w0 x) (go w).
Proof.
  unfold go, call_destroy_old_world, scene_add.
  hoare_go ltac:(first [apply cm_unload | cm_prim]).
Qed.

Lemma cm_preload_cb w0 x w : hoare (has_cameras w0 x) (has_cameras w0 x) (preload_cb w).
Proof.
  unfold preload_cb, on_subitem_preload_finished, calcTransformMatrix, getRefEgoPose.
  hoare_go ltac:(first [apply cm_go | cm_prim]).
Qed.

Lemma cm_deleteAll w0 x w : hoare (has_cameras w0 x) (has_cameras w0 x) (deleteAll w).
Proof. unfold deleteAll. hoare_go ltac:(first [apply cm_unload | cm_prim]). Qed.

Ltac cm_meth :=
  first [ apply cm_go | apply cm_unload | apply cm_preload_cb | apply cm_deleteAll | cm_prim ].

Ltac cm_all :=
  unfold Lidar_on_preloaded, Annotation_on_preloaded, EgoPose_onreadystatechange,
    Image_onload, Images_on_image_loaded, activate_world, deleteDistantWorlds,
    deleteOtherWorldsExcept, removeRefEgoPoseOfScene, activate, on_subitem_preload_finished,
    select_coordinate_system,
    calcTransformMatrix, getRefEgoPose, EgoPose_go, returnOffset, allocateOffset;
  hoare_go cm_meth.

Lemma cm_frame {A} w0 (m : JS A) s :
  (forall x, hoare (has_cameras w0 x) (has_cameras w0 x) m) ->
  cameras (heap (snd (m s)) w0) = cameras (heap s w0).
Proof. intros H. apply (H _ s). reflexivity. Qed.

Lemma cm_step w0 e s :
  cameras (heap (exec (step e) s) w0) = cameras (settle e w0 (heap s w0)).
Proof.
  unfold exec.
  destruct e as [w|w|w r|w cam| | | | | | | | | | |]; simpl settle;
    try (apply cm_frame; intros x; simpl step; cm_all);
    (destruct (decide (w = w0)) as [->|Hne];
     [| apply cm_frame; intros x; simpl step; cm_all]); simpl step.
  - unfold Lidar_on_preloaded. js_run. rewrite cm_frame by (intros; cm_all). js_run. reflexivity.
  - unfold Annotation_on_preloaded. js_run. rewrite cm_frame by (intros; cm_all). js_run.
    reflexivity.
  - unfold EgoPose_onreadystatechange. destruct r; js_run;
      rewrite cm_frame by (intros; cm_all); js_run; reflexivity.
  - unfold Image_onload. js_run. rewrite cm_frame by (intros; cm_all). js_run. reflexivity.
Qed.

Lemma cm_run w0 es s :
  cameras (heap (run es s) w0) = cameras (fold_left (fun W e => settle e w0 W) es (heap s w0)).
Proof.
  revert s. induction es as [|e es IH]; intros s; simpl; [reflexivity |].
  rewrite IH. clear IH. generalize (cm_step w0 e s).
  generalize (heap (exec (step e) s) w0) (settle e w0 (heap s w0)). intros W1 W2 H.
  revert W1 W2 H. induction es as [|e' es IH]; intros W1 W2 H; simpl; [exact H |].
  apply IH. clear IH.
  destruct e'; simpl; try exact H;
    destruct (decide (_ = w0)); try exact H; simpl; try congruence.
Qed.

Lemma settle_cameras e w W cam :
  names (cameras (settle e w W)) = names (cameras W) /\
  (flagged (cameras (settle e w W)) cam <-> flagged (cameras W) cam \/ e = ImageSettled w cam).
Proof.
  unfold flagged, loaded_flag_of.
  destruct e; simpl; try (split; [reflexivity |]; split; [tauto | intros [?|?]; [assumption | discriminate]]).
  all: case_decide; subst; simpl; (split; [reflexivity |]).
  all: try (split; [tauto | intros [?|?]; [assumption | congruence]]).
  destruct (decide (cam0 = cam)) as [->|Hne].
  - rewrite lookup_insert_eq. simpl. split; auto.
  - rewrite lookup_insert_ne by exact Hne. split; [tauto | intros [?|?]; [assumption | congruence]].
Qed.

Lemma settled_cameras w es W cam :
  names (cameras (fold_left (fun W e => settle e w W) es W)) = names (cameras W) /\
  (flagged (cameras (fold_left (fun W e => settle e w W) es W)) cam <->
   flagged (cameras W) cam \/ ImageSettled w cam ∈ es).
Proof.
  revert W. induction es as [|e es IH]; intros W; simpl.
  - rewrite elem_of_nil. tauto.
  - destruct (IH (settle e w W)) as [-> ->]. destruct (settle_cameras e w W cam) as [-> ->].
    rewrite elem_of_cons. split; [reflexivity |]. intuition (subst; auto).
Qed.

(** X12.  After any deliveries, [Images.loaded()] of a world is true if and
    only if for every camera name of the world [loaded_flag] was truthy
    before or the image settled ([onload] or [onerror]) among the deliveries.
    [loaded_flag] is truthy from the start for a camera named like a
    property of [Object.prototype]; a world without cameras is loaded from
    the start. *)
Theorem images_loaded_iff_all_settled (s : State) (w : wid) (es : list Step) :
  Images_loaded (cameras (heap (run es s) w)) = true <->
  forall cam, cam ∈ names (cameras (heap s w)) ->
    flagged (cameras (heap s w)) cam \/ ImageSettled w cam ∈ es.
Proof.
  rewrite cm_run. unfold Images_loaded. rewrite forallb_forall.
  split.
  - intros H cam Hc. destruct (settled_cameras w es (heap s w) cam) as [En Ef].
    apply Ef. apply H. rewrite En. apply list_elem_of_In, Hc.
  - intros H cam Hc. destruct (settled_cameras w es (heap s w) cam) as [En Ef].
    apply Ef. apply H. rewrite <- En. apply list_elem_of_In, Hc.
Qed.

(** ** Activation *)

(** X13.  [activate_world] with [dontDestroyOld] attaches the new world
    (preloaded, neither done nor destroyed) and leaves every other world as
    it is: nothing is unloaded, the previously attached groups stay in the
    scene. *)
Theorem activate_world_keeps_old_attached (s : State) (new : wid) (onFinished : option Callback) :
  webglMainScene (data s) = Some MainScene ->
  preloaded (heap s new) = true ->
  everythingDone (heap s new) = false -> destroyed (heap s new) = false ->
  let s' := exec (activate_world new onFinished true) s in
  trace s' = trace s ++ [SceneAdd new; LidarGo new; AnnotationGo new]
                     ++ on_finished_obs onFinished new /\
  children s' = filter (fun k => k <> new) (children s) ++ [new] /\
  everythingDone (heap s' new) = true /\
  forall k, k <> new -> heap s' k = heap s k.
Proof.
  intros Hsc Hp Hd Hx. unfold exec, activate_world, activate. js_run.
  rewrite Hsc. js_run. unfold preloaded in *. js_run. rewrite Hp. js_run.
  unfold go. js_run. rewrite Hd. js_run. unfold preloaded. js_run. rewrite Hp. js_run.
  unfold call_destroy_old_world. js_run.
  destruct (world (data s)); js_run; rewrite ?Hx; js_run;
    unfold scene_add; js_run;
    destruct onFinished; unfold invoke, on_finished_obs; js_run;
    rewrite <- ?app_assoc; simpl; repeat split; auto; intros k Hk; js_run; reflexivity.
Qed.

(** X14.  [activate_world] on a world that is already shown only records
    it as the current world and calls [onFinished]: [go()] returns before
    [destroy_old_world], so nothing is attached or detached, and the
    previously active world stays attached even without [dontDestroyOld]. *)
Theorem activate_world_shown_only_notifies (s : State) (w : wid) (onFinished : option Callback)
    (dontDestroyOld : bool) :
  preloaded (heap s w) = true -> everythingDone (heap s w) = true ->
  let s' := exec (activate_world w onFinished dontDestroyOld) s in
  world (data s') = Some w /\
  trace s' = trace s ++ on_finished_obs onFinished w /\
  children s' = children s /\
  forall k, everythingDone (heap s' k) = everythingDone (heap s k).
Proof.
  intros Hp Hd. unfold exec, activate_world, activate. js_run.
  unfold preloaded in *. js_run. rewrite Hp. js_run.
  unfold go. js_run. rewrite Hd. js_run.
  destruct onFinished; unfold invoke, on_finished_obs; js_run;
    (split; [reflexivity |]; split; [rewrite ?app_nil_r; reflexivity |]; split; [reflexivity |]);
    intros k; destruct (decide (k = w)) as [->|Hne]; js_run; auto.
Qed.

(** ** The pose loader *)

Section NoGoFinished.
Variable (w0 : wid).

Let P (s : State) : Prop := forall c, OnGoFinished c w0 ∉ trace s.

Lemma ng_emit e :
  match e with OnGoFinished _ _ => False | _ => True end -> hoare P P (emit e).
Proof.
  intros He s H c. simpl. rewrite elem_of_app, list_elem_of_singleton.
  intros [Hc|Hc]; [exact (H c Hc) | subst e; exact He].
Qed.

Ltac ng_prim :=
  first [ apply ng_emit; exact I
        | apply hoare_invoke; intros ?; apply ng_emit; exact I
        | lazymatch goal with
          | |- hoare _ _ (write _ _) => idtac
          | |- hoare _ _ (modifyChildren _) => idtac
          | |- hoare _ _ (writeData _) => idtac
          | |- hoare _ _ (freshId _) => idtac
          end; let H := fresh in intros ? H; exact H ].

Lemma ng_preload_cb w : hoare P P (preload_cb w).
Proof.
  unfold preload_cb, on_subitem_preload_finished, calcTransformMatrix, getRefEgoPose, go,
    call_destroy_old_world, unload, scene_add, scene_remove.
  hoare_go ng_prim.
Qed.

Lemma ng_onreadystatechange w r : hoare P P (EgoPose_onreadystatechange w r).
Proof.
  unfold EgoPose_onreadystatechange, EgoPose_go. simpl invoke.
  hoare_go ltac:(first [ng_prim | apply ng_preload_cb]).
Qed.

End NoGoFinished.

(** X16.  A callback given to [EgoPose.go] before the pose has settled is
    stored and never called when the pose arrives by request: the
    [onreadystatechange] handler passes [this.on_go_finished] of the request
    object, which is [undefined], instead of the stored one. *)
Theorem EgoPose_deferred_go_is_dropped (s : State) (w : wid) (cb : Callback)
    (response : option Pose) :
  ep_preloaded (egoPose (heap s w)) = false ->
  (forall c, OnGoFinished c w ∉ trace s) ->
  let s1 := exec (EgoPose_go w (Some cb)) s in
  let s2 := exec (EgoPose_onreadystatechange w response) s1 in
  trace s1 = trace s /\
  go_cmd_received (egoPose (heap s1 w)) = true /\
  on_go_finished (egoPose (heap s1 w)) = Some cb /\
  ep_preloaded (egoPose (heap s2 w)) = true /\
  forall c, OnGoFinished c w ∉ trace s2.
Proof.
  intros Hp Hn s1 s2.
  assert (E1 : trace s1 = trace s /\ go_cmd_received (egoPose (heap s1 w)) = true /\
               on_go_finished (egoPose (heap s1 w)) = Some cb).
  { subst s1. unfold exec, EgoPose_go. js_run. rewrite Hp. js_run. auto. }
  destruct E1 as (E1 & E2 & E3). split; [exact E1 |]. split; [exact E2 |]. split; [exact E3 |].
  split.
  - pose proof (fl_run w [EgoPoseLoaded w response] s1) as H. simpl in H. unfold flags in H.
    injection H as _ _ H. fold s2 in H. rewrite H.
    destruct (decide (w = w)); [| contradiction]. destruct response; reflexivity.
  - apply (ng_onreadystatechange w w response s1). intros c. rewrite E1. apply Hn.
Qed.

(** ** Positions *)

Local Open Scope Qc_scope.

Lemma apply_offset W v : Vector3_applyMatrix4 v (offsetMatrix W) = shifted (coordinatesOffset W) v.
Proof.
  unfold offsetMatrix, shifted. destruct (coordinatesOffset W) as [[ox oy] oz]. destruct v.
  unfold Vector3_applyMatrix4, setPosition, identity. cbn. f_equal; field; exact Q_apart_0_1.
Qed.

Lemma apply_identity3 v : Vector3_applyMatrix4 v identity = v.
Proof.
  destruct v. unfold Vector3_applyMatrix4, identity. cbn. f_equal; field; exact Q_apart_0_1.
Qed.

Lemma calc_keeps s w :
  let s' := exec (calcTransformMatrix w) s in
  frameInfo (heap s' w) = frameInfo (heap s w) /\
  coordinatesOffset (heap s' w) = coordinatesOffset (heap s w) /\
  egoPose (heap s' w) = egoPose (heap s w) /\
  cfg (data s') = cfg (data s) /\
  (calc_raises (data s) (heap s w) = false ->
   trans_lidar_scene (heap s' w) = Some (webglGroup_matrix (heap s' w))).
Proof.
  unfold exec, calcTransformMatrix, getRefEgoPose, calc_raises. js_run.
  destruct (coordinatesOffset (heap s w)) as [[ox oy] oz] eqn:E.
  destruct (ep_egoPose (egoPose (heap s w))); js_run;
    [ destruct (refEgoPose (data s) !! _); js_run;
      [| rewrite bool_decide_eq_true_2 by reflexivity; cbn [andb];
         destruct (inherited _); js_run ] |];
    repeat split; try exact E; try discriminate.
Qed.

(** X17.  After [calcTransformMatrix] has returned: with a coordinate system
    other than 'utm' the scene position of a lidar point is the point moved
    by the world's [coordinatesOffset], the pose being ignored; and for a
    world without a pose the utm position of a point is the point itself and
    its scene position the point moved by the offset, in every coordinate
    system. *)
Theorem scene_position_is_point_plus_offset (s : State) (w : wid) (pos : Vector3) :
  fst (calcTransformMatrix w s) = Normal tt ->
  let W := heap (exec (calcTransformMatrix w) s) w in
  (coordinateSystem (cfg (data s)) <> "utm" ->
   lidarPosToScene W pos = Some (shifted (coordinatesOffset W) pos)) /\
  (ep_egoPose (egoPose (heap s w)) = None ->
   lidarPosToUtm W pos = Some pos /\
   lidarPosToScene W pos = Some (shifted (coordinatesOffset W) pos)).
Proof.
  intros Hn W. rewrite calc_completion in Hn.
  destruct (calc_raises (data s) (heap s w)) eqn:Hc; [discriminate |].
  unfold lidarPosToScene, lidarPosToUtm.
  assert (Ev : mkVector3 (v3x pos) (v3y pos) (v3z pos) = pos) by (destruct pos; reflexivity).
  rewrite Ev. unfold W at 2 5. destruct (calc_keeps s w) as (_ & -> & _). subst W.
  destruct (ep_egoPose (egoPose (heap s w))) as [p|] eqn:Hp.
  - destruct (calc_with_pose s w p Hp Hc) as (_ & Hlu & Hls & _). rewrite Hlu, Hls. cbn.
    split; [| discriminate]. intros Hcs.
    destruct (decide _); [contradiction |]. cbn. f_equal. apply apply_offset.
  - destruct (calc_without_pose s w Hp) as (_ & Hlu & Hls & _). rewrite Hlu, Hls. cbn.
    rewrite apply_identity3, apply_offset. repeat split.
Qed.

Local Close Scope Qc_scope.

(** X18.  Running [calcTransformMatrix] again (as every later check of a
    preloaded world does) leaves the four transforms, the matrix of the
    group and the reference poses as the first run set them. *)
Theorem calcTransformMatrix_twice (s : State) (w : wid) :
  let s1 := exec (calcTransformMatrix w) s in
  let s2 := exec (calcTransformMatrix w) s1 in
  trans_lidar_utm (heap s2 w) = trans_lidar_utm (heap s1 w) /\
  trans_lidar_scene (heap s2 w) = trans_lidar_scene (heap s1 w) /\
  trans_utm_lidar (heap s2 w) = trans_utm_lidar (heap s1 w) /\
  trans_scene_lidar (heap s2 w) = trans_scene_lidar (heap s1 w) /\
  webglGroup_matrix (heap s2 w) = webglGroup_matrix (heap s1 w) /\
  refEgoPose (data s2) = refEgoPose (data s1).
Proof.
  intros s1 s2.
  destruct (calc_raises (data s) (heap s w)) eqn:Hc.
  { pose proof (calc_raises_stable w w s) as Hc1. cbv zeta in Hc1. fold s1 in Hc1.
    rewrite Hc in Hc1. subst s2. unfold exec. rewrite (calc_raising s1 w Hc1). repeat split. }
  assert (Hc1 : calc_raises (data s1) (heap s1 w) = false).
  { rewrite <- Hc. apply calc_raises_stable. }
  destruct (calc_keeps s w) as (Kf & Ko & Ke & Kc & Kg). fold s1 in Kf, Ko, Ke, Kc, Kg.
  destruct (calc_keeps s1 w) as (_ & _ & _ & _ & Kg2). fold s2 in Kg2.
  specialize (Kg Hc). specialize (Kg2 Hc1).
  assert (Hg : trans_lidar_scene (heap s2 w) = trans_lidar_scene (heap s1 w) ->
               webglGroup_matrix (heap s2 w) = webglGroup_matrix (heap s1 w)).
  { rewrite Kg, Kg2. congruence. }
  destruct (ep_egoPose (egoPose (heap s w))) as [p|] eqn:Hp.
  - assert (Hp1 : ep_egoPose (egoPose (heap s1 w)) = Some p) by (rewrite Ke; exact Hp).
    destruct (calc_with_pose s w p Hp Hc) as (Hr & H1 & H2 & H3 & H4).
    destruct (calc_with_pose s1 w p Hp1 Hc1) as (Hr' & H1' & H2' & H3' & H4').
    fold s1 in Hr, H1, H2, H3, H4. fold s2 in Hr', H1', H2', H3', H4'.
    unfold offsetMatrix in *. rewrite Kf, Ko, Kc, Hr, lookup_insert_eq in *. cbn [default] in *.
    rewrite insert_insert_eq in Hr'. unfold id in *.
    split; [congruence |]. split; [congruence |]. split; [congruence |]. split; [congruence |].
    split; [apply Hg; congruence | congruence].
  - assert (Hp1 : ep_egoPose (egoPose (heap s1 w)) = None) by (rewrite Ke; exact Hp).
    destruct (calc_without_pose s w Hp) as (Hr & H1 & H2 & H3 & H4).
    destruct (calc_without_pose s1 w Hp1) as (Hr' & H1' & H2' & H3' & H4').
    fold s1 in Hr, H1, H2, H3, H4. fold s2 in Hr', H1', H2', H3', H4'.
    unfold offsetMatrix in *. rewrite Ko in *.
    split; [congruence |]. split; [congruence |]. split; [congruence |]. split; [congruence |].
    split; [apply Hg; congruence | congruence].
Qed.

(** ** Creating worlds *)

(** What [allocateOffset] leaves alone. *)
Lemma allocateOffset_frame s :
  let s' := exec allocateOffset s in
  heap s' = heap s /\ worldList (data s') = worldList (data s) /\
  createWorldIndex (data s') = createWorldIndex (data s) /\
  refEgoPose (data s') = refEgoPose (data s) /\
  cfg (data s') = cfg (data s) /\ MaxWorldNumber (data s') = MaxWorldNumber (data s) /\
  world (data s') = world (data s) /\
  children s' = children s /\ trace s' = trace s /\ (nextId s <= nextId s')%nat.
Proof.
  unfold exec, allocateOffset. js_run.
  destruct (decide (offsetsAliveCount (data s) = 0)) as [E|E]; js_run.
  - destruct (decide (length [_] = 0%nat)) as [E'|_]; [discriminate |]. js_run.
    repeat split; lia.
  - destruct (decide (length (offsetList (data s)) = 0%nat)) as [L|L]; js_run.
    + destruct (lastSeedOffset (data s)) as [[x y] z].
      destruct (decide (x = y)); js_run; repeat split; lia.
    + repeat split; lia.
Qed.

Lemma createWorld_with_run meta m sceneName frameId cb o s0 :
  meta !! sceneName = Some m ->
  let r := createWorld_with meta sceneName frameId cb o s0 in
  let w := nextId s0 in
  fst r = Normal w /\
  heap (snd r) w = World_created m sceneName frameId (cell o) cb (mkOffsetArray (S w) (cell o)) /\
  (forall j, j <> w -> heap (snd r) j = heap s0 j) /\
  data (snd r) = set_worldList (worldList (data s0) ++ [w])
                   (set_createWorldIndex (createWorldIndex (data s0) + 1) (data s0)) /\
  children (snd r) = children s0 /\ trace (snd r) = trace s0 /\
  nextId (snd r) = (nextId s0 + 2)%nat.
Proof.
  intros Hm. cbv zeta. unfold createWorld_with, World_new, World_preload, Lidar_preload,
    Annotation_preload, Images_load, EgoPose_preload. rewrite Hm.
  unfold World_created. destruct (cell o) as [[x y] z]. js_run.
  destruct (pose (FrameInfo_new m sceneName frameId)) as [p|] eqn:Hp; js_run; rewrite ?Hp; js_run.
  - unfold preload_cb, on_subitem_preload_finished, preloaded, Images_new. js_run.
    cbn [andb]. js_run.
    split; [reflexivity |]. split; [rewrite Nat.add_1_r; reflexivity |].
    split; [intros j Hj; js_run; reflexivity |].
    split; [reflexivity |]. split; [reflexivity |]. split; [reflexivity |]. lia.
  - unfold Images_new. js_run.
    split; [reflexivity |]. split; [rewrite Nat.add_1_r; reflexivity |].
    split; [intros j Hj; js_run; reflexivity |].
    split; [reflexivity |]. split; [reflexivity |]. split; [reflexivity |]. lia.
Qed.

Lemma createWorld_unfold meta sceneName frameId cb s :
  _createWorld meta sceneName frameId cb s =
  match allocateOffset s with
  | (Normal (Some o), s0) => createWorld_with meta sceneName frameId cb o s0
  | (Normal None, s0) => (Thrown TypeError, s0)
  | (Thrown e, s0) => (Thrown e, s0)
  end.
Proof.
  unfold _createWorld, createWorld_with. unfold bind at 1.
  destruct (allocateOffset s) as [[[o|]|e] s0]; reflexivity.
Qed.

Lemma createWorld_effect meta m sceneName frameId cb s :
  meta !! sceneName = Some m ->
  let s' := exec (_createWorld meta sceneName frameId cb) s in
  exists o w,
    fst (allocateOffset s) = Normal (Some o) /\
    fst (_createWorld meta sceneName frameId cb s) = Normal w /\
    (nextId s <= w < nextId s')%nat /\
    worldList (data s') = worldList (data s) ++ [w] /\
    createWorldIndex (data s') = createWorldIndex (data s) + 1 /\
    heap s' w = World_created m sceneName frameId (cell o) cb (mkOffsetArray (S w) (cell o)) /\
    (forall j, j <> w -> heap s' j = heap s j) /\
    children s' = children s /\ trace s' = trace s.
Proof.
  intros Hm s'. destruct (allocateOffset_Some s) as [o Ho].
  destruct (allocateOffset_frame s) as (F1 & F2 & F3 & _ & _ & _ & _ & F4 & F5 & F6).
  subst s'. unfold exec in *. rewrite createWorld_unfold.
  destruct (allocateOffset s) as [c s0]. simpl in *. subst c.
  destruct (createWorld_with_run meta m sceneName frameId cb o s0 Hm)
    as (R1 & R2 & R3 & R4 & R5 & R6 & R7).
  exists o, (nextId s0). split; [reflexivity |]. split; [exact R1 |].
  split; [rewrite R7; lia |]. rewrite R4. js_run. rewrite F2, F3.
  split; [reflexivity |]. split; [reflexivity |]. split; [exact R2 |].
  split; [intros j Hj; rewrite R3 by exact Hj; rewrite F1; reflexivity |].
  split; congruence.
Qed.

(** X20.  [_createWorld] for a scene without metadata raises a [TypeError]
    in the constructor, after the offset has been allocated: the state is
    the one [allocateOffset] leaves, the offset is not returned and no world
    is registered. *)
Theorem createWorld_without_metadata meta sceneName frameId cb s :
  meta !! sceneName = None ->
  _createWorld meta sceneName frameId cb s = (Thrown TypeError, exec allocateOffset s).
Proof.
  intros Hm. rewrite createWorld_unfold. destruct (allocateOffset_Some s) as [o Ho].
  unfold exec. destruct (allocateOffset s) as [c s0]. simpl in *. subst c.
  unfold createWorld_with, World_new. rewrite Hm. destruct (cell o) as [[x y] z]. reflexivity.
Qed.

(** ** Looking worlds up *)

Lemma findFrame_Some s sc f w :
  findFrame s sc f = Some w ->
  w ∈ worldList (data s) /\ fi_scene (frameInfo (heap s w)) = sc /\
  frame (frameInfo (heap s w)) = f.
Proof.
  unfold findFrame. intros H. apply find_some in H as [H1 H2].
  apply andb_true_iff in H2 as [H2 H3]. apply bool_decide_eq_true in H2, H3.
  split; [apply list_elem_of_In, H1 | auto].
Qed.

Lemma findFrame_None s sc f : findFrame s sc f = None -> ~ has_entry s sc f.
Proof.
  unfold findFrame. intros H (w & H1 & H2 & H3).
  pose proof (find_none _ _ H w (proj1 (list_elem_of_In _ _) H1)) as Hn. cbv beta in Hn.
  rewrite H2, H3, !bool_decide_eq_true_2 in Hn by reflexivity. discriminate.
Qed.

Lemma findFrame_is_Some s sc f : is_Some (findFrame s sc f) <-> has_entry s sc f.
Proof.
  split.
  - intros [w H]. exists w. apply findFrame_Some, H.
  - intros H. destruct (findFrame s sc f) eqn:E; [eexists; reflexivity |].
    apply findFrame_None in E. contradiction.
Qed.

Lemma findFrame_ext s s' sc f :
  worldList (data s') = worldList (data s) ->
  (forall w, w ∈ worldList (data s) -> frameInfo (heap s' w) = frameInfo (heap s w)) ->
  findFrame s' sc f = findFrame s sc f.
Proof.
  intros Hl Hh. unfold findFrame. rewrite Hl.
  induction (worldList (data s)) as [|x l IH] in Hh |- *; simpl; [reflexivity |].
  rewrite Hh by (apply elem_of_cons; left; reflexivity).
  destruct (_ && _); [reflexivity |]. apply IH. intros w Hw. apply Hh, elem_of_cons. right. exact Hw.
Qed.

Lemma created_frameInfo m sc f c cb off :
  frameInfo (World_created m sc f c cb off) = FrameInfo_new m sc f.
Proof. unfold World_created. destruct c as [[x y] z]. reflexivity. Qed.

(** What [_createWorld] does to the registry. *)
Lemma createWorld_entry meta m sc f cb s :
  meta !! sc = Some m -> registered s ->
  let r := _createWorld meta sc f cb s in
  exists w, fst r = Normal w /\ (w ∉ worldList (data s)) /\
    worldList (data (snd r)) = worldList (data s) ++ [w] /\
    fi_scene (frameInfo (heap (snd r) w)) = sc /\ frame (frameInfo (heap (snd r) w)) = f /\
    (forall j, j ∈ worldList (data s) -> heap (snd r) j = heap s j) /\
    registered (snd r).
Proof.
  intros Hm Hr r.
  destruct (createWorld_effect meta m sc f cb s Hm)
    as (o & w & _ & H1 & H2 & H3 & _ & H4 & H5 & _).
  fold r in H1. unfold exec in *. fold r in H2, H3, H4, H5.
  assert (Hw : w ∉ worldList (data s)) by (intros Hin; apply Hr in Hin; lia).
  exists w. split; [exact H1 |]. split; [exact Hw |]. split; [exact H3 |].
  rewrite H4, created_frameInfo. split; [reflexivity |]. split; [reflexivity |].
  split.
  - intros j Hj. apply H5. intros ->. contradiction.
  - intros j Hj. rewrite H3 in Hj. apply elem_of_app in Hj as [Hj|Hj].
    + apply Hr in Hj. lia.
    + apply list_elem_of_singleton in Hj. subst j. lia.
Qed.

Lemma find_app_or {A} (p : A -> bool) (l1 l2 : list A) :
  List.find p (l1 ++ l2) = match List.find p l1 with Some x => Some x | None => List.find p l2 end.
Proof. induction l1 as [|a l1 IH]; simpl; [reflexivity |]. destruct (p a); auto. Qed.

Lemma find_ext_on {A} (p q : A -> bool) (l : list A) :
  (forall x, x ∈ l -> p x = q x) -> List.find p l = List.find q l.
Proof.
  induction l as [|a l IH]; intros H; simpl; [reflexivity |].
  rewrite H by (apply elem_of_cons; left; reflexivity). destruct (q a); [reflexivity |].
  apply IH. intros x Hx. apply H, elem_of_cons. right. exact Hx.
Qed.

Lemma createWorld_has_entry meta m sc f cb s :
  meta !! sc = Some m -> registered s ->
  let s' := snd (_createWorld meta sc f cb s) in
  has_entry s' sc f /\
  (forall sc' f', has_entry s sc' f' -> has_entry s' sc' f') /\
  (forall sc' f', has_entry s' sc' f' -> has_entry s sc' f' \/ (sc' = sc /\ f' = f)).
Proof.
  intros Hm Hr s'. destruct (createWorld_entry meta m sc f cb s Hm Hr)
    as (w & _ & Hw & Hl & Hs & Hf & Hh & _). fold s' in Hl, Hs, Hf, Hh.
  split; [| split].
  - exists w. rewrite Hl. split; [apply elem_of_app; right; apply list_elem_of_singleton; reflexivity |].
    auto.
  - intros sc' f' (j & Hj & H1 & H2). exists j. rewrite Hl, Hh by exact Hj.
    split; [apply elem_of_app; left; exact Hj | auto].
  - intros sc' f' (j & Hj & H1 & H2). rewrite Hl in Hj. apply elem_of_app in Hj as [Hj|Hj].
    + left. exists j. rewrite <- Hh by exact Hj. auto.
    + apply list_elem_of_singleton in Hj. subst j. right. split; congruence.
Qed.

Lemma has_meta_Some meta sceneName m : meta !! sceneName = Some m -> has_meta meta sceneName = true.
Proof.
  intros Hm. unfold has_meta. rewrite Hm.
  rewrite bool_decide_eq_true_2 by (eexists; reflexivity). reflexivity.
Qed.

Lemma getWorld_run meta m fetched sceneName frameId cb s :
  meta !! sceneName = Some m ->
  getWorld meta fetched sceneName frameId cb s =
  match findFrame s sceneName frameId with
  | Some e => (Normal (meta, Some e), s)
  | None =>
      match _createWorld meta sceneName frameId cb s with
      | (Normal w, s1) => (Normal (meta, Some w), s1)
      | (Thrown e, s1) => (Thrown e, s1)
      end
  end.
Proof.
  intros Hm. unfold getWorld. rewrite (has_meta_Some _ _ _ Hm). cbn [negb]. js_run.
  rewrite (has_meta_Some _ _ _ Hm). cbn [negb]. js_run.
  destruct (findFrame s sceneName frameId); js_run; [reflexivity |].
  unfold bind. destruct (_createWorld meta sceneName frameId cb s) as [[w|e] s1]; reflexivity.
Qed.

(** With metadata, [getWorld] returns an entry for the scene and frame, and
    returns it again, changing nothing, when asked again. *)
Lemma getWorld_again meta m fetched fetched' sceneName frameId cb cb' s :
  meta !! sceneName = Some m -> registered s ->
  let r := getWorld meta fetched sceneName frameId cb s in
  exists w, fst r = Normal (meta, Some w) /\
    w ∈ worldList (data (snd r)) /\
    fi_scene (frameInfo (heap (snd r) w)) = sceneName /\
    frame (frameInfo (heap (snd r) w)) = frameId /\
    getWorld meta fetched' sceneName frameId cb' (snd r) = (Normal (meta, Some w), snd r).
Proof.
  intros Hm Hr r. subst r. rewrite (getWorld_run meta m) by exact Hm.
  destruct (findFrame s sceneName frameId) as [e|] eqn:Hf.
  - exists e. split; [reflexivity |]. simpl.
    destruct (findFrame_Some _ _ _ _ Hf) as (H1 & H2 & H3).
    do 3 (split; [assumption |]). rewrite (getWorld_run meta m), Hf by exact Hm. reflexivity.
  - destruct (createWorld_entry meta m sceneName frameId cb s Hm Hr)
      as (w & H1 & Hw & Hl & Hs & Hfr & Hh & _).
    destruct (_createWorld meta sceneName frameId cb s) as [c s1]. simpl in *. subst c. simpl.
    exists w. split; [reflexivity |].
    assert (Hfind : findFrame s1 sceneName frameId = Some w).
    { unfold findFrame in *. rewrite Hl, find_app_or.
      erewrite find_ext_on; [rewrite Hf |].
      - simpl. rewrite Hs, Hfr, !bool_decide_eq_true_2 by reflexivity. reflexivity.
      - intros j Hj. cbv beta. rewrite Hh by exact Hj. reflexivity. }
    split; [rewrite Hl; apply elem_of_app; right; apply list_elem_of_singleton; reflexivity |].
    do 2 (split; [assumption |]).
    rewrite (getWorld_run meta m), Hfind by exact Hm. reflexivity.
Qed.

(** X22.  For a scene not named like an inherited property, [getWorld]
    either rejects, which happens only when the scene has no metadata and
    the request of [readSceneMetaData] fails, nothing having changed; or it
    returns an entry of [worldList] for the scene and frame, with the
    metadata of the scene stored.  It never returns [null]:
    [readSceneMetaData] stores the metadata or throws.  Asked again for the
    same scene and frame it returns the same entry and changes nothing,
    whatever its request would give. *)
Theorem getWorld_twice meta fetched fetched' sceneName frameId cb cb' s :
  inherited sceneName = false -> registered s ->
  let r := getWorld meta fetched sceneName frameId cb s in
  match fst r with
  | Normal (meta1, x) =>
      is_Some (meta1 !! sceneName) /\
      (exists w, x = Some w /\ w ∈ worldList (data (snd r)) /\
                 fi_scene (frameInfo (heap (snd r) w)) = sceneName /\
                 frame (frameInfo (heap (snd r) w)) = frameId) /\
      getWorld meta1 fetched' sceneName frameId cb' (snd r) = (Normal (meta1, x), snd r)
  | Thrown e => meta !! sceneName = None /\ fetched = Thrown e /\ snd r = s
  end.
Proof.
  intros Hi Hr r. subst r.
  destruct (meta !! sceneName) as [m|] eqn:Hm.
  - destruct (getWorld_again meta m fetched fetched' sceneName frameId cb cb' s Hm Hr)
      as (w & H1 & H2 & H3 & H4 & H5).
    rewrite H1. split; [rewrite Hm; eexists; reflexivity |].
    split; [exists w; auto | exact H5].
  - destruct fetched as [m1|e].
    + assert (Hm1 : <[sceneName := m1]> meta !! sceneName = Some m1) by apply lookup_insert_eq.
      assert (E : getWorld meta (Normal m1) sceneName frameId cb s
                  = getWorld (<[sceneName := m1]> meta) fetched' sceneName frameId cb s).
      { rewrite (getWorld_run (<[sceneName := m1]> meta) m1) by exact Hm1.
        unfold getWorld. unfold has_meta at 1. rewrite Hm, Hi.
        rewrite bool_decide_eq_false_2 by (intros [? ?]; discriminate).
        cbn [orb negb readSceneMetaData]. js_run.
        rewrite (has_meta_Some _ _ _ Hm1). cbn [negb]. js_run.
        destruct (findFrame s sceneName frameId); js_run; [reflexivity |].
        unfold bind. destruct (_createWorld _ sceneName frameId cb s) as [[w|e] s1]; reflexivity. }
      rewrite E.
      destruct (getWorld_again _ m1 fetched' fetched' sceneName frameId cb cb' s Hm1 Hr)
        as (w & H1 & H2 & H3 & H4 & H5).
      rewrite H1. split; [rewrite Hm1; eexists; reflexivity |].
      split; [exists w; auto | exact H5].
    + unfold getWorld, has_meta. rewrite Hm, Hi.
      rewrite bool_decide_eq_false_2 by (intros [? ?]; discriminate).
      cbn [orb negb readSceneMetaData]. js_run. auto.
Qed.

(** ** More on activation and lookup *)

(** X15.  While [webglMainScene] is not set, [activate_world] of a
    preloaded world (with [dontDestroyOld]) raises a [TypeError] at
    [this.scene.add]: the world is then the current one and active, but
    neither attached nor done. *)
Theorem activate_world_without_scene_throws (s : State) (new : wid) (onFinished : option Callback) :
  webglMainScene (data s) = None ->
  preloaded (heap s new) = true ->
  everythingDone (heap s new) = false -> destroyed (heap s new) = false ->
  let r := activate_world new onFinished true s in
  fst r = Thrown TypeError /\
  world (data (snd r)) = Some new /\ active (heap (snd r) new) = true /\
  everythingDone (heap (snd r) new) = false /\
  children (snd r) = children s /\ trace (snd r) = trace s.
Proof.
  intros Hsc Hp Hd Hx. cbv zeta. unfold activate_world, activate. js_run.
  rewrite Hsc. js_run. unfold preloaded in *. js_run. rewrite Hp. js_run.
  unfold go. js_run. rewrite Hd. js_run. unfold preloaded. js_run. rewrite Hp. js_run.
  unfold call_destroy_old_world. js_run.
  destruct (world (data s)); js_run; rewrite ?Hx; js_run;
    unfold scene_add; js_run; repeat split; auto.
Qed.

Lemma findWorld_Some s sc i w :
  findWorld s sc i = Some w ->
  w ∈ worldList (data s) /\ fi_scene (frameInfo (heap s w)) = sc /\
  frame_index (frameInfo (heap s w)) = i.
Proof.
  unfold findWorld. intros H. apply find_some in H as [H1 H2].
  apply andb_true_iff in H2 as [H2 H3]. apply bool_decide_eq_true in H2, H3.
  split; [apply list_elem_of_In, H1 | auto].
Qed.

(** X21.  A world made by [_createWorld] can be found by [findWorld] under
    its scene and the index of its frame: [findWorld] returns the entry that
    had this scene and index before, when there was one, and the new world
    otherwise. *)
Theorem createWorld_then_findWorld meta m sceneName frameId cb s :
  meta !! sceneName = Some m -> registered s ->
  let r := _createWorld meta sceneName frameId cb s in
  let i := findIndex (frames m) frameId in
  exists w e, fst r = Normal w /\ findWorld (snd r) sceneName i = Some e /\
    (findWorld s sceneName i = None -> e = w) /\
    (forall e', findWorld s sceneName i = Some e' -> e = e').
Proof.
  intros Hm Hr r i.
  destruct (createWorld_entry meta m sceneName frameId cb s Hm Hr)
    as (w & H1 & Hw & Hl & Hs & Hf & Hh & _).
  destruct (createWorld_effect meta m sceneName frameId cb s Hm)
    as (o & w' & _ & H1' & _ & _ & _ & Hc & _).
  fold r in H1, Hl, Hs, Hf, Hh, H1'. unfold exec in Hc. fold r in Hc.
  assert (w' = w) by congruence. subst w'.
  assert (Hi : frame_index (frameInfo (heap (snd r) w)) = i).
  { rewrite Hc, created_frameInfo. reflexivity. }
  assert (Hfind : findWorld (snd r) sceneName i
                  = match findWorld s sceneName i with Some e => Some e | None => Some w end).
  { unfold findWorld. rewrite Hl, find_app_or.
    rewrite (find_ext_on _ (fun w => bool_decide (fi_scene (frameInfo (heap s w)) = sceneName)
                                     && bool_decide (frame_index (frameInfo (heap s w)) = i))).
    - destruct (List.find _ (worldList (data s))); [reflexivity |].
      simpl. rewrite Hs, Hi, !bool_decide_eq_true_2 by reflexivity. reflexivity.
    - intros j Hj. cbv beta. rewrite Hh by exact Hj. reflexivity. }
  destruct (findWorld s sceneName i) as [e0|] eqn:E.
  - exists w, e0. split; [exact H1 |]. split; [exact Hfind |]. split; [discriminate | congruence].
  - exists w, w. split; [exact H1 |]. split; [exact Hfind |]. split; [reflexivity | discriminate].
Qed.

(** ** Preloading a scene *)

Section SameFrames.
Variable (s0 : State).

Lemma sf_write w f :
  (forall W, frameInfo (f W) = frameInfo W) ->
  hoare (same_frames s0) (same_frames s0) (write w f).
Proof.
  intros Hf s [H1 H2]. split; [exact H1 |]. intros k. simpl.
  destruct (decide (k = w)) as [->|Hne];
    [rewrite upd_same, Hf; apply H2 | rewrite upd_other by exact Hne; apply H2].
Qed.

Ltac sf_prim :=
  first [ apply sf_write; intros []; reflexivity
        | apply hoare_invoke; intros ?; let H := fresh in intros ? H; exact H
        | lazymatch goal with
          | |- hoare _ _ (emit _) => idtac
          | |- hoare _ _ (writeData _) => idtac
          | |- hoare _ _ (modifyChildren _) => idtac
          end; let H := fresh in intros ? H; exact H ].

Lemma sf_deleteAll w : hoare (same_frames s0) (same_frames s0) (deleteAll w).
Proof. unfold deleteAll, unload, scene_remove. hoare_go sf_prim. Qed.

Lemma sf_deleteOtherWorldsExcept k :
  hoare (same_frames s0) (same_frames s0) (deleteOtherWorldsExcept k).
Proof.
  unfold deleteOtherWorldsExcept, returnOffset, removeRefEgoPoseOfScene.
  hoare_go ltac:(first [sf_prim | apply sf_deleteAll]).
Qed.

Lemma sf_deleteDistantWorlds w :
  hoare (same_frames s0) (same_frames s0) (deleteDistantWorlds w).
Proof.
  unfold deleteDistantWorlds, returnOffset.
  hoare_go ltac:(first [sf_prim | apply sf_deleteAll]).
Qed.

End SameFrames.

Lemma create_all meta m sc l s :
  meta !! sc = Some m -> registered s ->
  let r := forEach l (create_frame meta sc) s in
  fst r = Normal tt /\ registered (snd r) /\
  (forall f, f ∈ l -> has_entry (snd r) sc f) /\
  (forall sc' f', has_entry s sc' f' -> has_entry (snd r) sc' f') /\
  (forall sc' f', has_entry (snd r) sc' f' -> has_entry s sc' f' \/ (sc' = sc /\ f' ∈ l)) /\
  (forall j, j ∈ worldList (data s) -> j ∈ worldList (data (snd r)) /\ heap (snd r) j = heap s j) /\
  length (worldList (data (snd r))) = (length (worldList (data s)) + length l)%nat.
Proof.
  intros Hm. revert s. induction l as [|f l IH]; intros s Hr; simpl.
  - split; [reflexivity |]. split; [exact Hr |]. split; [intros f Hf; apply elem_of_nil in Hf; destruct Hf |].
    split; [auto |]. split; [auto |]. split; [auto |]. lia.
  - destruct (createWorld_entry meta m sc f None s Hm Hr) as (w & H1 & Hw & Hl & Hs & Hf & Hh & Hr1).
    destruct (createWorld_has_entry meta m sc f None s Hm Hr) as (E1 & E2 & E3).
    assert (Hc : exists s1, create_frame meta sc f s = (Normal tt, s1) /\
                            s1 = snd (_createWorld meta sc f None s)).
    { unfold create_frame, bind. destruct (_createWorld meta sc f None s) as [c s1].
      simpl in *. subst c. eexists; split; reflexivity. }
    destruct Hc as (s1 & Hc & Es). rewrite <- Es in *. clear Es.
    unfold bind. rewrite Hc. clear Hc.
    destruct (IH s1 Hr1) as (I1 & I2 & I3 & I4 & I5 & I6 & I7).
    split; [exact I1 |]. split; [exact I2 |]. split.
    { intros f' Hf'. apply elem_of_cons in Hf' as [->|Hf']; [apply I4, E1 | apply I3, Hf']. }
    split; [auto |]. split.
    { intros sc' f' H. apply I5 in H as [H|[-> H]].
      - apply E3 in H as [H|[-> ->]]; [left; exact H | right; split; [reflexivity | left]].
      - right. split; [reflexivity | right; exact H]. }
    split.
    { intros j Hj. assert (Hj1 : j ∈ worldList (data s1)) by (rewrite Hl; apply elem_of_app; left; exact Hj).
      destruct (I6 j Hj1) as [? ->]. split; [assumption | apply Hh, Hj]. }
    rewrite I7, Hl, length_app. simpl. lia.
Qed.

Lemma doPreload_run meta m sc a b s :
  meta !! sc = Some m ->
  _doPreload meta sc a b s =
  forEach (List.filter (fun f => negb (bool_decide (is_Some (findFrame s sc f))))
                       (Array_slice (frames m) a b))
          (create_frame meta sc) s.
Proof. intros Hm. unfold _doPreload. rewrite Hm. js_run. reflexivity. Qed.

Lemma doPreload_effect meta m sc a b s :
  meta !! sc = Some m -> registered s ->
  let r := _doPreload meta sc a b s in
  fst r = Normal tt /\
  (forall f, f ∈ Array_slice (frames m) a b -> has_entry (snd r) sc f) /\
  (forall sc' f', has_entry (snd r) sc' f' ->
     has_entry s sc' f' \/ (sc' = sc /\ f' ∈ Array_slice (frames m) a b /\ ~ has_entry s sc f')) /\
  (forall j, j ∈ worldList (data s) -> j ∈ worldList (data (snd r)) /\ heap (snd r) j = heap s j).
Proof.
  intros Hm Hr r. subst r. rewrite (doPreload_run meta m) by exact Hm.
  set (pending := List.filter _ _).
  destruct (create_all meta m sc pending s Hm Hr) as (C1 & _ & C3 & C4 & C5 & C6 & _).
  assert (Hp : forall f, f ∈ pending <-> f ∈ Array_slice (frames m) a b /\ ~ has_entry s sc f).
  { intros f. unfold pending. rewrite !list_elem_of_In, filter_In, negb_true_iff, bool_decide_eq_false,
      findFrame_is_Some. reflexivity. }
  split; [exact C1 |]. split.
  { intros f Hf. destruct (findFrame s sc f) eqn:E.
    - apply C4, findFrame_is_Some. rewrite E. eexists; reflexivity.
    - apply C3, Hp. split; [exact Hf | apply findFrame_None, E]. }
  split; [| exact C6].
  intros sc' f' H. apply C5 in H as [H|[-> H]]; [left; exact H |].
  right. apply Hp in H. tauto.
Qed.

Lemma one_scene_has_entry sc s :
  one_scene sc s <-> forall sc' f', has_entry s sc' f' -> sc' = sc.
Proof.
  split.
  - intros H sc' f' (w & Hw & H1 & _). rewrite <- H1. apply H, Hw.
  - intros H w Hw. apply (H _ (frame (frameInfo (heap s w)))). exists w. auto.
Qed.

Lemma forcePreloadScene_one_scene meta sc cur s :
  registered s -> one_scene sc s ->
  fst (forcePreloadScene meta sc cur s) = Normal tt ->
  one_scene sc (snd (forcePreloadScene meta sc cur s)).
Proof.
  intros Hr H1. unfold forcePreloadScene. js_run.
  destruct (meta !! fi_scene (frameInfo (heap s cur))) as [m'|]; js_run; [| discriminate].
  intros _. destruct (meta !! sc) as [m|] eqn:Hm.
  - match goal with |- context [_doPreload meta sc ?a ?b s] =>
      destruct (doPreload_effect meta m sc a b s Hm Hr) as (_ & _ & C & _)
    end.
    apply one_scene_has_entry. intros sc' f' H. apply C in H as [H|[-> _]]; [| reflexivity].
    revert H. apply one_scene_has_entry. exact H1.
  - unfold _doPreload. rewrite Hm. exact H1.
Qed.

Lemma preloadScene_run meta sc cur s :
  preloadScene meta sc cur s =
  match deleteOtherWorldsExcept sc s with
  | (Normal _, s1) =>
      match deleteDistantWorlds cur s1 with
      | (Normal _, s2) =>
          if enablePreload (cfg (data s2)) then forcePreloadScene meta sc cur s2
          else (Normal tt, s2)
      | (Thrown e, s2) => (Thrown e, s2)
      end
  | (Thrown e, s1) => (Thrown e, s1)
  end.
Proof.
  unfold preloadScene. unfold bind at 1.
  destruct (deleteOtherWorldsExcept sc s) as [[[]|e] s1]; [| reflexivity].
  unfold bind at 1. destruct (deleteDistantWorlds cur s1) as [[[]|e] s2]; [| reflexivity].
  js_run. destruct (enablePreload (cfg (data s2))); reflexivity.
Qed.

(** X25.  When [preloadScene(sceneName, currentWorld)] returns, every
    entry of [worldList] is a frame of [sceneName]: the entries of other
    scenes are removed and only frames of [sceneName] are created. *)
Theorem preloadScene_keeps_one_scene meta sc cur s :
  registered s ->
  fst (preloadScene meta sc cur s) = Normal tt ->
  one_scene sc (exec (preloadScene meta sc cur) s) /\ registered (exec (preloadScene meta sc cur) s).
Proof.
  intros Hr. unfold exec. rewrite preloadScene_run.
  pose proof (deleteOtherWorldsExcept_effect s sc) as D1.
  pose proof (sf_deleteOtherWorldsExcept s sc s (conj eq_refl (fun _ => eq_refl))) as [N1 F1].
  unfold exec in D1.
  destruct (deleteOtherWorldsExcept sc s) as [[[]|e] s1]; simpl in *; [| discriminate].
  destruct (D1 eq_refl) as (L1 & _). clear D1.
  assert (O1 : one_scene sc s1).
  { intros w Hw. rewrite L1 in Hw. apply list_elem_of_In, filter_In in Hw as [_ Hw].
    apply bool_decide_eq_true in Hw. rewrite F1. exact Hw. }
  assert (R1 : registered s1).
  { intros w Hw. rewrite L1 in Hw. apply list_elem_of_In, filter_In in Hw as [Hw _].
    rewrite N1. apply Hr, list_elem_of_In, Hw. }
  pose proof (deleteDistantWorlds_keeps_worldList s1 cur) as L2.
  pose proof (sf_deleteDistantWorlds s1 cur s1 (conj eq_refl (fun _ => eq_refl))) as [N2 F2].
  unfold exec in L2.
  destruct (deleteDistantWorlds cur s1) as [[[]|e] s2]; simpl in *; [| discriminate].
  assert (O2 : one_scene sc s2).
  { intros w Hw. rewrite L2 in Hw. rewrite F2. apply O1, Hw. }
  assert (R2 : registered s2).
  { intros w Hw. rewrite L2 in Hw. rewrite N2. apply R1, Hw. }
  destruct (enablePreload (cfg (data s2))); [| intros _; split; assumption].
  intros Hn. split; [apply forcePreloadScene_one_scene; assumption |].
  revert Hn. unfold forcePreloadScene. js_run.
  destruct (meta !! fi_scene (frameInfo (heap s2 cur))) as [m'|]; js_run; [| discriminate].
  intros _. destruct (meta !! sc) as [m|] eqn:Hm.
  - rewrite (doPreload_run meta m) by exact Hm.
    match goal with |- context [forEach ?l _ s2] =>
      destruct (create_all meta m sc l s2 Hm R2) as (_ & C & _)
    end. exact C.
  - unfold _doPreload. rewrite Hm. exact R2.
Qed.

(** ** The preload window *)

Lemma Qfloor_max0 q : Qfloor (Qmax 0 q) = Z.max 0 (Qfloor q).
Proof.
  destruct (Qlt_le_dec q 0) as [H|H].
  - rewrite (Qfloor_comp _ 0) by (apply Q.max_l, Qlt_le_weak, H).
    pose proof (Qfloor_resp_le q 0 (Qlt_le_weak _ _ H)) as Hf. change (Qfloor 0) with 0 in *. lia.
  - rewrite (Qfloor_comp _ q) by (apply Q.max_r, H).
    pose proof (Qfloor_resp_le 0 q H) as Hf. change (Qfloor 0) with 0 in *. lia.
Qed.

Lemma Qfloor_min a b : Qfloor (Qmin a b) = Z.min (Qfloor a) (Qfloor b).
Proof.
  destruct (Qlt_le_dec b a) as [H|H].
  - rewrite (Qfloor_comp _ b) by (apply Q.min_r, Qlt_le_weak, H).
    pose proof (Qfloor_resp_le b a (Qlt_le_weak _ _ H)). lia.
  - rewrite (Qfloor_comp _ a) by (apply Q.min_l, H).
    pose proof (Qfloor_resp_le a b H). lia.
Qed.

Lemma Qfloor_add_Z q z : Qfloor (q + inject_Z z) = Qfloor q + z.
Proof.
  destruct q as [n d]. unfold Qplus, inject_Z, Qfloor. cbn [Qnum Qden].
  rewrite Pos.mul_1_r, Z.mul_1_r. apply Z.div_add. lia.
Qed.

Lemma Qfloor_half i M : Qfloor (inject_Z i - (M # 2)) = (2 * i - M) / 2.
Proof.
  unfold Qminus, Qplus, Qopp, inject_Z, Qfloor. cbn [Qnum Qden]. f_equal. lia.
Qed.

Lemma ToInteger_nonneg q : (0 <= q)%Q -> ToInteger q = Qfloor q.
Proof. intros H. unfold ToInteger. apply Qle_bool_iff in H. rewrite H. reflexivity. Qed.

Lemma Array_slice_elem {A} (l : list A) qa qb a b (f : A) :
  ToInteger qa = a -> ToInteger qb = b -> 0 <= a -> 0 <= b ->
  f ∈ Array_slice l qa qb <-> exists j, a <= j < b /\ l !! Z.to_nat j = Some f.
Proof.
  intros <- <- Ha Hb. unfold Array_slice. cbv zeta.
  destruct (Z.ltb_spec (ToInteger qa) 0) as [?|_]; [lia |].
  destruct (Z.ltb_spec (ToInteger qb) 0) as [?|_]; [lia |].
  set (a := ToInteger qa) in *. set (b := ToInteger qb) in *.
  set (len := Z.of_nat (length l)).
  rewrite list_elem_of_lookup. split.
  - intros [i Hi]. apply lookup_take_Some in Hi as [Hi Hlt]. rewrite lookup_drop in Hi.
    pose proof (lookup_lt_Some _ _ _ Hi) as Hlen.
    exists (Z.min a len + Z.of_nat i). split; [lia |].
    replace (Z.to_nat (Z.min a len + Z.of_nat i)) with (Z.to_nat (Z.min a len) + i)%nat by lia.
    exact Hi.
  - intros (j & Hj & Hf). pose proof (lookup_lt_Some _ _ _ Hf) as Hlen.
    exists (Z.to_nat (j - Z.min a len)). apply lookup_take_Some. rewrite lookup_drop.
    split; [| lia].
    replace (Z.to_nat (Z.min a len) + Z.to_nat (j - Z.min a len))%nat with (Z.to_nat j) by lia.
    exact Hf.
Qed.

(** X24.  [forcePreloadScene] for the scene of the current world (frame
    index [i], window [M = MaxWorldNumber]) returns, and afterwards the
    entries of the scene are those it had plus one for every frame at a
    position [j] with [max(0, floor(i - M/2)) <= j < max(0, floor(i - M/2)) + M]
    (and within the scene's frames). *)
Theorem forcePreloadScene_fills_the_window meta m cur s :
  let sc := fi_scene (frameInfo (heap s cur)) in
  let i := frame_index (frameInfo (heap s cur)) in
  let M := MaxWorldNumber (data s) in
  let first := Z.max 0 ((2 * i - M) / 2) in
  meta !! sc = Some m -> registered s -> 0 <= M ->
  let r := forcePreloadScene meta sc cur s in
  fst r = Normal tt /\
  forall f, has_entry (snd r) sc f <->
            has_entry s sc f \/
            exists j, first <= j < first + M /\ frames m !! Z.to_nat j = Some f.
Proof.
  intros sc i M first Hm Hr HM r. subst r. unfold forcePreloadScene. js_run.
  fold sc i M. rewrite Hm. js_run. fold M.
  set (start := Qmax 0 (inject_Z i - (M # 2))).
  set (end_ := Qmin (inject_Z (Z.of_nat (length (frames m)))) (start + inject_Z M)).
  assert (Hs0 : (0 <= start)%Q) by apply Q.le_max_l.
  assert (Hs : ToInteger start = first).
  { rewrite ToInteger_nonneg by exact Hs0. unfold start. rewrite Qfloor_max0, Qfloor_half.
    reflexivity. }
  assert (He0 : (0 <= end_)%Q).
  { apply Q.min_glb.
    - change 0%Q with (inject_Z 0). rewrite <- Zle_Qle. lia.
    - replace 0%Q with (0 + inject_Z 0)%Q by reflexivity. apply Qplus_le_compat; [exact Hs0 |].
      rewrite <- Zle_Qle. exact HM. }
  assert (He : ToInteger end_ = Z.min (Z.of_nat (length (frames m))) (first + M)).
  { rewrite ToInteger_nonneg by exact He0. unfold end_.
    rewrite Qfloor_min, Qfloor_Z, Qfloor_add_Z, <- (ToInteger_nonneg start) by exact Hs0.
    rewrite Hs. reflexivity. }
  subst sc.
  destruct (doPreload_effect meta m _ start end_ s Hm Hr) as (C1 & C2 & C3 & C4).
  split; [exact C1 |]. intros f.
  assert (Hw : f ∈ Array_slice (frames m) start end_ <->
               exists j, first <= j < first + M /\ frames m !! Z.to_nat j = Some f).
  { rewrite (Array_slice_elem _ _ _ _ _ f Hs He) by lia. split.
    - intros (j & Hj & Hf). exists j. split; [lia | exact Hf].
    - intros (j & Hj & Hf). exists j. pose proof (lookup_lt_Some _ _ _ Hf). split; [lia | exact Hf]. }
  split.
  - intros H. apply C3 in H as [H|(_ & H & _)]; [left; exact H | right; apply Hw, H].
  - intros [(w & Hin & H1 & H2)|H].
    + destruct (C4 w Hin) as [Hin' Eh]. exists w. split; [exact Hin' |]. rewrite Eh. auto.
    + apply C2, Hw, H.
Qed.

(** ** The properties of the helper lemmas above, by name *)

(** X1.  [allocateOffset] never hands out [undefined]: in every state [pop]
    finds an array, the free list being refilled with a ring of eight when it
    is empty. *)
Theorem allocateOffset_returns_an_array (s : State) :
  exists o, fst (allocateOffset s) = Normal (Some o).
Proof. exact (allocateOffset_Some s). Qed.

(** X7.  When [deleteOtherWorldsExcept(keepScene)] returns, [worldList]
    holds the entries of [keepScene], in their order, and these worlds and
    the reference pose of [keepScene] are untouched; every entry of another
    scene has been destroyed, is no longer done, has its offset back in the
    free list, and its scene has no reference pose any more. *)
Theorem deleteOtherWorldsExcept_keeps_one_scene (s : State) (keepScene : string) :
  fst (deleteOtherWorldsExcept keepScene s) = Normal tt ->
  let s' := exec (deleteOtherWorldsExcept keepScene) s in
  worldList (data s')
    = List.filter (fun w => bool_decide (fi_scene (frameInfo (heap s w)) = keepScene))
                  (worldList (data s)) /\
  (forall w, fi_scene (frameInfo (heap s w)) = keepScene -> heap s' w = heap s w) /\
  refEgoPose (data s') !! keepScene = refEgoPose (data s) !! keepScene /\
  (forall w, w ∈ worldList (data s) -> fi_scene (frameInfo (heap s w)) <> keepScene ->
     destroyed (heap s' w) = true /\ everythingDone (heap s' w) = false /\
     offsetIndex (heap s w) ∈ offsetList (data s') /\
     refEgoPose (data s') !! fi_scene (frameInfo (heap s w)) = None).
Proof. exact (deleteOtherWorldsExcept_effect s keepScene). Qed.

(** X8.  [deleteDistantWorlds] never changes [worldList], whether it returns
    or throws: when its last filter runs, no entry is [removable] any more. *)
Theorem deleteDistantWorlds_never_shrinks (s : State) (currentWorld : wid) :
  worldList (data (exec (deleteDistantWorlds currentWorld) s)) = worldList (data s).
Proof. exact (deleteDistantWorlds_keeps_worldList s currentWorld). Qed.

(** X19.  For a scene with metadata, [_createWorld] returns a new world and
    registers it as the last entry of [worldList]: the world is for the given
    scene and frame (its index the position of the frame in the scene's
    frames, -1 when absent), it lies at [worldGap] times the cell that
    [allocateOffset] handed out, its pose is settled when the frame details
    hold one, and nothing of it is preloaded, active, done or destroyed.
    Every other object, the scene graph and the trace are untouched. *)
Theorem createWorld_registers_one_entry (meta : gmap string SceneMeta) (m : SceneMeta)
    (sceneName : string) (frameId : Z) (cb : option Callback) (s : State) :
  meta !! sceneName = Some m ->
  let s' := exec (_createWorld meta sceneName frameId cb) s in
  exists o w,
    fst (allocateOffset s) = Normal (Some o) /\
    fst (_createWorld meta sceneName frameId cb s) = Normal w /\
    (nextId s <= w < nextId s')%nat /\
    worldList (data s') = worldList (data s) ++ [w] /\
    createWorldIndex (data s') = createWorldIndex (data s) + 1 /\
    heap s' w = World_created m sceneName frameId (cell o) cb (mkOffsetArray (S w) (cell o)) /\
    (forall j, j <> w -> heap s' j = heap s j) /\
    children s' = children s /\ trace s' = trace s.
Proof. exact (createWorld_effect meta m sceneName frameId cb s). Qed.

(** X23.  For a scene with metadata, [_doPreload(sceneName, start, end)]
    returns, and afterwards every frame of [frames.slice(start, end)] has an
    entry; the entries there are now are those there were before and one new
    one for each frame of the slice that had none; the worlds registered
    before are untouched. *)
Theorem doPreload_covers_the_window (meta : gmap string SceneMeta) (m : SceneMeta)
    (sc : string) (a b : Q) (s : State) :
  meta !! sc = Some m -> registered s ->
  let r := _doPreload meta sc a b s in
  fst r = Normal tt /\
  (forall f, f ∈ Array_slice (frames m) a b -> has_entry (snd r) sc f) /\
  (forall sc' f', has_entry (snd r) sc' f' ->
     has_entry s sc' f' \/ (sc' = sc /\ f' ∈ Array_slice (frames m) a b /\ ~ has_entry s sc f')) /\
  (forall j, j ∈ worldList (data s) -> j ∈ worldList (data (snd r)) /\ heap (snd r) j = heap s j).
Proof. exact (doPreload_effect meta m sc a b s). Qed.

(** ** Instances *)

Lemma allocateOffset_restarts_at_origin_witness :
  fst (allocateOffset fresh_state) = Normal (Some (mkOffsetArray 1 (0, 0, 0))) /\
  offsetList (data (exec allocateOffset fresh_state)) = [].
Proof.
  destruct (allocateOffset_restarts_at_origin fresh_state) as (H1 & H2 & _);
    [vm_compute; reflexivity |].
  split; [exact H1 | exact H2].
Defined.

Lemma returnOffset_then_allocateOffset_witness :
  let o := offsetIndex (heap ex_state 0%nat) in
  allocateOffset (exec (returnOffset o) ex_state) = (Normal (Some o), ex_state).
Proof.
  apply (returnOffset_then_allocateOffset ex_state). vm_compute. discriminate.
Defined.

Lemma allocateOffset_then_returnOffset_witness :
  exists o, fst (allocateOffset ex_state) = Normal (Some o) /\
            last (offsetList (data ex_state)) = Some o /\
            exec (returnOffset o) (exec allocateOffset ex_state) = ex_state.
Proof.
  apply (allocateOffset_then_returnOffset ex_state); vm_compute; discriminate.
Defined.

Lemma deleteAll_twice_witness :
  deleteAll 0 (exec (deleteAll 0) ex_shown) = (Normal tt, exec (deleteAll 0) ex_shown).
Proof. apply (deleteAll_twice ex_shown 0). vm_compute. reflexivity. Defined.

Lemma attached_worlds_are_the_done_ones_witness :
  attached_iff_done ex_state /\
  attached_iff_done (run [ LidarPreloaded 0; AnnotationPreloaded 0; EgoPoseLoaded 0 None;
                           CallActivateWorld 0 None false; CallUnload 0;
                           CallDeleteAll 0 ] ex_state).
Proof.
  assert (H : attached_iff_done ex_state).
  { intros w. split; [intros Hw; apply elem_of_nil in Hw; destruct Hw |].
    destruct w as [|w]; simpl; discriminate. }
  split; [exact H | apply attached_worlds_are_the_done_ones, H].
Defined.

Lemma activate_world_keeps_old_attached_witness :
  let s' := exec (activate_world 1 (Some (Cb 2)) true) ex_shown in
  children s' = [0%nat; 1%nat] /\ everythingDone (heap s' 0%nat) = true /\
  everythingDone (heap s' 1%nat) = true.
Proof.
  destruct (activate_world_keeps_old_attached ex_shown 1 (Some (Cb 2)))
    as (_ & H2 & H3 & H4); try (vm_compute; reflexivity).
  cbv zeta. split; [rewrite H2; vm_compute; reflexivity |].
  split; [rewrite H4 by discriminate; vm_compute; reflexivity | exact H3].
Defined.

Lemma activate_world_shown_only_notifies_witness :
  let s' := exec (activate_world 0 (Some (Cb 3)) false) ex_both_shown in
  trace s' = trace ex_both_shown ++ [OnFinished (Cb 3) 0] /\
  children s' = children ex_both_shown.
Proof.
  destruct (activate_world_shown_only_notifies ex_both_shown 0 (Some (Cb 3)) false)
    as (_ & H2 & H3 & _); try (vm_compute; reflexivity).
  split; [exact H2 | exact H3].
Defined.

Lemma activate_world_without_scene_throws_witness :
  let s := exec (writeData (fun d => mkData (cfg d) (worldList d) None (world d) (refEgoPose d)
                                            (offsetList d) (lastSeedOffset d)
                                            (offsetsAliveCount d) (MaxWorldNumber d)
                                            (createWorldIndex d))) ex_shown in
  fst (activate_world 1 None true s) = Thrown TypeError.
Proof.
  cbv zeta.
  match goal with |- fst (activate_world 1 None true ?s) = _ =>
    destruct (activate_world_without_scene_throws s 1 None) as (H & _);
      try (vm_compute; reflexivity); exact H
  end.
Defined.

Lemma EgoPose_deferred_go_is_dropped_witness :
  let s1 := exec (EgoPose_go 0 (Some (Cb 5))) ex_state in
  let s2 := exec (EgoPose_onreadystatechange 0 None) s1 in
  on_go_finished (egoPose (heap s1 0%nat)) = Some (Cb 5) /\
  ep_preloaded (egoPose (heap s2 0%nat)) = true /\
  OnGoFinished (Cb 5) 0 ∉ trace s2.
Proof.
  destruct (EgoPose_deferred_go_is_dropped ex_state 0 (Cb 5) None) as (_ & _ & H3 & H4 & H5).
  - vm_compute. reflexivity.
  - intros c H. apply elem_of_nil in H. destruct H.
  - split; [exact H3 |]. split; [exact H4 | apply H5].
Defined.

Lemma scene_position_is_point_plus_offset_witness :
  let s := run [SelectCoordinateSystem (mkConfig "local" true)] ex_posed in
  let W := heap (exec (calcTransformMatrix 1) s) 1%nat in
  lidarPosToScene W (mkVector3 1 1 0)%Qc
  = Some (shifted (coordinatesOffset W) (mkVector3 1 1 0)%Qc).
Proof.
  destruct (scene_position_is_point_plus_offset
              (run [SelectCoordinateSystem (mkConfig "local" true)] ex_posed) 1 (mkVector3 1 1 0)%Qc) as [H _].
  - vm_compute. reflexivity.
  - apply H. intros E. vm_compute in E. discriminate E.
Defined.

Lemma deleteOtherWorldsExcept_keeps_one_scene_witness :
  let s' := exec (deleteOtherWorldsExcept "A") ex_cache in
  worldList (data ex_cache) = [2%nat; 12%nat; 14%nat] /\
  worldList (data s') = [2%nat; 12%nat] /\
  destroyed (heap s' 14%nat) = true.
Proof.
  destruct (deleteOtherWorldsExcept_keeps_one_scene ex_cache "A") as (H1 & _ & _ & H4);
    [vm_compute; reflexivity |].
  cbv zeta. split; [vm_compute; reflexivity |]. split; [rewrite H1; vm_compute; reflexivity |].
  apply (H4 14%nat); [vm_compute | vm_compute; discriminate].
  apply elem_of_cons; right; apply elem_of_cons; right; apply elem_of_cons; left; reflexivity.
Defined.

Lemma createWorld_registers_one_entry_witness :
  let s' := exec (_createWorld ex_meta "A" 1100 None) fresh_state in
  worldList (data s') = [2%nat] /\
  coordinatesOffset (heap s' 2%nat) = (gap 0, gap 0, gap 0) /\
  ep_egoPose (egoPose (heap s' 2%nat)) = Some ex_poseA.
Proof.
  destruct (createWorld_registers_one_entry ex_meta ex_sceneA "A" 1100 None fresh_state)
    as (o & w & H1 & H2 & _ & H4 & _ & H6 & _); [vm_compute; reflexivity |].
  vm_compute in H1, H2. injection H1 as <-. injection H2 as <-.
  cbv zeta. split; [rewrite H4; reflexivity |]. rewrite H6. split; reflexivity.
Defined.

Lemma createWorld_without_metadata_witness :
  _createWorld ex_meta "C" 7 None fresh_state = (Thrown TypeError, exec allocateOffset fresh_state).
Proof. apply createWorld_without_metadata. vm_compute. reflexivity. Defined.

Lemma getWorld_twice_witness :
  let r := getWorld ∅ (Normal ex_sceneA) "A" 1000 (Some (Cb 0)) fresh_state in
  let meta1 : gmap string SceneMeta := <["A" := ex_sceneA]> ∅ in
  fst r = Normal (meta1, Some 2%nat) /\
  getWorld meta1 (Thrown TypeError) "A" 1000 None (snd r) = (Normal (meta1, Some 2%nat), snd r).
Proof.
  pose proof (getWorld_twice ∅ (Normal ex_sceneA) (Thrown TypeError) "A" 1000
                (Some (Cb 0)) None fresh_state) as H.
  cbv zeta in H |- *.
  assert (E : fst (getWorld ∅ (Normal ex_sceneA) "A" 1000 (Some (Cb 0)) fresh_state)
              = Normal (<["A" := ex_sceneA]> ∅, Some 2%nat)) by (vm_compute; reflexivity).
  rewrite E in H. split; [exact E |]. apply H.
  - vm_compute. reflexivity.
  - intros w Hw. apply elem_of_nil in Hw. destruct Hw.
Defined.

Lemma createWorld_then_findWorld_witness :
  let r := _createWorld ex_meta "A" 1200 None fresh_state in
  exists w e, fst r = Normal w /\ findWorld (snd r) "A" 2 = Some e.
Proof.
  destruct (createWorld_then_findWorld ex_meta ex_sceneA "A" 1200 None fresh_state)
    as (w & e & H1 & H2 & _).
  - vm_compute. reflexivity.
  - intros w Hw. apply elem_of_nil in Hw. destruct Hw.
  - exists w, e. split; [exact H1 | exact H2].
Defined.

Lemma doPreload_covers_the_window_witness :
  let r := _doPreload ex_meta "A" 1 3 fresh_state in
  fst r = Normal tt /\ has_entry (snd r) "A" 1100 /\ has_entry (snd r) "A" 1200.
Proof.
  destruct (doPreload_covers_the_window ex_meta ex_sceneA "A" 1 3 fresh_state)
    as (H1 & H2 & _).
  - vm_compute. reflexivity.
  - intros w Hw. apply elem_of_nil in Hw. destruct Hw.
  - split; [exact H1 |]. split; apply H2; vm_compute.
    + apply elem_of_cons; left; reflexivity.
    + apply elem_of_cons; right; apply elem_of_cons; left; reflexivity.
Defined.

Lemma forcePreloadScene_fills_the_window_witness :
  let r := forcePreloadScene ex_meta "A" 0 fresh_state in
  fst r = Normal tt /\ has_entry (snd r) "A" 1300.
Proof.
  destruct (forcePreloadScene_fills_the_window ex_meta ex_sceneA 0%nat fresh_state)
    as (H1 & H2).
  - vm_compute. reflexivity.
  - intros w Hw. apply elem_of_nil in Hw. destruct Hw.
  - vm_compute. discriminate.
  - split; [exact H1 |]. apply H2. right. exists 3. split; [vm_compute; split; [discriminate | reflexivity] |].
    reflexivity.
Defined.

Lemma preloadScene_keeps_one_scene_witness :
  one_scene "A" (exec (preloadScene ex_meta "A" 0) fresh_state) /\
  registered (exec (preloadScene ex_meta "A" 0) fresh_state).
Proof.
  apply (preloadScene_keeps_one_scene ex_meta "A" 0%nat fresh_state).
  - intros w Hw. apply elem_of_nil in Hw. destruct Hw.
  - vm_compute. reflexivity.
Defined.

